(** * nessai: reparameterisation registry and sampling utilities

    A shallow embedding of two leaves of the nested-sampling package:

    - the reparameterisation registry ([get_reparameterisation]), whose
      implementation module is not part of the sources at hand; only its
      test-suite [tests/test_reparameterisations/test_get_reparameterisation.py]
      is, so the lookup is modelled from the specification and checked
      against the table the test-suite iterates over;
    - the drawing utilities of [nessai/utils/sampling.py], embedded line by
      line over a small model of the numpy operations they use: first
      with exact arithmetic on finite values, which settles shapes,
      calling conventions and the special values; then, for the sphere
      and the ball draws, with every operation rounded to double
      precision, which is what a statement about norms needs.

    Python exceptions are values of [exn]; a computation that may raise
    returns a [result]. *)

From Stdlib Require Import ZArith List String Ascii Bool Lia.
From Stdlib Require Import QArith.
From Stdlib Require Import Reals Lra.
From stdpp Require Import gmap strings pretty.

Import ListNotations.

(** ** Python exceptions *)

Inductive exn : Type :=
| TypeError (msg : string)
| ValueError (msg : string)
| ZeroDivisionError (msg : string)
| OverflowError (msg : string).

Inductive result (A : Type) : Type :=
| Ok (a : A)
| Raise (e : exn).

Arguments Ok {A} a.
Arguments Raise {A} e.

(** [contains needle hay] is Python's [needle in hay] on strings. *)
Fixpoint contains (needle hay : string) : bool :=
  String.prefix needle hay
  || match hay with
     | EmptyString => false
     | String _ rest => contains needle rest
     end.

(** ** The reparameterisation registry *)

Module Registry.

Local Open Scope string_scope.

(** Modelled from the spec: the classes of [nessai.reparameterisations],
    a module absent from the sources; these are the names the test-suite
    imports from it. *)
Inductive builtin_class : Type :=
| Reparameterisation
| NullReparameterisation
| RescaleToBounds
| Rescale
| Angle
| AnglePair
| ToCartesian.

(** Modelled from the spec: a class defined by the caller, as in the
    test-suite, with its name, the library classes it inherits from, and
    the attributes its own body defines. *)
Record user_class : Type := UserClass {
  uc_name : string;
  uc_bases : list builtin_class;
  uc_attrs : list string
}.

Inductive pyclass : Type :=
| Builtin (b : builtin_class)
| User (u : user_class).

(** Python objects that can be handed to the registry or stored in a
    keyword dictionary. *)
Inductive pyobj : Type :=
| PyNone
| PyBool (b : bool)
| PyInt (z : Z)
| PyFloat (q : Q)
| PyStr (s : string)
| PyClass (c : pyclass).

(** Modelled from the spec: the Reparameterisation capability.  The module
    defining the base class is absent; the specification describes the
    capability as exposing forward/inverse and name/prior-bounds
    metadata. *)
Definition required_interface : list string :=
  ["forward"; "inverse"; "name"; "prior_bounds"].

(** Modelled from the spec: every registered class is a structural
    subtype of the capability, so every library class carries the whole
    interface. *)
Definition builtin_attrs (b : builtin_class) : list string :=
  required_interface.

Definition class_attrs (c : pyclass) : list string :=
  match c with
  | Builtin b => builtin_attrs b
  | User u => uc_attrs u ++ flat_map builtin_attrs (uc_bases u)
  end.

Definition has_attr (c : pyclass) (a : string) : bool :=
  existsb (String.eqb a) (class_attrs c).

(** Modelled from the spec: structural conformance of a class to the
    Reparameterisation capability. *)
Definition satisfies_capability (c : pyclass) : bool :=
  forallb (has_attr c) required_interface.

(** *** Name normalisation

    Modelled from the spec: resolution is case-insensitive and treats
    [-] and [_] as the same separator.  Names are ASCII. *)

Definition is_upper (c : ascii) : bool :=
  (65 <=? nat_of_ascii c)%nat && (nat_of_ascii c <=? 90)%nat.

Definition lower_char (c : ascii) : ascii :=
  if is_upper c then ascii_of_nat (nat_of_ascii c + 32) else c.

Definition is_separator (c : ascii) : bool :=
  Ascii.eqb c "-" || Ascii.eqb c "_".

Definition canonical_char (c : ascii) : ascii :=
  if is_separator c then "-"%char else lower_char c.

(** Modelled from the spec: lookup keys are compared case-insensitively
    with [-] and [_] interchangeable; the canonical form is lower case
    with hyphens. *)
Fixpoint normalise (s : string) : string :=
  match s with
  | EmptyString => EmptyString
  | String c rest => String (canonical_char c) (normalise rest)
  end.

(** The equivalence the specification words: two characters are the
    same up to letter case, or are both separators. *)
Definition char_equiv (a b : ascii) : bool :=
  Ascii.eqb (lower_char a) (lower_char b)
  || (is_separator a && is_separator b).

(** Two names are the same up to letter case and choice of separator. *)
Fixpoint name_equiv (s t : string) : bool :=
  match s, t with
  | EmptyString, EmptyString => true
  | String a s', String b t' => char_equiv a b && name_equiv s' t'
  | _, _ => false
  end.

(** *** The registry table *)

Abbreviation kwargs := (gmap string pyobj).

Definition no_kwargs : kwargs := ∅.

Definition inversion_kwargs (inversion_type : string) : kwargs :=
  <["detect_edges" := PyBool true]>
  (<["boundary_inversion" := PyBool true]>
  (<["inversion_type" := PyStr inversion_type]> ∅)).

Definition angle_kwargs (scale : Q) (prior : string) : kwargs :=
  <["scale" := PyFloat scale]> (<["prior" := PyStr prior]> ∅).

(** Modelled from the spec: the registry's alias table
    ([default_reparameterisations] in the absent module), keyed by
    canonical names. *)
Definition default_entries : list (string * (pyclass * kwargs)) :=
  [ ("default", (Builtin RescaleToBounds, no_kwargs));
    ("rescaletobounds", (Builtin RescaleToBounds, no_kwargs));
    ("rescale-to-bounds", (Builtin RescaleToBounds, no_kwargs));
    ("offset", (Builtin RescaleToBounds, <["offset" := PyBool true]> ∅));
    ("inversion", (Builtin RescaleToBounds, inversion_kwargs "split"));
    ("inversion-duplicate",
       (Builtin RescaleToBounds, inversion_kwargs "duplicate"));
    ("scale", (Builtin Rescale, no_kwargs));
    ("rescale", (Builtin Rescale, no_kwargs));
    ("angle", (Builtin Angle, no_kwargs));
    ("angle-pi", (Builtin Angle, angle_kwargs (2 # 1) "uniform"));
    ("angle-2pi", (Builtin Angle, angle_kwargs (1 # 1) "uniform"));
    ("angle-sine", (Builtin Angle, angle_kwargs (1 # 1) "sine"));
    ("angle-pair", (Builtin AnglePair, no_kwargs));
    ("to-cartesian", (Builtin ToCartesian, no_kwargs));
    ("none", (Builtin NullReparameterisation, no_kwargs));
    ("null", (Builtin NullReparameterisation, no_kwargs)) ].

Definition default_reparameterisations : gmap string (pyclass * kwargs) :=
  list_to_map default_entries.

Section Resolve.

(** The specification fixes the type error's message up to the wording
    that follows "Reparameterisation must be". *)
Variable capability_description : string.

Definition type_error_message : string :=
  "Reparameterisation must be " ++ capability_description.

Definition unknown_message (identifier : string) : string :=
  "Unknown reparameterisation: " ++ identifier.

(** Modelled from the spec: [get_reparameterisation], the registry's
    resolve operation (section 4.1). *)
Definition get_reparameterisation (identifier : pyobj)
  : result (pyclass * kwargs) :=
  match identifier with
  | PyNone => Ok (Builtin NullReparameterisation, no_kwargs)
  | PyStr s =>
      match default_reparameterisations !! normalise s with
      | Some entry => Ok entry
      | None => Raise (ValueError (unknown_message s))
      end
  | PyClass c =>
      if satisfies_capability c then Ok (c, no_kwargs)
      else Raise (TypeError type_error_message)
  | _ => Raise (TypeError type_error_message)
  end.

End Resolve.

(** *** The table of the test-suite

    [known_reparameteristions] of
    [tests/test_reparameterisations/test_get_reparameterisation.py]. *)
Definition known_reparameteristions : list (pyobj * pyclass * kwargs) :=
  [ (PyStr "default", Builtin RescaleToBounds, ∅);
    (PyStr "rescaletobounds", Builtin RescaleToBounds, ∅);
    (PyStr "rescale-to-bounds", Builtin RescaleToBounds, ∅);
    (PyStr "offset", Builtin RescaleToBounds, {[ "offset" := PyBool true ]});
    (PyStr "inversion", Builtin RescaleToBounds,
       <["detect_edges" := PyBool true]>
       (<["boundary_inversion" := PyBool true]>
       {[ "inversion_type" := PyStr "split" ]}));
    (PyStr "inversion-duplicate", Builtin RescaleToBounds,
       <["detect_edges" := PyBool true]>
       (<["boundary_inversion" := PyBool true]>
       {[ "inversion_type" := PyStr "duplicate" ]}));
    (PyStr "scale", Builtin Rescale, ∅);
    (PyStr "rescale", Builtin Rescale, ∅);
    (PyStr "angle", Builtin Angle, ∅);
    (PyStr "angle-pi", Builtin Angle,
       <["scale" := PyFloat (2 # 1)]> {[ "prior" := PyStr "uniform" ]});
    (PyStr "angle-2pi", Builtin Angle,
       <["scale" := PyFloat (1 # 1)]> {[ "prior" := PyStr "uniform" ]});
    (PyStr "angle-sine", Builtin Angle,
       <["scale" := PyFloat (1 # 1)]> {[ "prior" := PyStr "sine" ]});
    (PyStr "angle-pair", Builtin AnglePair, ∅);
    (PyStr "to-cartesian", Builtin ToCartesian, ∅);
    (PyStr "none", Builtin NullReparameterisation, ∅);
    (PyStr "null", Builtin NullReparameterisation, ∅);
    (PyNone, Builtin NullReparameterisation, ∅) ].

(** The string names among the known identifiers. *)
Definition known_names : list string :=
  flat_map (fun e => match e with
                     | (PyStr s, _, _) => [s]
                     | _ => []
                     end) known_reparameteristions.

(** The local classes of [test_get_reparameterisation_with_class] and of
    [test_get_reparameterisation_with_class_error]. *)
Definition TestReparam_derived : pyclass :=
  User (UserClass "TestReparam" [Reparameterisation] []).

Definition TestReparam_plain : pyclass :=
  User (UserClass "TestReparam" [] []).

End Registry.

(** ** Sampling utilities ([nessai/utils/sampling.py]) *)

Module Sampling.

Local Open Scope R_scope.

(** *** Floating-point values

    A float is a finite real, an infinity or NaN.  Arithmetic on finite
    values is exact (no rounding, no overflow, one zero); on the special
    values it follows IEEE 754, which is what decides the behaviour of a
    division by zero.  The module [Binary64] adds the rounding. *)
Inductive num : Type :=
| Fin (x : R)
| PInf
| NInf
| NaN.

Definition is_finite (a : num) : bool :=
  match a with
  | Fin _ => true
  | _ => false
  end.

Definition inf (positive : bool) : num :=
  if positive then PInf else NInf.

Definition neg (a : num) : num :=
  match a with
  | Fin x => Fin (- x)
  | PInf => NInf
  | NInf => PInf
  | NaN => NaN
  end.

Definition add (a b : num) : num :=
  match a, b with
  | NaN, _ | _, NaN => NaN
  | Fin x, Fin y => Fin (x + y)
  | PInf, NInf | NInf, PInf => NaN
  | PInf, _ | _, PInf => PInf
  | NInf, _ | _, NInf => NInf
  end.

Definition sub (a b : num) : num := add a (neg b).

(** An infinity times a finite value: NaN at zero, otherwise the sign
    rule. *)
Definition scale_inf (positive : bool) (y : R) : num :=
  if Req_EM_T y 0 then NaN
  else if Rlt_dec 0 y then inf positive
  else inf (negb positive).

Definition mul (a b : num) : num :=
  match a, b with
  | NaN, _ | _, NaN => NaN
  | Fin x, Fin y => Fin (x * y)
  | PInf, Fin y | Fin y, PInf => scale_inf true y
  | NInf, Fin y | Fin y, NInf => scale_inf false y
  | PInf, PInf | NInf, NInf => PInf
  | PInf, NInf | NInf, PInf => NInf
  end.

(** numpy's true division: a zero divisor gives NaN for a zero dividend
    and an infinity otherwise; no exception is raised. *)
Definition div (a b : num) : num :=
  match a, b with
  | NaN, _ | _, NaN => NaN
  | Fin x, Fin y =>
      if Req_EM_T y 0 then
        if Req_EM_T x 0 then NaN
        else if Rlt_dec 0 x then PInf else NInf
      else Fin (x / y)
  | Fin _, (PInf | NInf) => Fin 0
  | (PInf | NInf), (PInf | NInf) => NaN
  | PInf, Fin y => if Rlt_dec y 0 then NInf else PInf
  | NInf, Fin y => if Rlt_dec y 0 then PInf else NInf
  end.

(** [np.sqrt] on a scalar. *)
Definition np_sqrt (a : num) : num :=
  match a with
  | Fin x => if Rlt_dec x 0 then NaN else Fin (sqrt x)
  | PInf => PInf
  | NInf | NaN => NaN
  end.

Definition is_integer (y : R) : bool :=
  if Req_EM_T (IZR (Int_part y)) y then true else false.

Definition is_odd_integer (y : R) : bool :=
  is_integer y && Z.odd (Int_part y).

(** The power operator on floats (C's [pow]). *)
Definition pow (a b : num) : num :=
  match b with
  | Fin y =>
      if Req_EM_T y 0 then Fin 1
      else
        match a with
        | NaN => NaN
        | Fin x =>
            if Rlt_dec 0 x then Fin (Rpower x y)
            else if Req_EM_T x 0 then
              if Rlt_dec 0 y then Fin 0 else PInf
            else if is_integer y then
              Fin ((if Z.odd (Int_part y) then -1 else 1) * Rpower (- x) y)
            else NaN
        | PInf => if Rlt_dec 0 y then PInf else Fin 0
        | NInf =>
            if Rlt_dec 0 y then
              if is_odd_integer y then NInf else PInf
            else Fin 0
        end
  | NaN =>
      match a with
      | Fin x => if Req_EM_T x 1 then Fin 1 else NaN
      | _ => NaN
      end
  | PInf =>
      match a with
      | NaN => NaN
      | Fin x =>
          if Req_EM_T (Rabs x) 1 then Fin 1
          else if Rlt_dec (Rabs x) 1 then Fin 0 else PInf
      | _ => PInf
      end
  | NInf =>
      match a with
      | NaN => NaN
      | Fin x =>
          if Req_EM_T (Rabs x) 1 then Fin 1
          else if Rlt_dec (Rabs x) 1 then PInf else Fin 0
      | _ => Fin 0
      end
  end.

(** Comparison of floats: false as soon as a NaN is involved. *)
Definition num_le (a b : num) : Prop :=
  match a, b with
  | NaN, _ | _, NaN => False
  | Fin x, Fin y => x <= y
  | NInf, _ | _, PInf => True
  | _, _ => False
  end.

Definition num_lt (a b : num) : Prop :=
  match a, b with
  | NaN, _ | _, NaN => False
  | Fin x, Fin y => x < y
  | NInf, (Fin _ | PInf) | Fin _, PInf => True
  | _, _ => False
  end.

(** Membership of the half-open interval [0, 1). *)
Definition in_unit_interval (v : num) : Prop :=
  num_le (Fin 0) v /\ num_lt v (Fin 1).

(** Python's [1 / dims] on integers. *)
Definition py_int_truediv (a b : Z) : result num :=
  if (b =? 0)%Z then Raise (ZeroDivisionError "division by zero")
  else Ok (Fin (IZR a / IZR b)).

(** *** Arrays

    One-dimensional arrays are lists; two-dimensional arrays carry their
    shape and their entries in row-major order. *)
Definition array1 : Type := list num.

Record array2 : Type := Array2 {
  nrows : nat;
  ncols : nat;
  elems : list num
}.

(** A two-dimensional array is well formed when its buffer has one
    entry per position. *)
Definition well_formed (a : array2) : Prop :=
  length (elems a) = (nrows a * ncols a)%nat.

(** [a[i, j]] *)
Definition get2 (a : array2) (i j : nat) : num :=
  nth (i * ncols a + j) (elems a) NaN.

Definition row (a : array2) (i : nat) : list num :=
  map (get2 a i) (seq 0 (ncols a)).

Definition tabulate2 (r c : nat) (f : nat -> nat -> num) : array2 :=
  {| nrows := r; ncols := c;
     elems := flat_map (fun i => map (f i) (seq 0 c)) (seq 0 r) |}.

Definition map2 (f : num -> num) (a : array2) : array2 :=
  {| nrows := nrows a; ncols := ncols a; elems := map f (elems a) |}.

(** [a.T] *)
Definition transpose (a : array2) : array2 :=
  tabulate2 (ncols a) (nrows a) (fun i j => get2 a j i).

(** [v[:, np.newaxis]]: a vector as a column. *)
Definition newaxis_col (v : array1) : array2 :=
  {| nrows := length v; ncols := 1; elems := v |}.

(** Broadcasting prepends an axis of length one to a vector. *)
Definition as_row (v : array1) : array2 :=
  {| nrows := 1; ncols := length v; elems := v |}.

(** [np.sum(a, axis=1)]: the sum of each row (the order of summation
    does not matter for exact values). *)
Definition np_sum_axis1 (a : array2) : array1 :=
  map (fun i => fold_left add (row a i) (Fin 0)) (seq 0 (nrows a)).

(** numpy's broadcasting rule for one axis. *)
Definition broadcast_dim (m n : nat) : option nat :=
  if (m =? n)%nat then Some m
  else if (m =? 1)%nat then Some n
  else if (n =? 1)%nat then Some m
  else None.

(** Index into an axis that may have been stretched from length one. *)
Definition stretch (size i : nat) : nat :=
  if (size =? 1)%nat then 0%nat else i.

Definition broadcast2 (f : num -> num -> num) (a b : array2)
  : result array2 :=
  match broadcast_dim (nrows a) (nrows b),
        broadcast_dim (ncols a) (ncols b) with
  | Some r, Some c =>
      Ok (tabulate2 r c (fun i j =>
            f (get2 a (stretch (nrows a) i) (stretch (ncols a) j))
              (get2 b (stretch (nrows b) i) (stretch (ncols b) j))))
  | _, _ =>
      Raise (ValueError "operands could not be broadcast together")
  end.

Definition np_multiply : array2 -> array2 -> result array2 := broadcast2 mul.
Definition np_divide : array2 -> array2 -> result array2 := broadcast2 div.

(** [s * a] and [a ** s] for a scalar [s]. *)
Definition scalar_mul (s : num) (a : array2) : array2 := map2 (mul s) a.
Definition power_scalar (a : array2) (s : num) : array2 :=
  map2 (fun x => pow x s) a.

(** The Euclidean norm of every row: [np.sqrt(np.sum(a ** 2., axis=1))]. *)
Definition row_norms (a : array2) : array1 :=
  map np_sqrt (np_sum_axis1 (power_scalar a (Fin 2))).

Definition row_norm (a : array2) (i : nat) : num :=
  nth i (row_norms a) NaN.

(** [a] has shape [(n, c)], is well formed, and holds [g i j] at
    position [(i, j)]. *)
Definition represents (a : array2) (n c : nat) (g : nat -> nat -> num)
  : Prop :=
  nrows a = n /\ ncols a = c /\ well_formed a
  /\ forall i j, (i < n)%nat -> (j < c)%nat -> get2 a i j = g i j.

(** The shape [(N, dims)] as Python reports it. *)
Definition has_shape (a : array2) (N dims : Z) : Prop :=
  Z.of_nat (nrows a) = N /\ Z.of_nat (ncols a) = dims /\ well_formed a.

Definition Rsum (l : list R) : R := fold_right Rplus 0 l.

(** The sum of the squares of [h 0 .. h (c - 1)]. *)
Definition sumsq (h : nat -> R) (c : nat) : R :=
  Rsum (map (fun j => h j * h j) (seq 0 c)).

(** *** The random number generator and scipy's chi distribution

    numpy's global generator is a hidden state from which the standard
    normal and the uniform-on-[0,1) generators draw one double at a
    time; both return finite values.  [scipy.stats.chi] provides the
    distribution function and its inverse. *)
Class NumpyRandom : Type := {
  RandomState : Type;
  standard_normal : RandomState -> R * RandomState;
  random_sample : RandomState -> R * RandomState
}.

Class ScipyChi : Type := {
  chi_cdf : num -> Z -> num;
  chi_ppf : num -> Z -> num
}.

(** [random_sample] draws from the half-open unit interval. *)
Definition unit_interval_sampler {rng : NumpyRandom} : Prop :=
  forall st, 0 <= fst (random_sample st) < 1.

(** What is used of the chi distribution with [df] degrees of freedom:
    its distribution function maps the non-negative reals into [0, 1),
    and its quantile function is finite, non-negative and monotone there
    and inverts the distribution function. *)
Record chi_laws {chi : ScipyChi} (df : Z) : Prop := {
  cdf_range : forall y, 0 <= y ->
    exists c, chi_cdf (Fin y) df = Fin c /\ 0 <= c < 1;
  ppf_finite : forall u, 0 <= u < 1 ->
    exists q, chi_ppf (Fin u) df = Fin q /\ 0 <= q;
  ppf_monotone : forall u v q q', 0 <= u <= v -> v < 1 ->
    chi_ppf (Fin u) df = Fin q -> chi_ppf (Fin v) df = Fin q' -> q <= q';
  ppf_cdf : forall y c, 0 <= y ->
    chi_cdf (Fin y) df = Fin c -> chi_ppf (Fin c) df = Fin y
}.

Section Draw.

Context {rng : NumpyRandom} {chi : ScipyChi}.

(** Computations that read and advance the generator and may raise. *)
Definition M (A : Type) : Type := RandomState -> result (A * RandomState).

Definition ret {A} (a : A) : M A := fun st => Ok (a, st).

Definition raise {A} (e : exn) : M A := fun _ => Raise e.

Definition bind {A B} (m : M A) (k : A -> M B) : M B :=
  fun st =>
    match m st with
    | Ok (a, st') => k a st'
    | Raise e => Raise e
    end.

Definition lift {A} (r : result A) : M A :=
  match r with
  | Ok a => ret a
  | Raise e => raise e
  end.

Notation "x <- m ;; k" := (bind m (fun x => k))
  (at level 100, m at next level, right associativity).

(** [n] successive draws. *)
Fixpoint draw_values (gen : RandomState -> R * RandomState) (n : nat)
    (st : RandomState) : list R * RandomState :=
  match n with
  | O => ([], st)
  | S n' =>
      let (v, st1) := gen st in
      let (vs, st2) := draw_values gen n' st1 in
      (v :: vs, st2)
  end.

Definition negative_dimensions : exn :=
  ValueError "negative dimensions are not allowed".

(** [np.random.randn(d0, d1)]: the entries are drawn one at a time and
    stored in row-major order. *)
Definition np_random_randn (d0 d1 : Z) : M array2 :=
  fun st =>
    if ((d0 <? 0) || (d1 <? 0))%Z then Raise negative_dimensions
    else
      let r := Z.to_nat d0 in
      let c := Z.to_nat d1 in
      let (vs, st') := draw_values standard_normal (r * c) st in
      Ok ({| nrows := r; ncols := c; elems := map Fin vs |}, st').

(** One uniform value: [low + (high - low) * random_sample()]. *)
Definition uniform_value (low range : num) (u : R) : num :=
  add low (mul range (Fin u)).

Definition range_exceeds_bounds : exn :=
  OverflowError "Range exceeds valid bounds".

(** [np.random.uniform(low, high, n)]: numpy first checks that
    [high - low] is finite, then the size, then draws. *)
Definition np_random_uniform1 (low high : num) (n : Z) : M array1 :=
  fun st =>
    let range := sub high low in
    if negb (is_finite range) then Raise range_exceeds_bounds
    else if (n <? 0)%Z then Raise negative_dimensions
    else
      let (us, st') := draw_values random_sample (Z.to_nat n) st in
      Ok (map (uniform_value low range) us, st').

(** [np.random.uniform(low, high, (d0, d1))] *)
Definition np_random_uniform2 (low high : num) (size : Z * Z) : M array2 :=
  fun st =>
    let range := sub high low in
    if negb (is_finite range) then Raise range_exceeds_bounds
    else if ((fst size <? 0) || (snd size <? 0))%Z
    then Raise negative_dimensions
    else
      let r := Z.to_nat (fst size) in
      let c := Z.to_nat (snd size) in
      let (us, st') := draw_values random_sample (r * c) st in
      Ok ({| nrows := r; ncols := c;
             elems := map (uniform_value low range) us |}, st').

(** *** The drawing functions *)

Definition draw_surface_nsphere (dims : Z) (r : num) (N : Z) : M array2 :=
  x <- np_random_randn N dims ;;
  R <- ret (newaxis_col
              (map np_sqrt (np_sum_axis1 (power_scalar x (Fin 2))))) ;;
  z <- lift (np_divide x R) ;;
  ret (scalar_mul r z).

Definition draw_nsphere (dims : Z) (r : num) (N : Z) (fuzz : num)
  : M array2 :=
  x <- draw_surface_nsphere dims (Fin 1) N ;;
  R <- np_random_uniform2 (Fin 0) (Fin 1) (N, 1%Z) ;;
  e <- lift (py_int_truediv 1 dims) ;;
  z <- lift (np_multiply (power_scalar R e) x) ;;
  ret (scalar_mul (mul fuzz r) z).

(** [r] and [fuzz] are accepted and never read, whatever their type. *)
Definition draw_uniform {A B : Type} (dims : Z) (r : A) (N : Z) (fuzz : B)
  : M array2 :=
  np_random_uniform2 (Fin 0) (Fin 1) (N, dims).

Definition draw_gaussian {A B : Type} (dims : Z) (r : A) (N : Z) (fuzz : B)
  : M array2 :=
  np_random_randn N dims.

Definition draw_truncated_gaussian (dims : Z) (r : num) (N : Z)
    (fuzz : num) (var : num) : M array2 :=
  let sigma := np_sqrt var in
  let r := mul r fuzz in
  let u_max := chi_cdf (div r sigma) dims in
  u <- np_random_uniform1 (Fin 0) u_max N ;;
  let p := map (mul sigma) (map (fun v => chi_ppf v dims) u) in
  x <- np_random_randn (Z.of_nat (length p)) dims ;;
  px <- lift (np_multiply (as_row p) (transpose x)) ;;
  points <- lift (np_divide px
                    (as_row (map np_sqrt
                               (np_sum_axis1 (power_scalar x (Fin 2)))))) ;;
  ret (transpose points).

(** *** Calling the functions from Python

    Actual arguments are numbers; a parameter's default may also be a
    tuple ([r=(1,)] in [draw_uniform]). *)
Inductive pynum : Type :=
| PyInt (z : Z)
| PyFloat (x : num).

Inductive pyval : Type :=
| Num (n : pynum)
| Tuple (items : list pynum).

(** Integers and finite floats. *)
Definition finite_number (v : pynum) : Prop :=
  match v with
  | PyInt _ => True
  | PyFloat x => is_finite x = true
  end.

(** Array sizes must be Python integers. *)
Definition as_int (v : pyval) : result Z :=
  match v with
  | Num (PyInt z) => Ok z
  | _ => Raise (TypeError "object cannot be interpreted as an integer")
  end.

(** Scalars used in arithmetic: an integer is converted to a float.  No
    function that computes with a parameter gives it a tuple default, so
    the last case is not reached from a call with numeric arguments. *)
Definition as_float (v : pyval) : result num :=
  match v with
  | Num (PyInt z) => Ok (Fin (IZR z))
  | Num (PyFloat x) => Ok x
  | Tuple _ => Raise (TypeError "a sequence is not a scalar")
  end.

(** A [def]: its name, its parameters in order with their defaults, and
    its body as a function of the bound parameter values. *)
Record pyfunction : Type := PyFunction {
  fn_name : string;
  fn_params : list (string * option pyval);
  fn_body : list pyval -> M array2
}.

Definition required_count (params : list (string * option pyval)) : nat :=
  length (List.filter (fun p => match snd p with None => true | _ => false end)
                 params).

Definition too_many_positional (f : pyfunction) (given : nat) : exn :=
  TypeError (fn_name f +:+ "() takes from "
             +:+ pretty (required_count (fn_params f)) +:+ " to "
             +:+ pretty (length (fn_params f))
             +:+ " positional arguments but "
             +:+ pretty given +:+ " were given").

Definition unexpected_keyword (f : pyfunction) (name : string) : exn :=
  TypeError (fn_name f +:+ "() got an unexpected keyword argument '"
             +:+ name +:+ "'").

Definition multiple_values (f : pyfunction) (name : string) : exn :=
  TypeError (fn_name f +:+ "() got multiple values for argument '"
             +:+ name +:+ "'").

Definition missing_argument (f : pyfunction) (name : string) : exn :=
  TypeError (fn_name f +:+ "() missing 1 required positional argument: '"
             +:+ name +:+ "'").

Fixpoint index_of (name : string) (names : list string) : option nat :=
  match names with
  | [] => None
  | n :: rest =>
      if String.eqb name n then Some O
      else option_map S (index_of name rest)
  end.

Fixpoint lookup_keyword (name : string) (kwargs : list (string * pynum))
  : option pynum :=
  match kwargs with
  | [] => None
  | (k, v) :: rest =>
      if String.eqb name k then Some v else lookup_keyword name rest
  end.

(** Every keyword must name a parameter that no positional argument has
    filled. *)
Fixpoint check_keywords (f : pyfunction) (npos : nat)
    (kwargs : list (string * pynum)) : result unit :=
  match kwargs with
  | [] => Ok tt
  | (k, _) :: rest =>
      match index_of k (map fst (fn_params f)) with
      | None => Raise (unexpected_keyword f k)
      | Some i =>
          if (i <? npos)%nat then Raise (multiple_values f k)
          else check_keywords f npos rest
      end
  end.

(** Fill the parameters from the positional arguments, then from the
    keywords, then from the defaults. *)
Fixpoint fill_parameters (f : pyfunction)
    (params : list (string * option pyval)) (args : list pynum)
    (kwargs : list (string * pynum)) : result (list pyval) :=
  match params with
  | [] => Ok []
  | (name, default) :: params' =>
      let value :=
        match args with
        | a :: _ => Ok (Num a)
        | [] =>
            match lookup_keyword name kwargs, default with
            | Some v, _ => Ok (Num v)
            | None, Some d => Ok d
            | None, None => Raise (missing_argument f name)
            end
        end in
      match value with
      | Raise e => Raise e
      | Ok v =>
          match fill_parameters f params' (tl args) kwargs with
          | Raise e => Raise e
          | Ok vs => Ok (v :: vs)
          end
      end
  end.

Definition bind_arguments (f : pyfunction) (args : list pynum)
    (kwargs : list (string * pynum)) : result (list pyval) :=
  match check_keywords f (length args) kwargs with
  | Raise e => Raise e
  | Ok _ =>
      if (length (fn_params f) <? length args)%nat
      then Raise (too_many_positional f (length args))
      else fill_parameters f (fn_params f) args kwargs
  end.

(** A call with positional and keyword arguments. *)
Definition call (f : pyfunction) (args : list pynum)
    (kwargs : list (string * pynum)) : M array2 :=
  match bind_arguments f args kwargs with
  | Raise e => raise e
  | Ok values => fn_body f values
  end.

Definition arity_mismatch : exn := TypeError "parameter count".

Definition py_draw_surface_nsphere : pyfunction :=
  {| fn_name := "draw_surface_nsphere";
     fn_params := [ ("dims", None);
                    ("r", Some (Num (PyInt 1)));
                    ("N", Some (Num (PyInt 1000))) ];
     fn_body := fun values =>
       match values with
       | [dims; r; N] =>
           dims <- lift (as_int dims) ;;
           r <- lift (as_float r) ;;
           N <- lift (as_int N) ;;
           draw_surface_nsphere dims r N
       | _ => raise arity_mismatch
       end |}.

Definition py_draw_nsphere : pyfunction :=
  {| fn_name := "draw_nsphere";
     fn_params := [ ("dims", None);
                    ("r", Some (Num (PyInt 1)));
                    ("N", Some (Num (PyInt 1000)));
                    ("fuzz", Some (Num (PyFloat (Fin 1)))) ];
     fn_body := fun values =>
       match values with
       | [dims; r; N; fuzz] =>
           dims <- lift (as_int dims) ;;
           r <- lift (as_float r) ;;
           N <- lift (as_int N) ;;
           fuzz <- lift (as_float fuzz) ;;
           draw_nsphere dims r N fuzz
       | _ => raise arity_mismatch
       end |}.

Definition py_draw_uniform : pyfunction :=
  {| fn_name := "draw_uniform";
     fn_params := [ ("dims", None);
                    ("r", Some (Tuple [PyInt 1]));
                    ("N", Some (Num (PyInt 1000)));
                    ("fuzz", Some (Num (PyFloat (Fin 1)))) ];
     fn_body := fun values =>
       match values with
       | [dims; r; N; fuzz] =>
           dims <- lift (as_int dims) ;;
           N <- lift (as_int N) ;;
           draw_uniform dims r N fuzz
       | _ => raise arity_mismatch
       end |}.

Definition py_draw_gaussian : pyfunction :=
  {| fn_name := "draw_gaussian";
     fn_params := [ ("dims", None);
                    ("r", Some (Num (PyInt 1)));
                    ("N", Some (Num (PyInt 1000)));
                    ("fuzz", Some (Num (PyFloat (Fin 1)))) ];
     fn_body := fun values =>
       match values with
       | [dims; r; N; fuzz] =>
           dims <- lift (as_int dims) ;;
           N <- lift (as_int N) ;;
           draw_gaussian dims r N fuzz
       | _ => raise arity_mismatch
       end |}.

Definition py_draw_truncated_gaussian : pyfunction :=
  {| fn_name := "draw_truncated_gaussian";
     fn_params := [ ("dims", None);
                    ("r", None);
                    ("N", Some (Num (PyInt 1000)));
                    ("fuzz", Some (Num (PyFloat (Fin 1))));
                    ("var", Some (Num (PyInt 1))) ];
     fn_body := fun values =>
       match values with
       | [dims; r; N; fuzz; var] =>
           dims <- lift (as_int dims) ;;
           r <- lift (as_float r) ;;
           N <- lift (as_int N) ;;
           fuzz <- lift (as_float fuzz) ;;
           var <- lift (as_float var) ;;
           draw_truncated_gaussian dims r N fuzz var
       | _ => raise arity_mismatch
       end |}.

(** The variants that take the parameters [dims, r, N, fuzz]. *)
Definition fuzz_variants : list pyfunction :=
  [ py_draw_nsphere; py_draw_uniform; py_draw_gaussian;
    py_draw_truncated_gaussian ].

End Draw.

(** *** Concrete generators

    A generator that replays a tape of prepared values (the uniform ones
    forced into the unit interval), and the chi distribution with two
    degrees of freedom, whose distribution function has a closed form. *)
Definition clamp_unit (x : R) : R :=
  if Rle_dec 0 x then (if Rlt_dec x 1 then x else 0) else 0.

Definition tape_random : NumpyRandom :=
  {| RandomState := list R;
     standard_normal := fun tape => (hd 0 tape, tl tape);
     random_sample := fun tape => (clamp_unit (hd 0 tape), tl tape) |}.

Definition rayleigh_cdf (x : num) : num :=
  match x with
  | Fin y => if Rlt_dec y 0 then Fin 0 else Fin (1 - exp (- (y * y / 2)))
  | PInf => Fin 1
  | NInf => Fin 0
  | NaN => NaN
  end.

Definition rayleigh_ppf (u : num) : num :=
  match u with
  | Fin v =>
      if Rlt_dec v 0 then NaN
      else if Rlt_dec v 1 then Fin (sqrt (- (2 * ln (1 - v))))
      else if Req_EM_T v 1 then PInf else NaN
  | _ => NaN
  end.

Definition chi_two : ScipyChi :=
  {| chi_cdf := fun x df => if (df =? 2)%Z then rayleigh_cdf x else NaN;
     chi_ppf := fun u df => if (df =? 2)%Z then rayleigh_ppf u else NaN |}.

End Sampling.

(* ================================================================== *)
(** * [nessai/utils/sampling.py] in double precision

    The sphere and ball draws once more, with the rounding of every
    arithmetic operation made explicit.  A float model gives the rounding
    of a real to the nearest double, numpy's summation of a row, and the
    power function of the C library; the laws below are those of IEEE 754
    binary64 outside overflow and underflow. *)

Module Binary64.

Import Sampling.
Local Open Scope R_scope.

(** The unit roundoff of binary64, its smallest normal number and its
    largest finite number. *)
Definition unit_roundoff : R := / 2 ^ 53.
Definition min_normal : R := / 2 ^ 1022.
Definition max_float : R := (2 - / 2 ^ 52) * 2 ^ 1023.

(** A real whose rounding neither overflows nor underflows. *)
Definition in_range (x : R) : Prop :=
  x = 0 \/ min_normal <= Rabs x <= max_float.

Class FloatModel : Type := {
  round : R -> num;
  add_reduce : list R -> num;
  libm_pow : R -> R -> num
}.

Definition representable {fm : FloatModel} (x : R) : Prop :=
  round x = Fin x.

(** What is used of binary64: rounding has a relative error of at most
    the unit roundoff in range, is monotone, and leaves doubles (1 among
    them) unchanged; the sum of [n] non-negative doubles is off by at most
    [n] roundings, in whatever order they are added; a power of a value
    of the unit interval with a non-negative exponent stays in the unit
    interval. *)
Record float_laws {fm : FloatModel} : Prop := {
  round_error : forall x, in_range x ->
    exists y, round x = Fin y
              /\ Rabs (y - x) <= unit_roundoff * Rabs x;
  round_monotone : forall x y, x <= y -> num_le (round x) (round y);
  round_idempotent : forall x y, round x = Fin y -> round y = Fin y;
  round_one : round 1 = Fin 1;
  add_reduce_error : forall l,
    Forall representable l -> Forall (fun s => 0 <= s) l ->
    (1 + unit_roundoff) ^ length l * Rsum l <= max_float ->
    exists s, add_reduce l = Fin s
              /\ (1 - unit_roundoff) ^ length l * Rsum l <= s
                 <= (1 + unit_roundoff) ^ length l * Rsum l;
  libm_pow_unit : forall x y, 0 <= x <= 1 -> 0 <= y ->
    exists w, libm_pow x y = Fin w /\ 0 <= w <= 1
}.

(** The finite entries of a list, when all of them are finite. *)
Fixpoint finite_values (l : list num) : option (list R) :=
  match l with
  | [] => Some []
  | Fin x :: l' =>
      match finite_values l' with
      | Some xs => Some (x :: xs)
      | None => None
      end
  | _ :: _ => None
  end.

Section Rounded.

Context {rng : NumpyRandom} {fm : FloatModel}.

(** An operation in double precision is the exact operation followed by
    a rounding; infinities and NaN are not changed by it. *)
Definition rounded (v : num) : num :=
  match v with
  | Fin x => round x
  | _ => v
  end.

Definition fl_add (a b : num) : num := rounded (add a b).
Definition fl_sub (a b : num) : num := rounded (sub a b).
Definition fl_mul (a b : num) : num := rounded (mul a b).
Definition fl_div (a b : num) : num := rounded (div a b).
Definition fl_sqrt (a : num) : num := rounded (np_sqrt a).

(** numpy squares for the exponent [2.] and calls the C library
    otherwise. *)
Definition fl_pow (a b : num) : num :=
  match a, b with
  | Fin x, Fin y => if Req_EM_T y 2 then round (x * x) else libm_pow x y
  | _, _ => pow a b
  end.

(** Python's [1 / dims] on integers. *)
Definition py_int_truediv (a b : Z) : result num :=
  if (b =? 0)%Z then Raise (ZeroDivisionError "division by zero")
  else Ok (round (IZR a / IZR b)).

(** The sum of a row: numpy's reduction on finite entries, the IEEE
    special value otherwise. *)
Definition sum_values (l : list num) : num :=
  match finite_values l with
  | Some xs => add_reduce xs
  | None => fold_left add l (Fin 0)
  end.

Definition np_sum_axis1 (a : array2) : array1 :=
  map (fun i => sum_values (row a i)) (seq 0 (nrows a)).

Definition np_multiply : array2 -> array2 -> result array2 :=
  broadcast2 fl_mul.
Definition np_divide : array2 -> array2 -> result array2 :=
  broadcast2 fl_div.

Definition scalar_mul (s : num) (a : array2) : array2 := map2 (fl_mul s) a.
Definition power_scalar (a : array2) (s : num) : array2 :=
  map2 (fun x => fl_pow x s) a.

Notation "x <- m ;; k" := (bind m (fun x => k))
  (at level 100, m at next level, right associativity).

(** One uniform value: [low + (high - low) * random_sample()]. *)
Definition uniform_value (low range : num) (u : R) : num :=
  fl_add low (fl_mul range (Fin u)).

(** [np.random.uniform(low, high, (d0, d1))] *)
Definition np_random_uniform2 (low high : num) (size : Z * Z) : M array2 :=
  fun st =>
    let range := fl_sub high low in
    if negb (is_finite range) then Raise range_exceeds_bounds
    else if ((fst size <? 0) || (snd size <? 0))%Z
    then Raise negative_dimensions
    else
      let r := Z.to_nat (fst size) in
      let c := Z.to_nat (snd size) in
      let (us, st') := draw_values random_sample (r * c) st in
      Ok ({| nrows := r; ncols := c;
             elems := map (uniform_value low range) us |}, st').

Definition draw_surface_nsphere (dims : Z) (r : num) (N : Z) : M array2 :=
  x <- np_random_randn N dims ;;
  R <- ret (newaxis_col
              (map fl_sqrt (np_sum_axis1 (power_scalar x (Fin 2))))) ;;
  z <- lift (np_divide x R) ;;
  ret (scalar_mul r z).

Definition draw_nsphere (dims : Z) (r : num) (N : Z) (fuzz : num)
  : M array2 :=
  x <- draw_surface_nsphere dims (Fin 1) N ;;
  R <- np_random_uniform2 (Fin 0) (Fin 1) (N, 1%Z) ;;
  e <- lift (py_int_truediv 1 dims) ;;
  z <- lift (np_multiply (power_scalar R e) x) ;;
  ret (scalar_mul (fl_mul fuzz r) z).

End Rounded.

(** Arithmetic without rounding is a float model. *)
Definition exact_float : FloatModel :=
  {| round := Fin;
     add_reduce := fun xs => fold_left add (map Fin xs) (Fin 0);
     libm_pow := fun x y => pow (Fin x) (Fin y) |}.

(** A float model that does round, as binary64 does next to 1: the reals
    strictly between 1 and [1 + unit_roundoff] go to 1; the other reals
    are left as they are. *)
Definition round_near_one (x : R) : num :=
  if Rlt_dec 1 x then
    if Rlt_dec x (1 + unit_roundoff) then Fin 1 else Fin x
  else Fin x.

Definition coarse_float : FloatModel :=
  {| round := round_near_one;
     add_reduce := fun xs => Fin (Rsum xs);
     libm_pow := fun x y => pow (Fin x) (Fin y) |}.

(** *** The computation of one row

    The intermediate results of the normalisation of a Gaussian row
    [xs], as reals: the rounded squares, their sum, the norm, and the
    entries divided by the norm. *)
Section RowSteps.

Context {fm : FloatModel}.

Definition to_real (v : num) : R :=
  match v with
  | Fin x => x
  | _ => 0
  end.

Definition rnd (x : R) : R := to_real (round x).

Definition row_squares (xs : list R) : list R :=
  map (fun x => rnd (x * x)) xs.

Definition row_sum (xs : list R) : R := to_real (add_reduce (row_squares xs)).

Definition row_length (xs : list R) : R := rnd (sqrt (row_sum xs)).

Definition direction (xs : list R) : list R :=
  map (fun x => rnd (x / row_length xs)) xs.

(** No step of the normalisation of [xs] overflows or underflows. *)
Definition normalisation_in_range (xs : list R) : Prop :=
  Forall (fun x => in_range (x * x)) xs
  /\ (1 + unit_roundoff) ^ length xs * Rsum (row_squares xs) <= max_float
  /\ in_range (sqrt (row_sum xs))
  /\ Forall (fun x => in_range (x / row_length xs)) xs.

(** Nor does the multiplication of the direction by the scalar [s]. *)
Definition scaling_in_range (s : R) (xs : list R) : Prop :=
  Forall (fun z => in_range (s * z)) (direction xs).

End RowSteps.

(** The Euclidean norm of a vector of reals. *)
Definition euclidean_norm (vs : list R) : R :=
  sqrt (Rsum (map (fun v => v * v) vs)).

(** Each rounding changes a positive quantity by a factor between
    [1 / rho] and [rho]; [near k p q] says that [p] and [q] differ by at
    most [k] such factors. *)
Definition rho : R := (1 + unit_roundoff) / (1 - unit_roundoff).

Definition near (k : nat) (p q : R) : Prop :=
  q <= p * rho ^ k /\ p <= q * rho ^ k.

(** The floating tolerance of the norm of a row of [dims] entries. *)
Definition tolerance (dims : nat) : R := rho ^ (dims + 5).

(** [p] lies between zero and [q]. *)
Definition between_zero (p q : R) : Prop :=
  0 <= p <= q \/ q <= p <= 0.

End Binary64.

(* ================================================================== *)
(** * Properties of the registry *)

Module RegistryFacts.

Import Registry.
Local Open Scope string_scope.

Lemma prefix_refl (s : string) : String.prefix s s = true.
Proof.
  induction s as [|c s IH]; simpl; [reflexivity|].
  destruct (Ascii.ascii_dec c c); [assumption | congruence].
Qed.

Lemma prefix_app (s t : string) : String.prefix s (s ++ t) = true.
Proof.
  induction s as [|c s IH]; simpl.
  - destruct t; reflexivity.
  - destruct (Ascii.ascii_dec c c); [assumption | congruence].
Qed.

Lemma contains_prefix (needle hay : string) :
  String.prefix needle hay = true -> contains needle hay = true.
Proof. intros H. destruct hay; cbn [contains]; rewrite H; reflexivity. Qed.

Lemma contains_self (s : string) : contains s s = true.
Proof. apply contains_prefix, prefix_refl. Qed.

Lemma contains_app (s t : string) : contains s (s ++ t) = true.
Proof. apply contains_prefix, prefix_app. Qed.

(** Canonical characters: separators collapse to the hyphen, everything
    else to its lower-case form, which is never a separator's image
    unless the character was one. *)
Lemma canonical_char_hyphen (c : ascii) :
  canonical_char c = "-"%char -> is_separator c = true.
Proof.
  destruct c as [[] [] [] [] [] [] [] []]; vm_compute; congruence.
Qed.

Lemma is_separator_lower (c : ascii) :
  is_separator (lower_char c) = is_separator c.
Proof. destruct c as [[] [] [] [] [] [] [] []]; reflexivity. Qed.

Lemma char_equiv_canonical (a b : ascii) :
  char_equiv a b = true <-> canonical_char a = canonical_char b.
Proof.
  unfold char_equiv. split.
  - intros H. apply orb_true_iff in H as [H|H].
    + apply Ascii.eqb_eq in H.
      assert (Hs : is_separator a = is_separator b)
        by (rewrite <- (is_separator_lower a), H; apply is_separator_lower).
      unfold canonical_char. rewrite Hs, H. reflexivity.
    + apply andb_true_iff in H as [Ha Hb].
      unfold canonical_char. rewrite Ha, Hb. reflexivity.
  - intros H. apply orb_true_iff.
    destruct (is_separator a) eqn:Ea.
    + right. simpl.
      apply canonical_char_hyphen. rewrite <- H.
      unfold canonical_char. rewrite Ea. reflexivity.
    + left. apply Ascii.eqb_eq.
      destruct (is_separator b) eqn:Eb.
      * exfalso. assert (is_separator a = true); [|congruence].
        apply canonical_char_hyphen. rewrite H.
        unfold canonical_char. rewrite Eb. reflexivity.
      * unfold canonical_char in H. rewrite Ea, Eb in H. exact H.
Qed.

Lemma name_equiv_normalise (s t : string) :
  name_equiv s t = true <-> normalise s = normalise t.
Proof.
  revert t. induction s as [|a s IH]; intros [|b t]; simpl;
    try (split; congruence).
  rewrite andb_true_iff, char_equiv_canonical, IH.
  split; [intros [-> ->]; reflexivity | intros H; injection H; auto].
Qed.

Lemma resolve_equiv_names (descr s t : string) :
  name_equiv s t = true ->
  get_reparameterisation descr (PyStr s)
  = match get_reparameterisation descr (PyStr t) with
    | Ok entry => Ok entry
    | Raise _ => Raise (ValueError (unknown_message s))
    end.
Proof.
  intros H. apply name_equiv_normalise in H.
  unfold get_reparameterisation. rewrite H.
  destruct (default_reparameterisations !! normalise t); reflexivity.
Qed.

Lemma known_names_canonical :
  Forall (fun k => normalise k = k) (map fst default_entries).
Proof. repeat constructor. Qed.

Lemma known_names_entries : known_names = map fst default_entries.
Proof. reflexivity. Qed.

(** A string that resolves is, up to case and separators, one of the
    known names. *)
Lemma resolves_only_known (s : string) (entry : pyclass * kwargs) :
  default_reparameterisations !! normalise s = Some entry ->
  exists k, In k known_names /\ name_equiv s k = true.
Proof.
  intros H. apply elem_of_list_to_map_2 in H.
  apply list_elem_of_In in H.
  apply (in_map fst) in H. cbn [fst] in H.
  exists (normalise s). rewrite known_names_entries. split; [exact H|].
  apply name_equiv_normalise.
  pose proof known_names_canonical as Hc.
  rewrite Forall_forall in Hc. symmetry. apply Hc.
  apply list_elem_of_In. exact H.
Qed.

(** The test-suite's loop over its table, run on the model. *)
Lemma known_table_resolves (descr : string) :
  Forall (fun e : pyobj * pyclass * kwargs =>
            get_reparameterisation descr (fst (fst e))
            = Ok (snd (fst e), snd e))
         known_reparameteristions.
Proof.
  unfold known_reparameteristions.
  repeat (constructor; [reflexivity|]).
  constructor.
Qed.

(** C1. Every identifier of the known-alias table resolves to exactly its
    documented class and keyword dictionary, and any string that equals a
    known name up to letter case and the choice between hyphen and
    underscore resolves to the same pair. *)
Theorem get_reparameterisation_known_aliases
    (descr : string) (identifier : pyobj) (cls : pyclass) (kw : kwargs) :
  In (identifier, cls, kw) known_reparameteristions ->
  get_reparameterisation descr identifier = Ok (cls, kw)
  /\ (forall name s,
        identifier = PyStr name -> name_equiv s name = true ->
        get_reparameterisation descr (PyStr s) = Ok (cls, kw)).
Proof.
  intros Hin.
  assert (Hres : get_reparameterisation descr identifier = Ok (cls, kw)).
  { pose proof (known_table_resolves descr) as Hall.
    rewrite Forall_forall in Hall.
    apply list_elem_of_In in Hin. exact (Hall _ Hin). }
  split; [exact Hres|].
  intros name s -> Heq.
  rewrite (resolve_equiv_names descr s name Heq), Hres. reflexivity.
Qed.

Lemma get_reparameterisation_known_aliases_witness :
  get_reparameterisation "a Reparameterisation" (PyStr "inversion")
  = Ok (Builtin RescaleToBounds,
        <["detect_edges" := PyBool true]>
        (<["boundary_inversion" := PyBool true]>
        {[ "inversion_type" := PyStr "split" ]}))
  /\ get_reparameterisation "a Reparameterisation" PyNone
    = Ok (Builtin NullReparameterisation, ∅)
  /\ get_reparameterisation "a Reparameterisation"
       (PyStr "Inversion_Duplicate")
    = Ok (Builtin RescaleToBounds,
          <["detect_edges" := PyBool true]>
          (<["boundary_inversion" := PyBool true]>
          {[ "inversion_type" := PyStr "duplicate" ]})).
Proof.
  split; [|split].
  - apply (get_reparameterisation_known_aliases _ (PyStr "inversion")).
    unfold known_reparameteristions. cbn [In]. tauto.
  - apply (get_reparameterisation_known_aliases _ PyNone).
    unfold known_reparameteristions. cbn [In]. tauto.
  - apply (get_reparameterisation_known_aliases
             _ (PyStr "inversion-duplicate") _ _)
      with (name := "inversion-duplicate").
    + unfold known_reparameteristions. cbn [In]. tauto.
    + reflexivity.
    + reflexivity.
Defined.

(** C2. A string that is not a known name (no known name equals it up to
    case and separators) does not resolve: the lookup raises a value
    error whose message contains "Unknown reparameterisation: " followed
    by the string exactly as given. *)
Theorem get_reparameterisation_unknown_name (descr s : string) :
  (forall k, In k known_names -> name_equiv s k = false) ->
  exists msg,
    get_reparameterisation descr (PyStr s) = Raise (ValueError msg)
    /\ msg = "Unknown reparameterisation: " ++ s
    /\ contains ("Unknown reparameterisation: " ++ s) msg = true.
Proof.
  intros Hunknown. exists (unknown_message s).
  split; [|split; [reflexivity | apply contains_self]].
  unfold get_reparameterisation.
  destruct (default_reparameterisations !! normalise s) as [entry|] eqn:E;
    [|reflexivity].
  apply resolves_only_known in E as (k & Hk & Heq).
  rewrite (Hunknown k Hk) in Heq. discriminate.
Qed.

Lemma get_reparameterisation_unknown_name_witness :
  exists msg,
    get_reparameterisation "a Reparameterisation" (PyStr "shift")
    = Raise (ValueError msg)
    /\ msg = "Unknown reparameterisation: shift"
    /\ contains "Unknown reparameterisation: shift" msg = true.
Proof.
  apply (get_reparameterisation_unknown_name "a Reparameterisation" "shift").
  intros k Hk. unfold known_names, known_reparameteristions in Hk.
  cbn [flat_map app In] in Hk.
  repeat (destruct Hk as [<-|Hk]; [reflexivity|]). destruct Hk.
Defined.

(** C3. An identifier that is neither None, nor a string, nor a class
    satisfying the Reparameterisation capability is rejected with a type
    error; whether it is a non-class object or a non-conforming class the
    message is the same and contains "Reparameterisation must be". *)
Theorem get_reparameterisation_invalid_input
    (descr : string) (identifier : pyobj) :
  identifier <> PyNone ->
  (forall s, identifier <> PyStr s) ->
  (forall c, identifier = PyClass c -> satisfies_capability c = false) ->
  get_reparameterisation descr identifier
  = Raise (TypeError (type_error_message descr))
  /\ contains "Reparameterisation must be" (type_error_message descr) = true.
Proof.
  intros Hnone Hstr Hclass. split; [|reflexivity].
  destruct identifier as [| b | z | q | s | c]; try reflexivity.
  - congruence.
  - exfalso. exact (Hstr s eq_refl).
  - unfold get_reparameterisation. rewrite (Hclass c eq_refl). reflexivity.
Qed.

Lemma get_reparameterisation_invalid_input_witness :
  (get_reparameterisation "a Reparameterisation" (PyInt 2)
   = Raise (TypeError (type_error_message "a Reparameterisation"))
   /\ contains "Reparameterisation must be"
        (type_error_message "a Reparameterisation") = true)
  /\ (get_reparameterisation "a Reparameterisation"
        (PyClass TestReparam_plain)
      = Raise (TypeError (type_error_message "a Reparameterisation"))
      /\ contains "Reparameterisation must be"
           (type_error_message "a Reparameterisation") = true).
Proof.
  split.
  - apply get_reparameterisation_invalid_input.
    + discriminate.
    + discriminate.
    + discriminate.
  - apply get_reparameterisation_invalid_input.
    + discriminate.
    + discriminate.
    + intros c Hc. injection Hc as <-. reflexivity.
Defined.

(** C4. A class that satisfies the Reparameterisation capability resolves
    to itself, paired with an empty keyword dictionary. *)
Theorem get_reparameterisation_with_class (descr : string) (c : pyclass) :
  satisfies_capability c = true ->
  get_reparameterisation descr (PyClass c) = Ok (c, ∅).
Proof.
  intros H. unfold get_reparameterisation. rewrite H. reflexivity.
Qed.

Lemma get_reparameterisation_with_class_witness :
  get_reparameterisation "a Reparameterisation" (PyClass TestReparam_derived)
  = Ok (TestReparam_derived, ∅).
Proof.
  apply get_reparameterisation_with_class. reflexivity.
Defined.

End RegistryFacts.

(* ================================================================== *)
(** * Properties of the sampling utilities *)

Module SamplingFacts.

Import Sampling.
Local Open Scope R_scope.

(** ** Lists and arrays *)

Lemma nth_map_in {A B} (f : A -> B) (l : list A) (n : nat) (d : A) (e : B) :
  (n < length l)%nat -> nth n (map f l) e = f (nth n l d).
Proof.
  intros Hn. rewrite (nth_indep _ e (f d)) by (rewrite length_map; exact Hn).
  apply map_nth.
Qed.

Lemma nth_map_seq {B} (f : nat -> B) (c j : nat) (e : B) :
  (j < c)%nat -> nth j (map f (seq 0 c)) e = f j.
Proof.
  intros Hj. rewrite (nth_map_in f _ _ O) by (rewrite length_seq; exact Hj).
  rewrite seq_nth by exact Hj. reflexivity.
Qed.

Lemma length_table (f : nat -> nat -> num) (c r s : nat) :
  length (flat_map (fun i => map (f i) (seq 0 c)) (seq s r)) = (r * c)%nat.
Proof.
  revert s. induction r as [|r IH]; intros s; [reflexivity|].
  cbn [seq flat_map]. rewrite length_app, length_map, length_seq, IH. lia.
Qed.

Lemma nth_table (f : nat -> nat -> num) (c r s i j : nat) (d : num) :
  (i < r)%nat -> (j < c)%nat ->
  nth (i * c + j) (flat_map (fun k => map (f k) (seq 0 c)) (seq s r)) d
  = f (s + i)%nat j.
Proof.
  revert s i. induction r as [|r IH]; intros s i Hi Hj; [lia|].
  cbn [seq flat_map]. destruct i as [|i].
  - rewrite app_nth1 by (rewrite length_map, length_seq; lia).
    cbn [Nat.mul Nat.add]. rewrite nth_map_seq by exact Hj.
    f_equal. lia.
  - rewrite app_nth2 by (rewrite length_map, length_seq; lia).
    rewrite length_map, length_seq.
    replace (S i * c + j - c)%nat with (i * c + j)%nat by lia.
    rewrite IH by lia. f_equal. lia.
Qed.

Lemma represents_tabulate2 (r c : nat) (f : nat -> nat -> num) :
  represents (tabulate2 r c f) r c f.
Proof.
  unfold represents, well_formed, get2, tabulate2. cbn [nrows ncols elems].
  repeat split.
  - apply length_table.
  - intros i j Hi Hj. apply nth_table; assumption.
Qed.

Lemma index_in_bounds (n c i j : nat) :
  (i < n)%nat -> (j < c)%nat -> (i * c + j < n * c)%nat.
Proof. intros Hi Hj. nia. Qed.

Lemma represents_map2 (f : num -> num) (a : array2) (n c : nat)
    (g : nat -> nat -> num) :
  represents a n c g -> represents (map2 f a) n c (fun i j => f (g i j)).
Proof.
  intros (Hr & Hc & Hwf & Hget).
  unfold represents, well_formed, get2, map2 in *.
  cbn [nrows ncols elems]. repeat split; try assumption.
  - rewrite length_map. exact Hwf.
  - intros i j Hi Hj.
    rewrite (nth_map_in f _ _ NaN)
      by (rewrite Hwf, Hr, Hc; apply index_in_bounds; assumption).
    rewrite Hget by assumption. reflexivity.
Qed.

Lemma represents_ext (a : array2) (n c : nat) (g g' : nat -> nat -> num) :
  represents a n c g ->
  (forall i j, (i < n)%nat -> (j < c)%nat -> g i j = g' i j) ->
  represents a n c g'.
Proof.
  intros (Hr & Hc & Hwf & Hget) Hext. repeat split; try assumption.
  intros i j Hi Hj. rewrite Hget, Hext by assumption. reflexivity.
Qed.

Lemma represents_transpose (a : array2) (n c : nat) (g : nat -> nat -> num) :
  represents a n c g -> represents (transpose a) c n (fun i j => g j i).
Proof.
  intros (Hr & Hc & Hwf & Hget). unfold transpose. rewrite Hr, Hc.
  eapply represents_ext; [apply represents_tabulate2|].
  intros i j Hi Hj. cbn beta. apply Hget; assumption.
Qed.

Lemma stretch_lt (n i : nat) : (i < n)%nat -> stretch n i = i.
Proof.
  intros Hi. unfold stretch. destruct (Nat.eqb_spec n 1); [lia | reflexivity].
Qed.

Lemma stretch_one (i : nat) : stretch 1 i = O.
Proof. reflexivity. Qed.

Lemma broadcast_dim_same (n : nat) : broadcast_dim n n = Some n.
Proof. unfold broadcast_dim. rewrite Nat.eqb_refl. reflexivity. Qed.

Lemma broadcast_dim_one_r (n : nat) : broadcast_dim n 1 = Some n.
Proof.
  unfold broadcast_dim. destruct (Nat.eqb_spec n 1) as [->|]; [reflexivity|].
  reflexivity.
Qed.

Lemma broadcast_dim_one_l (n : nat) : broadcast_dim 1 n = Some n.
Proof.
  unfold broadcast_dim. destruct (Nat.eqb_spec 1 n) as [<-|]; reflexivity.
Qed.

Lemma stretch_bound (n n' r i : nat) :
  broadcast_dim n n' = Some r -> (i < r)%nat ->
  (stretch n i < n)%nat /\ (stretch n' i < n')%nat.
Proof.
  unfold broadcast_dim, stretch. intros Hb Hi.
  destruct (Nat.eqb_spec n n') as [<-|Hne].
  - injection Hb as <-. destruct (Nat.eqb_spec n 1); lia.
  - destruct (Nat.eqb_spec n 1) as [->|Hn1].
    + injection Hb as <-. destruct (Nat.eqb_spec n' 1); lia.
    + destruct (Nat.eqb_spec n' 1) as [->|Hn'1]; [|discriminate].
      injection Hb as <-. lia.
Qed.

(** Broadcasting two arrays with compatible shapes applies the operation
    position by position, repeating the entries of an axis of length one. *)
Lemma broadcast2_represents (f : num -> num -> num) (a b : array2)
    (n c n' c' r k : nat) (g g' : nat -> nat -> num) :
  represents a n c g -> represents b n' c' g' ->
  broadcast_dim n n' = Some r -> broadcast_dim c c' = Some k ->
  exists out,
    broadcast2 f a b = Ok out
    /\ represents out r k
         (fun i j => f (g (stretch n i) (stretch c j))
                       (g' (stretch n' i) (stretch c' j))).
Proof.
  intros (Hr & Hc & Hwf & Hget) (Hr' & Hc' & Hwf' & Hget') Hbr Hbc.
  unfold broadcast2. rewrite Hr, Hr', Hc, Hc', Hbr, Hbc.
  eexists. split; [reflexivity|].
  eapply represents_ext; [apply represents_tabulate2|].
  intros i j Hi Hj. cbn beta.
  destruct (stretch_bound _ _ _ i Hbr Hi) as [H1 H2].
  destruct (stretch_bound _ _ _ j Hbc Hj) as [H3 H4].
  rewrite Hget, Hget' by assumption. reflexivity.
Qed.

Lemma represents_newaxis_col (v : array1) :
  represents (newaxis_col v) (length v) 1 (fun i _ => nth i v NaN).
Proof.
  unfold represents, well_formed, get2, newaxis_col. cbn [nrows ncols elems].
  repeat split; [lia|].
  intros i j Hi Hj. f_equal. lia.
Qed.

Lemma represents_as_row (v : array1) :
  represents (as_row v) 1 (length v) (fun _ j => nth j v NaN).
Proof.
  unfold represents, well_formed, get2, as_row. cbn [nrows ncols elems].
  repeat split; [lia|].
  intros i j Hi Hj. f_equal. lia.
Qed.

(** The entry at a position inside the shape is an entry of the
    buffer. *)
Lemma represents_nth_error (a : array2) (n c : nat) (g : nat -> nat -> num)
    (i j : nat) :
  represents a n c g -> (i < n)%nat -> (j < c)%nat ->
  nth_error (elems a) (i * c + j) = Some (g i j).
Proof.
  intros (Hr & Hc & Hwf & Hget) Hi Hj.
  rewrite <- (Hget i j Hi Hj). unfold get2. rewrite Hc.
  apply nth_error_nth'. rewrite Hwf, Hr, Hc.
  apply index_in_bounds; assumption.
Qed.

(** ** Sums of finite values *)

Lemma fold_add_finite (l : list R) (acc : R) :
  fold_left add (map Fin l) (Fin acc) = Fin (acc + Rsum l).
Proof.
  revert acc. induction l as [|x l IH]; intros acc.
  - cbn. f_equal. lra.
  - cbn [map fold_left add]. rewrite IH. f_equal.
    unfold Rsum. cbn [fold_right]. lra.
Qed.

Lemma Rsum_cons (x : R) (l : list R) : Rsum (x :: l) = x + Rsum l.
Proof. reflexivity. Qed.

Lemma Rsum_scale (k : R) (h : nat -> R) (l : list nat) :
  Rsum (map (fun j => k * h j) l) = k * Rsum (map h l).
Proof.
  induction l as [|x l IH]; cbn [map]; [cbn; lra|].
  rewrite !Rsum_cons, IH. lra.
Qed.

Lemma Rsum_ext (h h' : nat -> R) (l : list nat) :
  (forall j, In j l -> h j = h' j) -> Rsum (map h l) = Rsum (map h' l).
Proof.
  induction l as [|x l IH]; intros Hext; cbn [map]; [reflexivity|].
  rewrite !Rsum_cons, (Hext x) by (left; reflexivity).
  rewrite IH by (intros j Hj; apply Hext; right; exact Hj). reflexivity.
Qed.

Lemma Rsum_squares_nonneg (h : nat -> R) (l : list nat) :
  0 <= Rsum (map (fun j => h j * h j) l).
Proof.
  induction l as [|x l IH]; cbn [map]; [cbn; lra|].
  rewrite Rsum_cons. nra.
Qed.

Lemma Rsum_squares_pos (h : nat -> R) (l : list nat) (j : nat) :
  In j l -> h j <> 0 -> 0 < Rsum (map (fun j => h j * h j) l).
Proof.
  induction l as [|x l IH]; intros Hin Hne; [destruct Hin|].
  cbn [map]. rewrite Rsum_cons.
  pose proof (Rsum_squares_nonneg h l) as Hpos.
  destruct Hin as [->|Hin].
  - assert (0 < h j * h j) by nra. lra.
  - specialize (IH Hin Hne). nra.
Qed.

Lemma Rsum_squares_zero (h : nat -> R) (l : list nat) :
  (forall j, In j l -> h j = 0) -> Rsum (map (fun j => h j * h j) l) = 0.
Proof.
  induction l as [|x l IH]; intros Hz; cbn [map]; [reflexivity|].
  rewrite Rsum_cons, (Hz x) by (left; reflexivity).
  rewrite IH by (intros j Hj; apply Hz; right; exact Hj). lra.
Qed.

Lemma sumsq_nonneg (h : nat -> R) (c : nat) : 0 <= sumsq h c.
Proof. apply Rsum_squares_nonneg. Qed.

Lemma sumsq_pos (h : nat -> R) (c j : nat) :
  (j < c)%nat -> h j <> 0 -> 0 < sumsq h c.
Proof.
  intros Hj Hne. apply (Rsum_squares_pos h _ j); [|exact Hne].
  apply in_seq. lia.
Qed.

Lemma sumsq_zero (h : nat -> R) (c : nat) :
  (forall j, (j < c)%nat -> h j = 0) -> sumsq h c = 0.
Proof.
  intros Hz. apply Rsum_squares_zero.
  intros j Hj. apply in_seq in Hj. apply Hz. lia.
Qed.

Lemma sumsq_scale (k : R) (h : nat -> R) (c : nat) :
  sumsq (fun j => k * h j) c = k * k * sumsq h c.
Proof.
  unfold sumsq. rewrite <- Rsum_scale. apply Rsum_ext.
  intros j _. ring.
Qed.

Lemma sumsq_ext (h h' : nat -> R) (c : nat) :
  (forall j, (j < c)%nat -> h j = h' j) -> sumsq h c = sumsq h' c.
Proof.
  intros Hext. unfold sumsq. apply Rsum_ext.
  intros j Hj. apply in_seq in Hj. rewrite Hext by lia. reflexivity.
Qed.

(** ** Squares, roots and row norms *)

Lemma Int_part_two : Int_part 2 = 2%Z.
Proof. symmetry. apply Int_part_spec. lra. Qed.

Lemma pow_two (x : R) : pow (Fin x) (Fin 2) = Fin (x * x).
Proof.
  unfold pow. destruct (Req_EM_T 2 0) as [H20|_]; [lra|].
  assert (Hsq : forall y, 0 < y -> Rpower y 2 = y * y).
  { intros y Hy. change 2 with (INR 2). rewrite Rpower_pow by exact Hy.
    cbn. ring. }
  destruct (Rlt_dec 0 x) as [Hpos|Hnpos].
  - rewrite Hsq by exact Hpos. reflexivity.
  - destruct (Req_EM_T x 0) as [->|Hne].
    + destruct (Rlt_dec 0 2); [|lra]. f_equal. ring.
    + unfold is_integer. rewrite Int_part_two.
      destruct (Req_EM_T 2 2) as [_|Hc]; [|contradiction].
      cbn [Z.odd]. rewrite Hsq by lra. f_equal. ring.
Qed.

Lemma np_sqrt_nonneg (x : R) : 0 <= x -> np_sqrt (Fin x) = Fin (sqrt x).
Proof.
  intros Hx. unfold np_sqrt. destruct (Rlt_dec x 0); [lra | reflexivity].
Qed.

Lemma length_np_sum_axis1 (a : array2) :
  length (np_sum_axis1 a) = nrows a.
Proof. unfold np_sum_axis1. rewrite length_map, length_seq. reflexivity. Qed.

Lemma row_norms_nth_error (a : array2) (i : nat) :
  (i < nrows a)%nat -> nth_error (row_norms a) i = Some (row_norm a i).
Proof.
  intros Hi. unfold row_norm. apply nth_error_nth'.
  unfold row_norms. rewrite length_map, length_np_sum_axis1. exact Hi.
Qed.

(** The row norms of an array of finite values. *)
Lemma row_norms_finite (a : array2) (n c : nat) (h : nat -> nat -> R) :
  represents a n c (fun i j => Fin (h i j)) ->
  length (row_norms a) = n
  /\ forall i, (i < n)%nat ->
       nth i (row_norms a) NaN = Fin (sqrt (sumsq (h i) c)).
Proof.
  intros Ha.
  pose proof (represents_map2 (fun x => pow x (Fin 2)) _ _ _ _ Ha) as Hsq.
  destruct Hsq as (Hr & Hc & Hwf & Hget).
  unfold row_norms. fold (power_scalar a (Fin 2)) in *.
  split.
  - rewrite length_map, length_np_sum_axis1. exact Hr.
  - intros i Hi.
    rewrite (nth_map_in np_sqrt _ _ NaN)
      by (rewrite length_np_sum_axis1, Hr; exact Hi).
    unfold np_sum_axis1. rewrite Hr, nth_map_seq by exact Hi.
    unfold row. rewrite Hc.
    rewrite (map_ext_in _ (fun j => Fin (h i j * h i j))).
    + rewrite <- (map_map (fun j => h i j * h i j) Fin).
      rewrite fold_add_finite. rewrite np_sqrt_nonneg.
      * unfold sumsq. f_equal. f_equal. lra.
      * pose proof (sumsq_nonneg (h i) c). unfold sumsq in *. lra.
    + intros j Hj. apply in_seq in Hj.
      rewrite Hget by lia. apply pow_two.
Qed.

Lemma sqrt_sumsq_scale (k : R) (h : nat -> R) (c : nat) :
  sqrt (sumsq (fun j => k * h j) c) = Rabs k * sqrt (sumsq h c).
Proof.
  rewrite sumsq_scale, sqrt_mult by (try apply sumsq_nonneg; nra).
  change (k * k) with (Rsqr k). rewrite sqrt_Rsqr_abs. reflexivity.
Qed.

(** A non-zero vector divided by its norm has norm one. *)
Lemma sqrt_sumsq_direction (h : nat -> R) (c : nat) :
  0 < sumsq h c ->
  sqrt (sumsq (fun j => h j / sqrt (sumsq h c)) c) = 1.
Proof.
  intros Hpos. pose proof (sqrt_lt_R0 _ Hpos) as Hs.
  rewrite (sumsq_ext _ (fun j => / sqrt (sumsq h c) * h j))
    by (intros j _; unfold Rdiv; ring).
  rewrite sqrt_sumsq_scale, Rabs_pos_eq.
  - field. lra.
  - left. apply Rinv_0_lt_compat. exact Hs.
Qed.

(** ** The generator *)

Section Generator.

Context {rng : NumpyRandom} {chi : ScipyChi}.

Lemma draw_values_length (gen : RandomState -> R * RandomState) (n : nat)
    (st : RandomState) :
  length (fst (draw_values gen n st)) = n.
Proof.
  revert st. induction n as [|n IH]; intros st; [reflexivity|].
  cbn [draw_values]. destruct (gen st) as [v st1].
  specialize (IH st1). destruct (draw_values gen n st1) as [vs st2].
  cbn in *. rewrite IH. reflexivity.
Qed.

Lemma draw_values_Forall (P : R -> Prop)
    (gen : RandomState -> R * RandomState) (n : nat) (st : RandomState) :
  (forall s, P (fst (gen s))) -> Forall P (fst (draw_values gen n st)).
Proof.
  intros HP. revert st. induction n as [|n IH]; intros st; [constructor|].
  cbn [draw_values]. pose proof (HP st) as Hv.
  destruct (gen st) as [v st1]. specialize (IH st1).
  destruct (draw_values gen n st1) as [vs st2]. cbn in *.
  constructor; assumption.
Qed.

Lemma bind_ok {A B} (m : M A) (k : A -> M B) (st st1 : RandomState) (a : A) :
  m st = Ok (a, st1) -> bind m k st = k a st1.
Proof. intros Hm. unfold bind. rewrite Hm. reflexivity. Qed.

Lemma represents_finite_buffer (vs : list R) (n c : nat) :
  length vs = (n * c)%nat ->
  represents {| nrows := n; ncols := c; elems := map Fin vs |} n c
    (fun i j => Fin (nth (i * c + j) vs 0)).
Proof.
  intros Hlen. unfold represents, well_formed, get2. cbn [nrows ncols elems].
  repeat split.
  - rewrite length_map. exact Hlen.
  - intros i j Hi Hj. apply nth_map_in.
    rewrite Hlen. apply index_in_bounds; assumption.
Qed.

(** [np.random.randn] returns for non-negative sizes, with finite entries. *)
Lemma np_random_randn_ok (d0 d1 : Z) (st : RandomState) :
  (0 <= d0)%Z -> (0 <= d1)%Z ->
  exists x st1 h,
    np_random_randn d0 d1 st = Ok (x, st1)
    /\ represents x (Z.to_nat d0) (Z.to_nat d1) (fun i j => Fin (h i j)).
Proof.
  intros H0 H1. unfold np_random_randn.
  destruct (Z.ltb_spec d0 0); [lia|]. destruct (Z.ltb_spec d1 0); [lia|].
  cbn [orb].
  pose proof (draw_values_length standard_normal
                (Z.to_nat d0 * Z.to_nat d1) st) as Hlen.
  destruct (draw_values standard_normal _ st) as [vs st1]. cbn in Hlen.
  eexists _, st1, _. split; [reflexivity|].
  apply represents_finite_buffer. exact Hlen.
Qed.

Lemma np_random_randn_finite (d0 d1 : Z) (st st1 : RandomState) (x : array2) :
  np_random_randn d0 d1 st = Ok (x, st1) ->
  exists h, represents x (Z.to_nat d0) (Z.to_nat d1) (fun i j => Fin (h i j)).
Proof.
  intros Hx. unfold np_random_randn in Hx.
  destruct ((d0 <? 0) || (d1 <? 0))%Z; [discriminate|].
  pose proof (draw_values_length standard_normal
                (Z.to_nat d0 * Z.to_nat d1) st) as Hlen.
  destruct (draw_values standard_normal _ st) as [vs st'].
  injection Hx as <- <-. cbn in Hlen. eexists.
  apply represents_finite_buffer. exact Hlen.
Qed.

(** [np.random.randn] only returns for non-negative sizes. *)
Lemma np_random_randn_sizes (d0 d1 : Z) (st st1 : RandomState) (x : array2) :
  np_random_randn d0 d1 st = Ok (x, st1) -> (0 <= d0)%Z /\ (0 <= d1)%Z.
Proof.
  unfold np_random_randn.
  destruct (Z.ltb_spec d0 0), (Z.ltb_spec d1 0); cbn [orb];
    try discriminate.
  intros _. lia.
Qed.

Lemma uniform_value_finite (lo hi u : R) :
  uniform_value (Fin lo) (sub (Fin hi) (Fin lo)) u
  = Fin (lo + (hi + - lo) * u).
Proof. reflexivity. Qed.

(** [np.random.uniform] with finite bounds and a two-dimensional size. *)
Lemma np_random_uniform2_ok (lo hi : R) (d0 d1 : Z) (st : RandomState) :
  (0 <= d0)%Z -> (0 <= d1)%Z ->
  exists a st1 us,
    np_random_uniform2 (Fin lo) (Fin hi) (d0, d1) st = Ok (a, st1)
    /\ fst (draw_values random_sample (Z.to_nat d0 * Z.to_nat d1) st) = us
    /\ elems a = map (fun u => Fin (lo + (hi + - lo) * u)) us
    /\ represents a (Z.to_nat d0) (Z.to_nat d1)
         (fun i j => Fin (lo + (hi + - lo)
                               * nth (i * Z.to_nat d1 + j) us 0)).
Proof.
  intros H0 H1. unfold np_random_uniform2.
  cbn [sub neg add is_finite negb fst snd].
  destruct (Z.ltb_spec d0 0); [lia|]. destruct (Z.ltb_spec d1 0); [lia|].
  cbn [orb].
  pose proof (draw_values_length random_sample
                (Z.to_nat d0 * Z.to_nat d1) st) as Hlen.
  destruct (draw_values random_sample _ st) as [us st1]. cbn in Hlen.
  eexists _, st1, us. split; [reflexivity|]. split; [reflexivity|].
  cbn [elems]. split; [reflexivity|].
  rewrite <- (map_map (fun u => lo + (hi + - lo) * u) Fin).
  eapply represents_ext.
  - apply represents_finite_buffer. rewrite length_map. exact Hlen.
  - intros i j Hi Hj. cbn beta. f_equal.
    apply (nth_map_in (fun u => lo + (hi + - lo) * u)).
    rewrite Hlen. apply index_in_bounds; assumption.
Qed.

(** [np.random.uniform] with finite bounds and an integer size. *)
Lemma np_random_uniform1_ok (lo hi : R) (n : Z) (st : RandomState) :
  (0 <= n)%Z ->
  exists st1 us,
    np_random_uniform1 (Fin lo) (Fin hi) n st
    = Ok (map (fun u => Fin (lo + (hi + - lo) * u)) us, st1)
    /\ draw_values random_sample (Z.to_nat n) st = (us, st1)
    /\ length us = Z.to_nat n.
Proof.
  intros Hn. unfold np_random_uniform1. cbn [sub neg add is_finite negb].
  destruct (Z.ltb_spec n 0); [lia|].
  pose proof (draw_values_length random_sample (Z.to_nat n) st) as Hlen.
  destruct (draw_values random_sample _ st) as [us st1]. cbn in Hlen.
  exists st1, us. split; [reflexivity|]. split; [reflexivity | exact Hlen].
Qed.

(** ** The drawing functions, position by position *)

Lemma has_shape_of_represents (a : array2) (N dims : Z)
    (g : nat -> nat -> num) :
  (0 <= N)%Z -> (0 <= dims)%Z ->
  represents a (Z.to_nat N) (Z.to_nat dims) g -> has_shape a N dims.
Proof.
  intros HN Hd (Hr & Hc & Hwf & _). unfold has_shape.
  rewrite Hr, Hc. repeat split; try lia. exact Hwf.
Qed.

(** The sphere-surface draw divides every Gaussian row by its norm and
    scales it by [r]. *)
Lemma draw_surface_nsphere_represents (dims N : Z) (r : num)
    (st st1 : RandomState) (x : array2) (h : nat -> nat -> R) :
  np_random_randn N dims st = Ok (x, st1) ->
  represents x (Z.to_nat N) (Z.to_nat dims) (fun i j => Fin (h i j)) ->
  exists out,
    draw_surface_nsphere dims r N st = Ok (out, st1)
    /\ represents out (Z.to_nat N) (Z.to_nat dims)
         (fun i j =>
            mul r (div (Fin (h i j))
                       (Fin (sqrt (sumsq (h i) (Z.to_nat dims)))))).
Proof.
  intros Hx Hrep. unfold draw_surface_nsphere.
  rewrite (bind_ok _ _ _ _ _ Hx).
  destruct (row_norms_finite x _ _ h Hrep) as [Hlen Hnth].
  pose proof (represents_newaxis_col (row_norms x)) as HR.
  rewrite Hlen in HR.
  destruct (broadcast2_represents div _ _ _ _ _ _ _ _ _ _ Hrep HR
              (broadcast_dim_same _) (broadcast_dim_one_r _))
    as (z & Hz & Hzrep).
  unfold row_norms in Hz. unfold bind at 1, ret at 1.
  unfold np_divide. rewrite Hz. cbn [lift bind ret].
  eexists. split; [reflexivity|].
  unfold scalar_mul.
  eapply represents_ext; [apply represents_map2, Hzrep|].
  intros i j Hi Hj. cbn beta.
  rewrite (stretch_lt _ i Hi), (stretch_lt _ j Hj).
  rewrite Hnth by exact Hi. reflexivity.
Qed.

(** The ball draw scales every point of the unit sphere by a root of a
    uniform value and by [fuzz * r]. *)
Lemma draw_nsphere_represents (dims N : Z) (r fuzz : num)
    (st st1 st2 : RandomState) (x U : array2) (h u : nat -> nat -> R) :
  dims <> 0%Z ->
  np_random_randn N dims st = Ok (x, st1) ->
  represents x (Z.to_nat N) (Z.to_nat dims) (fun i j => Fin (h i j)) ->
  np_random_uniform2 (Fin 0) (Fin 1) (N, 1%Z) st1 = Ok (U, st2) ->
  represents U (Z.to_nat N) 1 (fun i j => Fin (u i j)) ->
  exists out,
    draw_nsphere dims r N fuzz st = Ok (out, st2)
    /\ represents out (Z.to_nat N) (Z.to_nat dims)
         (fun i j =>
            mul (mul fuzz r)
              (mul (pow (Fin (u i O)) (Fin (1 / IZR dims)))
                 (mul (Fin 1)
                    (div (Fin (h i j))
                         (Fin (sqrt (sumsq (h i) (Z.to_nat dims)))))))).
Proof.
  intros Hd Hx Hrep HU HUrep. unfold draw_nsphere.
  destruct (draw_surface_nsphere_represents dims N (Fin 1) _ _ _ _ Hx Hrep)
    as (y & Hy & Hyrep).
  rewrite (bind_ok _ _ _ _ _ Hy), (bind_ok _ _ _ _ _ HU).
  unfold py_int_truediv. destruct (Z.eqb_spec dims 0); [contradiction|].
  pose proof (represents_map2 (fun v => pow v (Fin (1 / IZR dims)))
                _ _ _ _ HUrep) as Hw.
  destruct (broadcast2_represents mul _ _ _ _ _ _ _ _ _ _ Hw Hyrep
              (broadcast_dim_same _) (broadcast_dim_one_l _))
    as (z & Hz & Hzrep).
  cbn [lift]. unfold bind at 1, ret at 1.
  unfold np_multiply, power_scalar. rewrite Hz. cbn [lift bind ret].
  eexists. split; [reflexivity|].
  unfold scalar_mul.
  eapply represents_ext; [apply represents_map2, Hzrep|].
  intros i j Hi Hj. cbn beta.
  rewrite (stretch_lt _ i Hi), (stretch_lt _ j Hj), stretch_one.
  reflexivity.
Qed.

Lemma draw_uniform_shape {A B : Type} (dims N : Z) (r : A) (fuzz : B)
    (st : RandomState) :
  (0 <= N)%Z -> (0 <= dims)%Z ->
  exists a st',
    draw_uniform dims r N fuzz st = Ok (a, st') /\ has_shape a N dims.
Proof.
  intros HN Hd.
  destruct (np_random_uniform2_ok 0 1 N dims st)
    as (a & st' & us & Ha & _ & _ & Harep); [lia | lia |].
  exists a, st'. split; [exact Ha|].
  eapply has_shape_of_represents; [lia | lia | exact Harep].
Qed.

Lemma draw_gaussian_shape {A B : Type} (dims N : Z) (r : A) (fuzz : B)
    (st : RandomState) :
  (0 <= N)%Z -> (0 <= dims)%Z ->
  exists a st',
    draw_gaussian dims r N fuzz st = Ok (a, st') /\ has_shape a N dims.
Proof.
  intros HN Hd.
  destruct (np_random_randn_ok N dims st) as (x & st1 & h & Hx & Hrep);
    [lia | lia |].
  exists x, st1. split; [exact Hx|].
  eapply has_shape_of_represents; [lia | lia | exact Hrep].
Qed.

Lemma draw_surface_nsphere_shape (dims N : Z) (r : num) (st : RandomState) :
  (0 <= N)%Z -> (0 <= dims)%Z ->
  exists a st',
    draw_surface_nsphere dims r N st = Ok (a, st') /\ has_shape a N dims.
Proof.
  intros HN Hd.
  destruct (np_random_randn_ok N dims st) as (x & st1 & h & Hx & Hrep);
    [lia | lia |].
  destruct (draw_surface_nsphere_represents dims N r _ _ _ _ Hx Hrep)
    as (out & Hout & Horep).
  exists out, st1. split; [exact Hout|].
  eapply has_shape_of_represents; [lia | lia | exact Horep].
Qed.

Lemma draw_nsphere_shape (dims N : Z) (r fuzz : num) (st : RandomState) :
  (0 <= N)%Z -> (0 < dims)%Z ->
  exists a st',
    draw_nsphere dims r N fuzz st = Ok (a, st') /\ has_shape a N dims.
Proof.
  intros HN Hd.
  destruct (np_random_randn_ok N dims st) as (x & st1 & h & Hx & Hrep);
    [lia | lia |].
  destruct (np_random_uniform2_ok 0 1 N 1 st1)
    as (U & st2 & us & HU & _ & _ & HUrep); [lia | lia |].
  change (Z.to_nat 1) with 1%nat in HUrep.
  destruct (draw_nsphere_represents dims N r fuzz _ _ _ _ _ h
              (fun i j => 0 + (1 + - 0) * nth (i * 1 + j) us 0)
              ltac:(lia) Hx Hrep HU HUrep)
    as (out & Hout & Horep).
  exists out, st2. split; [exact Hout|].
  eapply has_shape_of_represents; [lia | lia | exact Horep].
Qed.

(** C5. For positive [N] and [dims], and whatever the radius and the
    fuzz factor, each of [draw_uniform], [draw_gaussian], [draw_nsphere]
    and [draw_surface_nsphere] returns an array of shape [(N, dims)]. *)
Theorem draw_functions_shape (dims N : Z) (r fuzz : num) (st : RandomState) :
  (0 < N)%Z -> (0 < dims)%Z ->
  (exists a st',
      draw_uniform dims r N fuzz st = Ok (a, st') /\ has_shape a N dims)
  /\ (exists a st',
         draw_gaussian dims r N fuzz st = Ok (a, st') /\ has_shape a N dims)
  /\ (exists a st',
         draw_nsphere dims r N fuzz st = Ok (a, st') /\ has_shape a N dims)
  /\ (exists a st',
         draw_surface_nsphere dims r N st = Ok (a, st')
         /\ has_shape a N dims).
Proof.
  intros HN Hd. split; [|split; [|split]].
  - apply draw_uniform_shape; lia.
  - apply draw_gaussian_shape; lia.
  - apply draw_nsphere_shape; lia.
  - apply draw_surface_nsphere_shape; lia.
Qed.

(** ** Division by a zero norm *)

Lemma div_zero_zero : div (Fin 0) (Fin 0) = NaN.
Proof.
  unfold div. destruct (Req_EM_T 0 0) as [_|Hne]; [reflexivity|].
  contradiction.
Qed.

Lemma mul_nan_r (a : num) : mul a NaN = NaN.
Proof. destruct a; reflexivity. Qed.

Lemma pow_nan_two : pow NaN (Fin 2) = NaN.
Proof. unfold pow. destruct (Req_EM_T 2 0); [lra | reflexivity]. Qed.

Lemma fold_add_nan (l : list num) : fold_left add l NaN = NaN.
Proof. induction l as [|v l IH]; [reflexivity | exact IH]. Qed.

Lemma fold_add_all_nan (c : nat) (acc : num) :
  (0 < c)%nat ->
  fold_left add (map (fun _ : nat => NaN) (seq 0 c)) acc = NaN.
Proof.
  intros Hc. destruct c as [|c]; [lia|].
  cbn [seq map fold_left].
  replace (add acc NaN) with NaN by (destruct acc; reflexivity).
  apply fold_add_nan.
Qed.

Lemma row_norm_unfold (a : array2) (n c : nat) (g : nat -> nat -> num)
    (i : nat) :
  represents a n c g -> (i < n)%nat ->
  row_norm a i
  = np_sqrt (fold_left add (map (fun j => pow (g i j) (Fin 2)) (seq 0 c))
                       (Fin 0)).
Proof.
  intros Ha Hi.
  pose proof (represents_map2 (fun v => pow v (Fin 2)) _ _ _ _ Ha) as Hsq.
  destruct Hsq as (Hr & Hc & Hwf & Hget).
  unfold row_norm, row_norms. fold (power_scalar a (Fin 2)) in *.
  rewrite (nth_map_in np_sqrt _ _ NaN)
    by (rewrite length_np_sum_axis1, Hr; exact Hi).
  unfold np_sum_axis1. rewrite Hr, nth_map_seq by exact Hi.
  unfold row. rewrite Hc. f_equal. f_equal.
  apply map_ext_in. intros j Hj. apply in_seq in Hj. apply Hget; lia.
Qed.

(** A row of NaNs has norm NaN. *)
Lemma row_norm_all_nan (a : array2) (n c : nat) (g : nat -> nat -> num)
    (i : nat) :
  represents a n c g -> (i < n)%nat ->
  (forall j, (j < c)%nat -> get2 a i j = NaN) -> (0 < c)%nat ->
  row_norm a i = NaN.
Proof.
  intros Ha Hi Hnan Hc.
  assert (Ha' : represents a n c (fun i' j => get2 a i' j)).
  { eapply represents_ext; [exact Ha|].
    intros i' j Hi' Hj. destruct Ha as (_ & _ & _ & Hget).
    symmetry. apply Hget; assumption. }
  rewrite (row_norm_unfold _ _ _ _ i Ha' Hi).
  rewrite (map_ext_in _ (fun _ => NaN)).
  - rewrite fold_add_all_nan by exact Hc. reflexivity.
  - intros j Hj. apply in_seq in Hj. rewrite Hnan by lia. apply pow_nan_two.
Qed.

Lemma zero_row_gives_nan (dims N : Z) (r : num)
    (st st1 : RandomState) (x : array2) (i : nat) :
  np_random_randn N dims st = Ok (x, st1) ->
  (i < Z.to_nat N)%nat ->
  (forall j, (j < Z.to_nat dims)%nat -> get2 x i j = Fin 0) ->
  exists out g,
    draw_surface_nsphere dims r N st = Ok (out, st1)
    /\ represents out (Z.to_nat N) (Z.to_nat dims) g
    /\ forall j, (j < Z.to_nat dims)%nat -> get2 out i j = NaN.
Proof.
  intros Hx Hi Hzero.
  destruct (np_random_randn_finite _ _ _ _ _ Hx) as (h & Hrep).
  destruct (draw_surface_nsphere_represents dims N r _ _ _ _ Hx Hrep)
    as (out & Hout & Horep).
  assert (Hh : forall j, (j < Z.to_nat dims)%nat -> h i j = 0).
  { intros j Hj. destruct Hrep as (_ & _ & _ & Hget).
    specialize (Hget i j Hi Hj). rewrite (Hzero j Hj) in Hget.
    injection Hget as <-. reflexivity. }
  eexists out, _. split; [exact Hout|]. split; [exact Horep|].
  intros j Hj. destruct Horep as (_ & _ & _ & Hget).
  rewrite (Hget i j Hi Hj), (Hh j Hj), (sumsq_zero _ _ Hh), sqrt_0.
  rewrite div_zero_zero. apply mul_nan_r.
Qed.

(** C9. [draw_surface_nsphere] divides each Gaussian row by its norm
    without a guard: when a row of the Gaussian draw is the zero vector
    the call still returns normally, with an array of shape [(N, dims)]
    in which every entry of the matching row is NaN (so is its norm), not
    a point of the sphere. *)
Theorem draw_surface_nsphere_zero_row (dims N : Z) (r : num)
    (st st1 : RandomState) (x : array2) (i : nat) :
  np_random_randn N dims st = Ok (x, st1) ->
  (i < Z.to_nat N)%nat ->
  (forall j, (j < Z.to_nat dims)%nat -> get2 x i j = Fin 0) ->
  exists out,
    draw_surface_nsphere dims r N st = Ok (out, st1)
    /\ has_shape out N dims
    /\ (forall j, (j < Z.to_nat dims)%nat ->
          nth_error (elems out) (i * Z.to_nat dims + j) = Some NaN)
    /\ (forall j, (j < Z.to_nat dims)%nat -> get2 out i j = NaN)
    /\ ((0 < dims)%Z ->
        nth_error (row_norms out) i = Some NaN /\ row_norm out i = NaN).
Proof.
  intros Hx Hi Hzero.
  destruct (np_random_randn_sizes _ _ _ _ _ Hx) as [HN Hdims].
  destruct (zero_row_gives_nan dims N r st st1 x i Hx Hi Hzero)
    as (out & g & Hout & Horep & Hnan).
  exists out. split; [exact Hout|].
  split; [exact (has_shape_of_represents _ _ _ _ HN Hdims Horep)|].
  split.
  { intros j Hj. rewrite (represents_nth_error _ _ _ _ i j Horep Hi Hj).
    destruct Horep as (_ & _ & _ & Hget).
    rewrite <- (Hget i j Hi Hj), (Hnan j Hj). reflexivity. }
  split; [exact Hnan|].
  intros Hd.
  assert (Hc : (0 < Z.to_nat dims)%nat) by lia.
  assert (Hsq : forall j, In j (seq 0 (Z.to_nat dims)) ->
                          pow (g i j) (Fin 2) = NaN).
  { intros j Hj. apply in_seq in Hj.
    destruct Horep as (_ & _ & _ & Hget).
    rewrite <- (Hget i j Hi) by lia. rewrite Hnan by lia.
    apply pow_nan_two. }
  assert (Hnorm : row_norm out i = NaN).
  { rewrite (row_norm_unfold _ _ _ _ i Horep Hi).
    rewrite (map_ext_in _ (fun _ => NaN) _ Hsq).
    rewrite fold_add_all_nan by exact Hc. reflexivity. }
  split; [|exact Hnorm].
  rewrite row_norms_nth_error, Hnorm; [reflexivity|].
  destruct Horep as (Hr & _). rewrite Hr. exact Hi.
Qed.

(** ** The uniform draw *)

(** C10. [draw_uniform] never reads [r] or [fuzz]: from the same
    generator state, two calls that differ only in these arguments return
    the same array (and leave the same state); the call returns for
    non-negative sizes and every entry lies in [0, 1). *)
Theorem draw_uniform_ignores_r_and_fuzz {A B A' B' : Type}
    (dims N : Z) (r1 : A) (fuzz1 : B) (r2 : A') (fuzz2 : B')
    (st : RandomState) :
  unit_interval_sampler ->
  draw_uniform dims r1 N fuzz1 st = draw_uniform dims r2 N fuzz2 st
  /\ (forall a st', draw_uniform dims r1 N fuzz1 st = Ok (a, st') ->
                    Forall in_unit_interval (elems a))
  /\ ((0 <= N)%Z -> (0 <= dims)%Z ->
      exists a st', draw_uniform dims r1 N fuzz1 st = Ok (a, st')).
Proof.
  intros Hunit. split; [reflexivity|]. split.
  - intros a st' Ha. unfold draw_uniform, np_random_uniform2 in Ha.
    cbn [sub neg add is_finite negb fst snd] in Ha.
    destruct ((N <? 0) || (dims <? 0))%Z; [discriminate|].
    pose proof (draw_values_Forall (fun u => 0 <= u < 1) random_sample
                  (Z.to_nat N * Z.to_nat dims) st Hunit) as Hall.
    destruct (draw_values random_sample _ st) as [us st1].
    injection Ha as <- <-. cbn [elems fst] in *.
    induction Hall as [|u us Hu _ IH]; [constructor|].
    cbn [map]. constructor; [|exact IH].
    unfold in_unit_interval, uniform_value. cbn [add mul num_le num_lt]. lra.
  - intros HN Hd.
    destruct (np_random_uniform2_ok 0 1 N dims st)
      as (a & st' & us & Ha & _); [lia | lia |].
    exists a, st'. exact Ha.
Qed.

(** ** Norms of the sphere and ball draws without rounding *)

Lemma div_finite (x y : R) : y <> 0 -> div (Fin x) (Fin y) = Fin (x / y).
Proof.
  intros Hy. unfold div. destruct (Req_EM_T y 0); [contradiction|reflexivity].
Qed.

Lemma row_norm_finite_row (a : array2) (n c : nat) (g : nat -> nat -> num)
    (i : nat) (v : nat -> R) :
  represents a n c g -> (i < n)%nat ->
  (forall j, (j < c)%nat -> g i j = Fin (v j)) ->
  row_norm a i = Fin (sqrt (sumsq v c)).
Proof.
  intros Ha Hi Hv. rewrite (row_norm_unfold _ _ _ _ i Ha Hi).
  rewrite (map_ext_in _ (fun j => Fin (v j * v j))).
  - rewrite <- (map_map (fun j => v j * v j) Fin), fold_add_finite.
    rewrite np_sqrt_nonneg.
    + unfold sumsq. f_equal. f_equal. lra.
    + pose proof (sumsq_nonneg v c). unfold sumsq in *. lra.
  - intros j Hj. apply in_seq in Hj. rewrite Hv by lia. apply pow_two.
Qed.

(** A root of a value of the unit interval stays in the unit interval. *)
Lemma pow_root_unit (u e : R) :
  0 <= u < 1 -> 0 < e ->
  exists w, pow (Fin u) (Fin e) = Fin w /\ 0 <= w <= 1.
Proof.
  intros [Hu0 Hu1] He. unfold pow.
  destruct (Req_EM_T e 0); [lra|].
  destruct (Rlt_dec 0 u) as [Hpos|Hnpos].
  - exists (Rpower u e). split; [reflexivity|]. unfold Rpower. split.
    + left. apply exp_pos.
    + left. rewrite <- exp_0. apply exp_increasing.
      assert (ln u < 0) by (rewrite <- ln_1; apply ln_increasing; lra).
      nra.
  - destruct (Req_EM_T u 0); [|lra].
    destruct (Rlt_dec 0 e); [|lra].
    exists 0. split; [reflexivity | lra].
Qed.

Lemma nth_Forall (P : R -> Prop) (l : list R) (n : nat) (d : R) :
  Forall P l -> P d -> P (nth n l d).
Proof.
  intros Hall Hd. revert n.
  induction Hall as [|x l Hx _ IH]; intros [|n]; cbn; auto.
Qed.

(** The rows of the Gaussian draw that are not the zero vector. *)
Lemma nonzero_row_sumsq (x : array2) (n c : nat) (h : nat -> nat -> R)
    (i : nat) :
  represents x n c (fun i j => Fin (h i j)) -> (i < n)%nat ->
  (exists j, (j < c)%nat /\ get2 x i j <> Fin 0) ->
  0 < sumsq (h i) c.
Proof.
  intros (_ & _ & _ & Hget) Hi (j & Hj & Hne).
  apply (sumsq_pos _ _ j Hj). intros Hz. apply Hne.
  rewrite (Hget i j Hi Hj), Hz. reflexivity.
Qed.

Lemma draw_nsphere_row_norm (dims N : Z) (r0 f0 : R)
    (st st1 : RandomState) (x : array2) (i : nat) :
  unit_interval_sampler ->
  (1 <= dims)%Z ->
  np_random_randn N dims st = Ok (x, st1) ->
  (i < Z.to_nat N)%nat ->
  (exists j, (j < Z.to_nat dims)%nat /\ get2 x i j <> Fin 0) ->
  exists out st2 w,
    draw_nsphere dims (Fin r0) N (Fin f0) st = Ok (out, st2)
    /\ pow (Fin (nth i (fst (draw_values random_sample (Z.to_nat N) st1)) 0))
           (Fin (1 / IZR dims)) = Fin w
    /\ 0 <= w <= 1
    /\ row_norm out i = Fin (Rabs (f0 * r0) * w).
Proof.
  intros Hunit Hd Hx Hi Hnz.
  assert (HN : (0 <= N)%Z) by lia.
  destruct (np_random_randn_finite _ _ _ _ _ Hx) as (h & Hrep).
  destruct (np_random_uniform2_ok 0 1 N 1 st1)
    as (U & st2 & us & HU & Hus & _ & HUrep); [lia | lia |].
  change (Z.to_nat 1) with 1%nat in *. rewrite Nat.mul_1_r in Hus.
  destruct (draw_nsphere_represents dims N (Fin r0) (Fin f0) _ _ _ _ _ h
              (fun i j => 0 + (1 + - 0) * nth (i * 1 + j) us 0)
              ltac:(lia) Hx Hrep HU HUrep)
    as (out & Hout & Horep).
  pose proof (nonzero_row_sumsq _ _ _ _ _ Hrep Hi Hnz) as Hpos.
  pose proof (sqrt_lt_R0 _ Hpos) as Hs.
  assert (Hu : 0 <= nth i us 0 < 1).
  { apply (nth_Forall (fun u => 0 <= u < 1)); [|lra].
    rewrite <- Hus. apply draw_values_Forall. exact Hunit. }
  assert (He : 0 < 1 / IZR dims).
  { apply Rdiv_lt_0_compat; [lra|]. apply IZR_lt. lia. }
  destruct (pow_root_unit _ _ Hu He) as (w & Hw & Hw01).
  exists out, st2, w. rewrite Hus.
  split; [exact Hout|]. split; [exact Hw|]. split; [exact Hw01|].
  rewrite (row_norm_finite_row _ _ _ _ i
             (fun j => (f0 * r0 * w)
                       * (h i j / sqrt (sumsq (h i) (Z.to_nat dims))))
             Horep Hi).
  - rewrite sqrt_sumsq_scale, sqrt_sumsq_direction by exact Hpos.
    rewrite Rabs_mult, (Rabs_pos_eq w) by lra. f_equal. lra.
  - intros j Hj. rewrite div_finite by lra.
    replace (0 + (1 + - 0) * nth (i * 1 + 0) us 0) with (nth i us 0)
      by (rewrite Nat.mul_1_r, Nat.add_0_r; lra).
    rewrite Hw. cbn [mul]. f_equal. ring.
Qed.

(** ** The truncated Gaussian *)

Lemma draw_truncated_gaussian_represents (dims N : Z) (r fuzz var : num)
    (c : R) (st st1 st2 : RandomState) (us : list R) (x : array2)
    (h : nat -> nat -> R) :
  chi_cdf (div (mul r fuzz) (np_sqrt var)) dims = Fin c ->
  (0 <= N)%Z ->
  draw_values random_sample (Z.to_nat N) st = (us, st1) ->
  np_random_randn N dims st1 = Ok (x, st2) ->
  represents x (Z.to_nat N) (Z.to_nat dims) (fun i j => Fin (h i j)) ->
  exists out,
    draw_truncated_gaussian dims r N fuzz var st = Ok (out, st2)
    /\ represents out (Z.to_nat N) (Z.to_nat dims)
         (fun i j =>
            div (mul (mul (np_sqrt var)
                          (chi_ppf (Fin (0 + (c + - 0) * nth i us 0)) dims))
                     (Fin (h i j)))
                (Fin (sqrt (sumsq (h i) (Z.to_nat dims))))).
Proof.
  intros Hc HN Hus Hx Hrep. unfold draw_truncated_gaussian. rewrite Hc.
  destruct (np_random_uniform1_ok 0 c N st HN) as (st1' & us' & Hu & Hd & Hlen).
  rewrite Hus in Hd. injection Hd as <- <-.
  rewrite (bind_ok _ _ _ _ _ Hu).
  set (p := map (mul (np_sqrt var))
              (map (fun v => chi_ppf v dims)
                 (map (fun u => Fin (0 + (c + - 0) * u)) us))).
  assert (Hp : length p = Z.to_nat N)
    by (unfold p; rewrite !length_map; exact Hlen).
  rewrite Hp, Z2Nat.id by exact HN.
  rewrite (bind_ok _ _ _ _ _ Hx).
  pose proof (represents_as_row p) as Hprow. rewrite Hp in Hprow.
  destruct (broadcast2_represents mul _ _ _ _ _ _ _ _ _ _
              Hprow (represents_transpose _ _ _ _ Hrep)
              (broadcast_dim_one_l _) (broadcast_dim_same _))
    as (px & Hpx & Hpxrep).
  destruct (row_norms_finite x _ _ h Hrep) as [Hnlen Hnth].
  pose proof (represents_as_row (row_norms x)) as Hnrow.
  rewrite Hnlen in Hnrow.
  destruct (broadcast2_represents div _ _ _ _ _ _ _ _ _ _
              Hpxrep Hnrow
              (broadcast_dim_one_r _) (broadcast_dim_same _))
    as (points & Hpts & Hptsrep).
  unfold np_multiply, np_divide. rewrite Hpx. cbn [lift].
  unfold bind at 1, ret at 1.
  unfold row_norms in Hpts. rewrite Hpts. cbn [lift bind ret].
  eexists. split; [reflexivity|].
  eapply represents_ext; [apply represents_transpose, Hptsrep|].
  intros i j Hi Hj. cbn beta.
  rewrite !(stretch_lt _ i Hi), !(stretch_lt _ j Hj).
  rewrite Hnth by exact Hi.
  f_equal. f_equal. unfold p.
  rewrite (nth_map_in (mul (np_sqrt var)) _ _ NaN)
    by (rewrite !length_map, Hlen; exact Hi).
  f_equal.
  rewrite (nth_map_in (fun v => chi_ppf v dims) _ _ NaN)
    by (rewrite length_map, Hlen; exact Hi).
  f_equal.
  apply (nth_map_in (fun u => Fin (0 + (c + - 0) * u))).
  rewrite Hlen. exact Hi.
Qed.

Lemma draw_truncated_gaussian_shape (dims N : Z) (r fuzz var : num) (c : R)
    (st : RandomState) :
  chi_cdf (div (mul r fuzz) (np_sqrt var)) dims = Fin c ->
  (0 <= N)%Z -> (0 <= dims)%Z ->
  exists a st',
    draw_truncated_gaussian dims r N fuzz var st = Ok (a, st')
    /\ has_shape a N dims.
Proof.
  intros Hc HN Hd.
  destruct (draw_values random_sample (Z.to_nat N) st) as [us st1] eqn:Hus.
  destruct (np_random_randn_ok N dims st1) as (x & st2 & h & Hx & Hrep);
    [lia | lia |].
  destruct (draw_truncated_gaussian_represents dims N r fuzz var c
              _ _ _ _ _ h Hc HN Hus Hx Hrep)
    as (out & Hout & Horep).
  exists out, st2. split; [exact Hout|].
  eapply has_shape_of_represents; [lia | lia | exact Horep].
Qed.

(** ** The calling convention *)

Lemma as_float_finite (v : pynum) :
  finite_number v -> exists x, as_float (Num v) = Ok (Fin x).
Proof.
  destruct v as [z|[x| | |]]; cbn; intros Hv; try discriminate; eauto.
Qed.

Lemma sqrt_one_cdf_argument (x y : R) :
  div (mul (Fin x) (Fin y)) (np_sqrt (Fin (IZR 1))) = Fin (x * y / sqrt 1).
Proof.
  rewrite np_sqrt_nonneg by lra. cbn [mul].
  apply div_finite. rewrite sqrt_1. lra.
Qed.

(** A call that passes [dims, r, N, fuzz] to one of the four variants
    that declare these parameters, by position or by keyword. *)
Lemma call_fuzz_variant (f : pyfunction) (dims N : Z) (r fuzz : pynum)
    (st : RandomState) :
  In f fuzz_variants ->
  (0 < N)%Z -> (0 < dims)%Z -> finite_number r -> finite_number fuzz ->
  (forall y, exists c, chi_cdf (Fin y) dims = Fin c) ->
  call f [PyInt dims] [("r", r); ("N", PyInt N); ("fuzz", fuzz)] st
  = call f [PyInt dims; r; PyInt N; fuzz] [] st
  /\ exists a st',
       call f [PyInt dims; r; PyInt N; fuzz] [] st = Ok (a, st')
       /\ has_shape a N dims.
Proof.
  intros Hf HN Hd Hr Hfz Hcdf.
  destruct (as_float_finite r Hr) as (r0 & Hr0).
  destruct (as_float_finite fuzz Hfz) as (f0 & Hf0).
  unfold fuzz_variants in Hf. cbn [In] in Hf.
  destruct Hf as [<-|[<-|[<-|[<-|[]]]]]; (split; [reflexivity|]).
  - unfold call. cbn [bind_arguments check_keywords length Nat.ltb Nat.leb
                      py_draw_nsphere fn_params fn_body fill_parameters tl].
    cbn [as_int lift]. rewrite Hr0, Hf0. cbn [lift bind ret].
    apply draw_nsphere_shape; lia.
  - unfold call. cbn [bind_arguments check_keywords length Nat.ltb Nat.leb
                      py_draw_uniform fn_params fn_body fill_parameters tl].
    cbn [as_int lift bind ret].
    apply draw_uniform_shape; lia.
  - unfold call. cbn [bind_arguments check_keywords length Nat.ltb Nat.leb
                      py_draw_gaussian fn_params fn_body fill_parameters tl].
    cbn [as_int lift bind ret].
    apply draw_gaussian_shape; lia.
  - unfold call. cbn [bind_arguments check_keywords length Nat.ltb Nat.leb
                      py_draw_truncated_gaussian fn_params fn_body
                      fill_parameters tl lookup_keyword].
    cbn [as_int lift]. rewrite Hr0, Hf0. cbn [lift bind ret as_float].
    destruct (Hcdf (r0 * f0 / sqrt 1)) as (c & Hc).
    apply (draw_truncated_gaussian_shape _ _ _ _ _ c); [|lia|lia].
    rewrite sqrt_one_cdf_argument. exact Hc.
Qed.

(** C7 (amended). The variants that declare a [fuzz] parameter,
    [draw_nsphere], [draw_uniform], [draw_gaussian] and
    [draw_truncated_gaussian], can be called as [draw(dims, r, N, fuzz)],
    by position or by keyword: for positive sizes and finite [r] and
    [fuzz] the call returns an array of shape [(N, dims)].
    [draw_surface_nsphere] declares only [dims], [r] and [N] and returns
    an array of that shape when called with these three. *)
Theorem draw_interface (f : pyfunction) (dims N : Z) (r fuzz : pynum)
    (st : RandomState) :
  In f fuzz_variants ->
  (0 < N)%Z -> (0 < dims)%Z -> finite_number r -> finite_number fuzz ->
  (forall y, exists c, chi_cdf (Fin y) dims = Fin c) ->
  (exists a st',
      call f [PyInt dims; r; PyInt N; fuzz] [] st = Ok (a, st')
      /\ has_shape a N dims)
  /\ (exists a st',
         call f [PyInt dims] [("r", r); ("N", PyInt N); ("fuzz", fuzz)] st
         = Ok (a, st')
         /\ has_shape a N dims)
  /\ (exists a st',
         call py_draw_surface_nsphere [PyInt dims; r; PyInt N] [] st
         = Ok (a, st')
         /\ has_shape a N dims).
Proof.
  intros Hf HN Hd Hr Hfz Hcdf.
  destruct (call_fuzz_variant f dims N r fuzz st Hf HN Hd Hr Hfz Hcdf)
    as (Hkw & Hpos).
  split; [exact Hpos|]. split; [rewrite Hkw; exact Hpos|].
  destruct (as_float_finite r Hr) as (r0 & Hr0).
  unfold call. cbn [bind_arguments check_keywords length Nat.ltb Nat.leb
                    py_draw_surface_nsphere fn_params fn_body
                    fill_parameters tl].
  cbn [as_int lift]. rewrite Hr0. cbn [lift bind ret].
  apply draw_surface_nsphere_shape; lia.
Qed.

(** A zero Gaussian row also makes the truncated Gaussian divide zero
    by zero, whatever the radius drawn for it. *)
Lemma mul_zero_div_zero (p : num) : div (mul p (Fin 0)) (Fin 0) = NaN.
Proof.
  destruct p as [x| | |]; cbn [mul].
  - unfold div. destruct (Req_EM_T 0 0); [|contradiction].
    destruct (Req_EM_T (x * 0) 0) as [_|Hne]; [reflexivity|].
    exfalso. apply Hne. ring.
  - unfold scale_inf. destruct (Req_EM_T 0 0); [reflexivity|contradiction].
  - unfold scale_inf. destruct (Req_EM_T 0 0); [reflexivity|contradiction].
  - reflexivity.
Qed.

Lemma truncated_zero_row_gives_nan (dims N : Z) (r fuzz var : num) (c : R)
    (st st2 : RandomState) (x : array2) (i : nat) :
  chi_cdf (div (mul r fuzz) (np_sqrt var)) dims = Fin c ->
  np_random_randn N dims
    (snd (draw_values random_sample (Z.to_nat N) st)) = Ok (x, st2) ->
  (i < Z.to_nat N)%nat ->
  (forall j, (j < Z.to_nat dims)%nat -> get2 x i j = Fin 0) ->
  exists out g,
    draw_truncated_gaussian dims r N fuzz var st = Ok (out, st2)
    /\ represents out (Z.to_nat N) (Z.to_nat dims) g
    /\ forall j, (j < Z.to_nat dims)%nat -> get2 out i j = NaN.
Proof.
  intros Hc Hx Hi Hzero.
  destruct (np_random_randn_sizes _ _ _ _ _ Hx) as [HN _].
  destruct (draw_values random_sample (Z.to_nat N) st) as [us st1] eqn:Hus.
  cbn [snd] in Hx.
  destruct (np_random_randn_finite _ _ _ _ _ Hx) as (h & Hrep).
  destruct (draw_truncated_gaussian_represents dims N r fuzz var c
              _ _ _ _ _ h Hc HN Hus Hx Hrep)
    as (out & Hout & Horep).
  assert (Hh : forall j, (j < Z.to_nat dims)%nat -> h i j = 0).
  { intros j Hj. destruct Hrep as (_ & _ & _ & Hget).
    specialize (Hget i j Hi Hj). rewrite (Hzero j Hj) in Hget.
    injection Hget as <-. reflexivity. }
  eexists out, _. split; [exact Hout|]. split; [exact Horep|].
  intros j Hj. destruct Horep as (_ & _ & _ & Hget).
  rewrite (Hget i j Hi Hj), (Hh j Hj), (sumsq_zero _ _ Hh), sqrt_0.
  apply mul_zero_div_zero.
Qed.

End Generator.

(** ** Concrete runs

    The taped generator and the chi distribution with two degrees of
    freedom meet the assumptions made above. *)

Lemma clamp_unit_range (x : R) : 0 <= clamp_unit x < 1.
Proof.
  unfold clamp_unit. destruct (Rle_dec 0 x); [|lra].
  destruct (Rlt_dec x 1); lra.
Qed.

Lemma clamp_unit_id (x : R) : 0 <= x < 1 -> clamp_unit x = x.
Proof.
  intros Hx. unfold clamp_unit. destruct (Rle_dec 0 x); [|lra].
  destruct (Rlt_dec x 1); lra.
Qed.

Lemma tape_unit_interval : @unit_interval_sampler tape_random.
Proof. intros st. apply clamp_unit_range. Qed.

Lemma exp_le (x y : R) : x <= y -> exp x <= exp y.
Proof.
  intros [Hlt| ->].
  - left. apply exp_increasing. exact Hlt.
  - right. reflexivity.
Qed.

Lemma ln_le_mono (x y : R) : 0 < x -> x <= y -> ln x <= ln y.
Proof.
  intros Hx [Hlt| ->]; [left; apply ln_increasing; assumption|].
  right; reflexivity.
Qed.

Lemma rayleigh_cdf_nonneg (y : R) :
  0 <= y -> rayleigh_cdf (Fin y) = Fin (1 - exp (- (y * y / 2))).
Proof.
  intros Hy. unfold rayleigh_cdf. destruct (Rlt_dec y 0); [lra|reflexivity].
Qed.

Lemma rayleigh_ppf_unit (u : R) :
  0 <= u < 1 -> rayleigh_ppf (Fin u) = Fin (sqrt (- (2 * ln (1 - u)))).
Proof.
  intros Hu. unfold rayleigh_ppf. destruct (Rlt_dec u 0); [lra|].
  destruct (Rlt_dec u 1); [reflexivity|lra].
Qed.

Lemma rayleigh_level (y : R) : 0 <= y -> 0 <= 1 - exp (- (y * y / 2)) < 1.
Proof.
  intros Hy. pose proof (exp_pos (- (y * y / 2))) as Hpos.
  assert (Hle : exp (- (y * y / 2)) <= exp 0) by (apply exp_le; nra).
  rewrite exp_0 in Hle. lra.
Qed.

Lemma chi_two_laws : @chi_laws chi_two 2.
Proof.
  split; cbn [chi_cdf chi_ppf chi_two Z.eqb Pos.eqb].
  - intros y Hy. rewrite rayleigh_cdf_nonneg by exact Hy.
    eexists. split; [reflexivity|]. apply rayleigh_level. exact Hy.
  - intros u Hu. rewrite rayleigh_ppf_unit by exact Hu.
    eexists. split; [reflexivity|]. apply sqrt_pos.
  - intros u v q q' Huv Hv Hq Hq'.
    rewrite rayleigh_ppf_unit in Hq, Hq' by lra.
    injection Hq as <-. injection Hq' as <-.
    apply sqrt_le_1_alt.
    assert (ln (1 - v) <= ln (1 - u)) by (apply ln_le_mono; lra).
    lra.
  - intros y c Hy Hc. rewrite rayleigh_cdf_nonneg in Hc by exact Hy.
    injection Hc as <-.
    rewrite rayleigh_ppf_unit by (apply rayleigh_level; exact Hy).
    f_equal.
    replace (1 - (1 - exp (- (y * y / 2)))) with (exp (- (y * y / 2)))
      by ring.
    rewrite ln_exp.
    replace (- (2 * - (y * y / 2))) with (y * y) by field.
    apply sqrt_square. exact Hy.
Qed.

Lemma chi_two_cdf_finite (y : R) : exists c, @chi_cdf chi_two (Fin y) 2 = Fin c.
Proof.
  cbn [chi_cdf chi_two Z.eqb Pos.eqb]. unfold rayleigh_cdf.
  destruct (Rlt_dec y 0); eexists; reflexivity.
Qed.

Lemma one_nonzero : Fin 1 <> Fin 0.
Proof. intros Heq. injection Heq as Heq. lra. Qed.

Lemma draw_functions_shape_witness :
  (exists a st',
      draw_uniform (rng := tape_random) 2 (Fin 1) 3 (Fin 1) [] = Ok (a, st')
      /\ has_shape a 3 2)
  /\ (exists a st',
         draw_gaussian (rng := tape_random) 2 (Fin 1) 3 (Fin 1) []
         = Ok (a, st')
         /\ has_shape a 3 2)
  /\ (exists a st',
         draw_nsphere (rng := tape_random) 2 (Fin 1) 3 (Fin 1) []
         = Ok (a, st')
         /\ has_shape a 3 2)
  /\ (exists a st',
         draw_surface_nsphere (rng := tape_random) 2 (Fin 1) 3 []
         = Ok (a, st')
         /\ has_shape a 3 2).
Proof.
  apply (draw_functions_shape (rng := tape_random) 2 3 (Fin 1) (Fin 1) []);
    lia.
Defined.

(** With [fuzz = 2] a point of the ball of radius 1 lies at distance 3/2;
    with a zero Gaussian draw the point of the sphere is NaN. *)
Lemma sphere_draws_norm_counterexample :
  (exists out st2,
      draw_nsphere (rng := tape_random) 1 (Fin 1) 1 (Fin 2) [1; 3 / 4]
      = Ok (out, st2)
      /\ row_norm out 0 = Fin (3 / 2)
      /\ ~ num_le (row_norm out 0) (Fin 1))
  /\ (exists out st1,
         draw_surface_nsphere (rng := tape_random) 1 (Fin 1) 1 [0]
         = Ok (out, st1)
         /\ row_norm out 0 = NaN
         /\ row_norm out 0 <> Fin 1).
Proof.
  split.
  - destruct (draw_nsphere_row_norm (rng := tape_random) 1 1 1 2
                [1; 3 / 4] [3 / 4] (Array2 1 1 [Fin 1]) 0
                tape_unit_interval ltac:(lia) eq_refl ltac:(cbn; lia))
      as (out & st2 & w & Hout & Hw & _ & Hnorm).
    { exists 0%nat. split; [cbn; lia | exact one_nonzero]. }
    change (pow (Fin (clamp_unit (3 / 4))) (Fin (1 / 1)) = Fin w) in Hw.
    rewrite clamp_unit_id in Hw by lra.
    unfold pow in Hw.
    destruct (Req_EM_T (1 / 1) 0) as [H0|_]; [lra|].
    destruct (Rlt_dec 0 (3 / 4)) as [_|Hn]; [|lra].
    replace (1 / 1) with 1 in Hw by lra.
    rewrite Rpower_1 in Hw by lra. injection Hw as <-.
    assert (Hval : Rabs (2 * 1) * (3 / 4) = 3 / 2)
      by (rewrite Rabs_pos_eq; lra).
    rewrite Hval in Hnorm.
    exists out, st2. split; [exact Hout|]. split; [exact Hnorm|].
    rewrite Hnorm. cbn [num_le]. lra.
  - destruct (zero_row_gives_nan (rng := tape_random) 1 1 (Fin 1)
                [0] [] (Array2 1 1 [Fin 0]) 0 eq_refl ltac:(cbn; lia))
      as (out & g & Hout & Horep & Hnan).
    { intros j Hj. destruct j; [reflexivity | cbn in Hj; lia]. }
    exists out, []. split; [exact Hout|].
    rewrite (row_norm_all_nan _ _ _ _ 0 Horep ltac:(cbn; lia) Hnan)
      by (cbn; lia).
    split; [reflexivity | discriminate].
Qed.

(** The four-argument call is refused by [draw_surface_nsphere], by
    position and by keyword. *)
Lemma draw_surface_nsphere_rejects_fuzz :
  call (rng := tape_random) py_draw_surface_nsphere
    [PyInt 2; PyFloat (Fin 1); PyInt 3; PyFloat (Fin 1)] [] []
  = Raise (TypeError
      "draw_surface_nsphere() takes from 1 to 3 positional arguments but 4 were given")
  /\ call (rng := tape_random) py_draw_surface_nsphere
       [PyInt 2]
       [("r", PyFloat (Fin 1)); ("N", PyInt 3); ("fuzz", PyFloat (Fin 1))] []
     = Raise (TypeError
         "draw_surface_nsphere() got an unexpected keyword argument 'fuzz'").
Proof. split; reflexivity. Qed.

Lemma draw_interface_witness :
  (exists a st',
      call (rng := tape_random) (py_draw_truncated_gaussian (chi := chi_two))
        [PyInt 2; PyFloat (Fin 1); PyInt 3; PyFloat (Fin 1)] [] []
      = Ok (a, st')
      /\ has_shape a 3 2)
  /\ (exists a st',
         call (rng := tape_random)
           (py_draw_truncated_gaussian (chi := chi_two))
           [PyInt 2]
           [("r", PyFloat (Fin 1)); ("N", PyInt 3); ("fuzz", PyFloat (Fin 1))]
           []
         = Ok (a, st')
         /\ has_shape a 3 2)
  /\ (exists a st',
         call (rng := tape_random) py_draw_surface_nsphere
           [PyInt 2; PyFloat (Fin 1); PyInt 3] [] []
         = Ok (a, st')
         /\ has_shape a 3 2).
Proof.
  apply (draw_interface (rng := tape_random) (chi := chi_two)
           py_draw_truncated_gaussian 2 3 (PyFloat (Fin 1)) (PyFloat (Fin 1))
           []).
  - unfold fuzz_variants. cbn [In]. tauto.
  - lia.
  - lia.
  - reflexivity.
  - reflexivity.
  - exact chi_two_cdf_finite.
Defined.

(** C8. At the failing input the documented truncation does not hold:
    with [dims = 2], [N = 1] and [r = fuzz = var = 1], a uniform draw of
    1/2 followed by the Gaussian direction [(0, 0)] makes
    [draw_truncated_gaussian] return the single row [(NaN, NaN)]; its
    norm is NaN, which is not at most [fuzz * r]. *)
Theorem draw_truncated_gaussian_nan_row :
  draw_truncated_gaussian (rng := tape_random) (chi := chi_two)
    2 (Fin 1) 1 (Fin 1) (Fin 1) [1 / 2; 0; 0]
  = Ok (Array2 1 2 [NaN; NaN], [])
  /\ row_norm (Array2 1 2 [NaN; NaN]) 0 = NaN
  /\ ~ num_le (row_norm (Array2 1 2 [NaN; NaN]) 0) (mul (Fin 1) (Fin 1)).
Proof.
  destruct (chi_two_cdf_finite (1 * 1 / sqrt 1)) as (c & Hc).
  destruct (truncated_zero_row_gives_nan (rng := tape_random)
              (chi := chi_two) 2 1 (Fin 1) (Fin 1) (Fin 1) c
              [1 / 2; 0; 0] [] (Array2 1 2 [Fin 0; Fin 0]) 0)
    as (out & g & Hout & Horep & Hnan).
  - rewrite <- Hc. f_equal. apply sqrt_one_cdf_argument.
  - reflexivity.
  - cbn; lia.
  - intros j Hj. destruct j as [|[|j]]; [reflexivity | reflexivity|].
    cbn in Hj; lia.
  - assert (Harr : out = Array2 1 2 [NaN; NaN]).
    { pose proof (Hnan 0%nat ltac:(cbn; lia)) as H0.
      pose proof (Hnan 1%nat ltac:(cbn; lia)) as H1.
      destruct Horep as (Hr & Hcols & Hwf & _).
      destruct out as [n k l]. unfold well_formed, get2 in *.
      cbn [nrows ncols elems] in *. subst n k.
      change (Z.to_nat 1) with 1%nat in *.
      change (Z.to_nat 2) with 2%nat in *.
      destruct l as [|a [|b [|d l]]]; cbn in Hwf; try lia.
      cbn in H0, H1. subst a b. reflexivity. }
    subst out. split; [exact Hout|].
    assert (Hnorm : row_norm (Array2 1 2 [NaN; NaN]) 0 = NaN).
    { apply (row_norm_all_nan _ _ _ _ _ Horep); [cbn; lia | exact Hnan|].
      cbn; lia. }
    split; [exact Hnorm|]. rewrite Hnorm. cbn [num_le]. tauto.
Qed.

Lemma draw_surface_nsphere_zero_row_witness :
  exists out,
    draw_surface_nsphere (rng := tape_random) 1 (Fin 1) 1 [0] = Ok (out, [])
    /\ has_shape out 1 1
    /\ (forall j, (j < Z.to_nat 1)%nat ->
          nth_error (elems out) (0 * Z.to_nat 1 + j) = Some NaN)
    /\ (forall j, (j < Z.to_nat 1)%nat -> get2 out 0 j = NaN)
    /\ ((0 < 1)%Z ->
        nth_error (row_norms out) 0 = Some NaN /\ row_norm out 0 = NaN).
Proof.
  apply (draw_surface_nsphere_zero_row (rng := tape_random) 1 1 (Fin 1)
           [0] [] (Array2 1 1 [Fin 0]) 0).
  - reflexivity.
  - cbn; lia.
  - intros j Hj. destruct j; [reflexivity | cbn in Hj; lia].
Defined.

Lemma draw_uniform_ignores_r_and_fuzz_witness :
  draw_uniform (rng := tape_random) 2 (Fin 1) 3 (Fin 1) [1 / 2]
  = draw_uniform (rng := tape_random) 2 (Fin 5) 3 (Fin 2) [1 / 2]
  /\ (forall a st',
        draw_uniform (rng := tape_random) 2 (Fin 1) 3 (Fin 1) [1 / 2]
        = Ok (a, st') ->
        Forall in_unit_interval (elems a))
  /\ ((0 <= 3)%Z -> (0 <= 2)%Z ->
      exists a st',
        draw_uniform (rng := tape_random) 2 (Fin 1) 3 (Fin 1) [1 / 2]
        = Ok (a, st')).
Proof.
  apply (draw_uniform_ignores_r_and_fuzz (rng := tape_random)
           2 3 (Fin 1) (Fin 1) (Fin 5) (Fin 2) [1 / 2]).
  exact tape_unit_interval.
Defined.

End SamplingFacts.

(* ================================================================== *)
(** * The sphere and ball draws in double precision *)

Module Binary64Facts.

Import Sampling SamplingFacts Binary64.
Local Open Scope R_scope.

(** ** The constants of binary64 *)

Lemma pow_two_ge_one (n : nat) : 1 <= 2 ^ n.
Proof. apply pow_R1_Rle. lra. Qed.

Lemma unit_roundoff_bounds : 0 < unit_roundoff <= / 2.
Proof.
  unfold unit_roundoff. split.
  - apply Rinv_0_lt_compat. pose proof (pow_two_ge_one 53). lra.
  - apply Rinv_le_contravar; [lra|].
    rewrite <- (pow_1 2) at 1. apply Rle_pow; [lra | lia].
Qed.

Lemma min_normal_bounds : 0 < min_normal <= 1.
Proof.
  unfold min_normal. pose proof (pow_two_ge_one 1022) as H. split.
  - apply Rinv_0_lt_compat. lra.
  - rewrite <- Rinv_1. apply Rinv_le_contravar; lra.
Qed.

Lemma max_float_bound : 2 <= max_float.
Proof.
  unfold max_float.
  assert (H52 : / 2 ^ 52 <= 1).
  { rewrite <- Rinv_1. apply Rinv_le_contravar; [lra|].
    apply pow_two_ge_one. }
  assert (H1023 : 2 <= 2 ^ 1023).
  { rewrite <- (pow_1 2) at 1. apply Rle_pow; [lra | lia]. }
  nra.
Qed.

Lemma in_range_zero : in_range 0.
Proof. left. reflexivity. Qed.

Lemma in_range_unit (x : R) : 1 <= Rabs x <= 2 -> in_range x.
Proof.
  intros Hx. right. pose proof min_normal_bounds. pose proof max_float_bound.
  lra.
Qed.

(** ** Quantities that differ by a few roundings *)

Lemma rho_bounds :
  1 <= rho /\ 1 + unit_roundoff <= rho /\ 1 <= (1 - unit_roundoff) * rho.
Proof.
  pose proof unit_roundoff_bounds as Hu. unfold rho.
  assert (Ha : 0 < 1 - unit_roundoff) by lra.
  assert (Heq : (1 - unit_roundoff) * ((1 + unit_roundoff) / (1 - unit_roundoff))
                = 1 + unit_roundoff) by (field; lra).
  assert (Hle : 1 + unit_roundoff <= (1 + unit_roundoff) / (1 - unit_roundoff)).
  { apply (Rmult_le_reg_l (1 - unit_roundoff)); [exact Ha|].
    rewrite Heq. nra. }
  split; [lra|]. split; [exact Hle|]. rewrite Heq. lra.
Qed.

Lemma rho_pow_ge_one (k : nat) : 1 <= rho ^ k.
Proof. apply pow_R1_Rle. apply rho_bounds. Qed.

Lemma rho_pow_mono (k m : nat) : (k <= m)%nat -> rho ^ k <= rho ^ m.
Proof. intros Hkm. apply Rle_pow; [apply rho_bounds | exact Hkm]. Qed.

Lemma rho_pow_add (k m : nat) : rho ^ (k + m) = rho ^ k * rho ^ m.
Proof. apply pow_add. Qed.

Lemma near_refl (p : R) : near 0 p p.
Proof. unfold near. rewrite pow_O. lra. Qed.

Lemma near_nonneg (k : nat) (p q : R) : 0 <= q -> near k p q -> 0 <= p.
Proof.
  intros Hq [H1 _]. pose proof (rho_pow_ge_one k) as Hk.
  destruct (Rle_dec 0 p) as [|Hn]; [assumption|]. exfalso.
  assert (p * rho ^ k < 0) by nra. lra.
Qed.

Lemma near_pos (k : nat) (p q : R) : 0 < q -> near k p q -> 0 < p.
Proof.
  intros Hq [H1 _]. pose proof (rho_pow_ge_one k) as Hk.
  destruct (Rlt_dec 0 p) as [|Hn]; [assumption|]. exfalso.
  assert (p * rho ^ k <= 0) by nra. lra.
Qed.

Lemma near_weaken (k m : nat) (p q : R) :
  (k <= m)%nat -> 0 <= q -> near k p q -> near m p q.
Proof.
  intros Hkm Hq Hn. pose proof (near_nonneg _ _ _ Hq Hn) as Hp.
  destruct Hn as [H1 H2]. pose proof (rho_pow_mono _ _ Hkm) as Hm.
  pose proof (rho_pow_ge_one k). unfold near. split; nra.
Qed.

Lemma near_trans (k m : nat) (p q r : R) :
  near k p q -> near m q r -> near (k + m) p r.
Proof.
  intros [H1 H2] [H3 H4]. unfold near. rewrite rho_pow_add.
  pose proof (rho_pow_ge_one k). pose proof (rho_pow_ge_one m).
  split.
  - apply Rle_trans with (q * rho ^ m); [exact H3|]. 
    replace (p * (rho ^ k * rho ^ m)) with (p * rho ^ k * rho ^ m) by ring.
    apply Rmult_le_compat_r; lra.
  - apply Rle_trans with (q * rho ^ k); [exact H2|].
    replace (r * (rho ^ k * rho ^ m)) with (r * rho ^ m * rho ^ k) by ring.
    apply Rmult_le_compat_r; lra.
Qed.

Lemma near_mul (k m : nat) (p q p' q' : R) :
  0 <= q -> 0 <= q' -> near k p q -> near m p' q' ->
  near (k + m) (p * p') (q * q').
Proof.
  intros Hq Hq' Hn Hn'.
  pose proof (near_nonneg _ _ _ Hq Hn) as Hp.
  pose proof (near_nonneg _ _ _ Hq' Hn') as Hp'.
  destruct Hn as [H1 H2], Hn' as [H3 H4].
  unfold near. rewrite rho_pow_add. split.
  - replace (p * p' * (rho ^ k * rho ^ m))
      with ((p * rho ^ k) * (p' * rho ^ m)) by ring.
    apply Rmult_le_compat; assumption.
  - replace (q * q' * (rho ^ k * rho ^ m))
      with ((q * rho ^ k) * (q' * rho ^ m)) by ring.
    apply Rmult_le_compat; assumption.
Qed.

Lemma near_inv (k : nat) (p q : R) :
  0 < q -> near k p q -> near k (/ p) (/ q).
Proof.
  intros Hq Hn. pose proof (near_pos _ _ _ Hq Hn) as Hp.
  destruct Hn as [H1 H2]. pose proof (rho_pow_ge_one k) as Hk.
  unfold near. split.
  - apply (Rmult_le_reg_l (p * q)); [nra|].
    replace (p * q * / q) with p by (field; lra).
    replace (p * q * (/ p * rho ^ k)) with (q * rho ^ k) by (field; lra).
    exact H2.
  - apply (Rmult_le_reg_l (p * q)); [nra|].
    replace (p * q * / p) with q by (field; lra).
    replace (p * q * (/ q * rho ^ k)) with (p * rho ^ k) by (field; lra).
    exact H1.
Qed.

Lemma near_div (k m : nat) (p q p' q' : R) :
  0 <= q -> 0 < q' -> near k p q -> near m p' q' ->
  near (k + m) (p / p') (q / q').
Proof.
  intros Hq Hq' Hn Hn'. unfold Rdiv. apply near_mul; try assumption.
  - left. apply Rinv_0_lt_compat. exact Hq'.
  - apply near_inv; assumption.
Qed.

Lemma near_sqrt (k : nat) (p q : R) :
  0 <= q -> near k p q -> near k (sqrt p) (sqrt q).
Proof.
  intros Hq Hn. pose proof (near_nonneg _ _ _ Hq Hn) as Hp.
  destruct Hn as [H1 H2]. pose proof (rho_pow_ge_one k) as Hk.
  assert (Hs : sqrt (rho ^ k) <= rho ^ k).
  { rewrite <- (sqrt_square (rho ^ k)) at 2 by lra.
    apply sqrt_le_1_alt. nra. }
  pose proof (sqrt_pos p). pose proof (sqrt_pos q).
  unfold near. split.
  - apply Rle_trans with (sqrt (p * rho ^ k)); [apply sqrt_le_1_alt, H1|].
    rewrite sqrt_mult by lra. apply Rmult_le_compat_l; assumption.
  - apply Rle_trans with (sqrt (q * rho ^ k)); [apply sqrt_le_1_alt, H2|].
    rewrite sqrt_mult by lra. apply Rmult_le_compat_l; assumption.
Qed.

(** A square root takes away half of the factors. *)
Lemma near_sqrt_half (k : nat) (p q : R) :
  0 <= q -> near (k + k) p q -> near k (sqrt p) (sqrt q).
Proof.
  intros Hq Hn. pose proof (near_nonneg _ _ _ Hq Hn) as Hp.
  destruct Hn as [H1 H2]. pose proof (rho_pow_ge_one k) as Hk.
  rewrite rho_pow_add in H1, H2.
  assert (Hs : sqrt (rho ^ k * rho ^ k) = rho ^ k)
    by (apply sqrt_square; lra).
  unfold near. split.
  - rewrite <- Hs at 1. rewrite <- sqrt_mult by nra.
    apply sqrt_le_1_alt, H1.
  - rewrite <- Hs at 1. rewrite <- sqrt_mult by nra.
    apply sqrt_le_1_alt, H2.
Qed.

Lemma near_sum {A} (k : nat) (F f : A -> R) (l : list A) :
  (forall x, In x l -> near k (F x) (f x)) ->
  near k (Rsum (map F l)) (Rsum (map f l)).
Proof.
  induction l as [|x l IH]; intros Hall; cbn [map].
  - unfold near, Rsum. cbn. lra.
  - rewrite !Rsum_cons.
    destruct (Hall x (or_introl eq_refl)) as [H1 H2].
    destruct IH as [H3 H4]; [intros y Hy; apply Hall; right; exact Hy|].
    unfold near. split; lra.
Qed.

(** ** Norms of lists *)

Lemma Rsum_map_scale {A} (k : R) (f : A -> R) (l : list A) :
  Rsum (map (fun x => k * f x) l) = k * Rsum (map f l).
Proof.
  induction l as [|x l IH]; cbn [map]; [cbn; lra|].
  rewrite !Rsum_cons, IH. lra.
Qed.

Lemma Rsum_map_le {A} (F f : A -> R) (l : list A) :
  (forall x, In x l -> F x <= f x) -> Rsum (map F l) <= Rsum (map f l).
Proof.
  induction l as [|x l IH]; intros Hall; cbn [map]; [cbn; lra|].
  rewrite !Rsum_cons.
  pose proof (Hall x (or_introl eq_refl)).
  assert (Rsum (map F l) <= Rsum (map f l))
    by (apply IH; intros y Hy; apply Hall; right; exact Hy).
  lra.
Qed.

Lemma Rsum_map_ext {A} (F f : A -> R) (l : list A) :
  (forall x, In x l -> F x = f x) -> Rsum (map F l) = Rsum (map f l).
Proof.
  intros Hall. f_equal. apply map_ext_in. exact Hall.
Qed.

Lemma Rsum_squares_list_nonneg (l : list R) :
  0 <= Rsum (map (fun v => v * v) l).
Proof.
  induction l as [|x l IH]; cbn [map]; [cbn; lra|].
  rewrite Rsum_cons. nra.
Qed.

Lemma Rsum_squares_list_pos (l : list R) :
  Exists (fun v => v <> 0) l -> 0 < Rsum (map (fun v => v * v) l).
Proof.
  intros Hex. induction Hex as [x l Hx|x l _ IH]; cbn [map];
    rewrite Rsum_cons; pose proof (Rsum_squares_list_nonneg l); nra.
Qed.

Lemma euclidean_norm_map {A} (F : A -> R) (l : list A) :
  euclidean_norm (map F l) = sqrt (Rsum (map (fun x => F x * F x) l)).
Proof. unfold euclidean_norm. rewrite map_map. reflexivity. Qed.

Lemma abs_square (a : R) : Rabs a * Rabs a = a * a.
Proof. rewrite <- Rabs_mult. apply Rabs_pos_eq. nra. Qed.

(** The norm of a vector whose entries are known up to [k] roundings. *)
Lemma near_norm {A} (k : nat) (F c : A -> R) (l : list A) :
  (forall x, In x l -> 0 <= c x) ->
  (forall x, In x l -> near k (Rabs (F x)) (c x)) ->
  near k (euclidean_norm (map F l)) (euclidean_norm (map c l)).
Proof.
  intros Hc Hall. rewrite !euclidean_norm_map.
  apply near_sqrt_half.
  - rewrite <- (map_map c (fun v => v * v)). apply Rsum_squares_list_nonneg.
  - apply near_sum. intros x Hx. rewrite <- (abs_square (F x)).
    apply near_mul; auto.
Qed.

Lemma norm_le {A} (F c : A -> R) (l : list A) :
  (forall x, In x l -> Rabs (F x) <= c x) ->
  euclidean_norm (map F l) <= euclidean_norm (map c l).
Proof.
  intros Hall. rewrite !euclidean_norm_map. apply sqrt_le_1_alt.
  apply Rsum_map_le. intros x Hx. rewrite <- (abs_square (F x)).
  pose proof (Rabs_pos (F x)). specialize (Hall x Hx). nra.
Qed.

(** A vector divided by its norm and scaled by [k >= 0] has norm [k]. *)
Lemma norm_scaled_direction (k : R) (xs : list R) :
  0 <= k -> Exists (fun v => v <> 0) xs ->
  euclidean_norm
    (map (fun x => k * (Rabs x / euclidean_norm xs)) xs) = k.
Proof.
  intros Hk Hex. pose proof (Rsum_squares_list_pos xs Hex) as Hpos.
  pose proof (sqrt_lt_R0 _ Hpos) as Hs.
  rewrite euclidean_norm_map. unfold euclidean_norm at 1 2.
  set (A := Rsum (map (fun v => v * v) xs)) in *.
  rewrite (Rsum_map_ext _ (fun x => (k * k / A) * (x * x))).
  - rewrite Rsum_map_scale. fold A.
    replace (k * k / A * A) with (k * k) by (field; lra).
    apply sqrt_square. exact Hk.
  - intros x _.
    replace (k * (Rabs x / sqrt A) * (k * (Rabs x / sqrt A)))
      with (k * k * (Rabs x * Rabs x) / (sqrt A * sqrt A)) by (field; lra).
    rewrite abs_square, sqrt_sqrt by lra. field. lra.
Qed.

(** ** Rounding *)

Lemma between_zero_abs (p q : R) : between_zero p q -> Rabs p <= Rabs q.
Proof.
  intros [[H0 H1]|[H1 H0]].
  - rewrite !Rabs_pos_eq by lra. exact H1.
  - rewrite !Rabs_left1 by lra. lra.
Qed.

Lemma between_zero_scale (k p q : R) :
  between_zero p q -> between_zero (k * p) (k * q).
Proof.
  unfold between_zero. intros Hb.
  destruct (Rle_dec 0 k); destruct Hb as [[H0 H1]|[H1 H0]]; nra.
Qed.

Lemma between_zero_unit (w z : R) : 0 <= w <= 1 -> between_zero (w * z) z.
Proof.
  unfold between_zero. intros Hw. destruct (Rle_dec 0 z); nra.
Qed.

Section Rounding.

Context {fm : FloatModel}.

Lemma round_zero : float_laws -> round 0 = Fin 0.
Proof.
  intros L. destruct (round_error L 0 in_range_zero) as (y & Hy & He).
  rewrite Rminus_0_r, Rabs_R0, Rmult_0_r in He.
  assert (y = 0) by (unfold Rabs in He; destruct (Rcase_abs y); lra).
  subst y. exact Hy.
Qed.

Lemma round_in_range (x : R) :
  float_laws -> in_range x ->
  round x = Fin (rnd x) /\ Rabs (rnd x - x) <= unit_roundoff * Rabs x.
Proof.
  intros L Hx. destruct (round_error L x Hx) as (y & Hy & He).
  unfold rnd. rewrite Hy. cbn [to_real]. split; [reflexivity | exact He].
Qed.

Lemma round_near (x : R) :
  float_laws -> in_range x -> near 1 (Rabs (rnd x)) (Rabs x).
Proof.
  intros L Hx. destruct (round_in_range x L Hx) as [_ He].
  pose proof unit_roundoff_bounds as Hu.
  destruct rho_bounds as (Hr1 & Hr2 & Hr3).
  pose proof (Rabs_pos x) as Hax. pose proof (Rabs_pos (rnd x)) as Hay.
  assert (Hup : Rabs (rnd x) <= Rabs x + Rabs (rnd x - x)).
  { replace (rnd x) with (x + (rnd x - x)) at 1 by ring. apply Rabs_triang. }
  assert (Hlo : Rabs x <= Rabs (rnd x) + Rabs (rnd x - x)).
  { replace x with (rnd x + - (rnd x - x)) at 1 by ring.
    rewrite <- (Rabs_Ropp (rnd x - x)). apply Rabs_triang. }
  unfold near. rewrite pow_1. split.
  - assert ((1 - unit_roundoff) * Rabs x <= Rabs (rnd x)) by lra.
    assert (Rabs x <= (1 - unit_roundoff) * rho * Rabs x) by nra.
    nra.
  - assert (Rabs (rnd x) <= (1 + unit_roundoff) * Rabs x) by lra.
    nra.
Qed.

Lemma round_nonneg (x : R) :
  float_laws -> in_range x -> 0 <= x -> 0 <= rnd x.
Proof.
  intros L Hx H0. destruct (round_in_range x L Hx) as [_ He].
  pose proof unit_roundoff_bounds as Hu.
  rewrite (Rabs_pos_eq x) in He by exact H0.
  unfold Rabs in He. destruct (Rcase_abs (rnd x - x)); nra.
Qed.

(** The rounding of a non-negative real in range, as a positive
    quantity known up to one rounding. *)
Lemma round_near_nonneg (x : R) :
  float_laws -> in_range x -> 0 <= x -> near 1 (rnd x) x.
Proof.
  intros L Hx H0. pose proof (round_near x L Hx) as Hn.
  rewrite (Rabs_pos_eq x), (Rabs_pos_eq (rnd x)) in Hn;
    [exact Hn | apply round_nonneg; assumption | exact H0].
Qed.

Lemma round_finite_between (lo hi lo' hi' x : R) :
  float_laws -> round lo = Fin lo' -> round hi = Fin hi' ->
  lo <= x <= hi ->
  exists y, round x = Fin y /\ lo' <= y <= hi'.
Proof.
  intros L Hlo Hhi [H1 H2].
  pose proof (round_monotone L lo x H1) as M1.
  pose proof (round_monotone L x hi H2) as M2.
  rewrite Hlo in M1. rewrite Hhi in M2.
  destruct (round x) as [y| | |]; cbn [num_le] in M1, M2;
    try contradiction.
  exists y. split; [reflexivity | lra].
Qed.

Lemma round_between_zero (p q q' : R) :
  float_laws -> round q = Fin q' -> between_zero p q ->
  exists p', round p = Fin p' /\ between_zero p' q'.
Proof.
  intros L Hq [Hb|Hb].
  - destruct (round_finite_between 0 q 0 q' p L (round_zero L) Hq Hb)
      as (p' & Hp & Hp').
    exists p'. split; [exact Hp | left; exact Hp'].
  - destruct (round_finite_between q 0 q' 0 p L Hq (round_zero L) Hb)
      as (p' & Hp & Hp').
    exists p'. split; [exact Hp | right; exact Hp'].
Qed.

Lemma round_unit (x : R) :
  float_laws -> 0 <= x <= 1 -> exists y, round x = Fin y /\ 0 <= y <= 1.
Proof.
  intros L Hx.
  exact (round_finite_between 0 1 0 1 x L (round_zero L) (round_one L) Hx).
Qed.

Lemma Rsum_nonneg (l : list R) : Forall (fun s => 0 <= s) l -> 0 <= Rsum l.
Proof.
  induction 1 as [|x l Hx _ IH]; [cbn; lra|]. rewrite Rsum_cons. lra.
Qed.

(** numpy's sum of non-negative doubles, up to one rounding per term. *)
Lemma add_reduce_near (l : list R) :
  float_laws -> Forall representable l -> Forall (fun s => 0 <= s) l ->
  (1 + unit_roundoff) ^ length l * Rsum l <= max_float ->
  exists s, add_reduce l = Fin s /\ near (length l) s (Rsum l).
Proof.
  intros L Hrep Hpos Hmax.
  destruct (add_reduce_error L l Hrep Hpos Hmax) as (s & Hs & Hlo & Hhi).
  exists s. split; [exact Hs|].
  pose proof (Rsum_nonneg l Hpos) as Hsum.
  pose proof unit_roundoff_bounds as Hu.
  destruct rho_bounds as (Hr1 & Hr2 & Hr3).
  set (n := length l) in *.
  assert (Ha : 0 <= (1 - unit_roundoff) ^ n) by (apply pow_le; lra).
  assert (Hb : (1 + unit_roundoff) ^ n <= rho ^ n)
    by (apply pow_incr; lra).
  assert (Hab : 1 <= (1 - unit_roundoff) ^ n * rho ^ n).
  { rewrite <- Rpow_mult_distr. apply pow_R1_Rle. exact Hr3. }
  pose proof (rho_pow_ge_one n) as Hn.
  unfold near. split.
  - apply Rle_trans with ((1 - unit_roundoff) ^ n * Rsum l * rho ^ n).
    + replace ((1 - unit_roundoff) ^ n * Rsum l * rho ^ n)
        with ((1 - unit_roundoff) ^ n * rho ^ n * Rsum l) by ring.
      nra.
    + apply Rmult_le_compat_r; lra.
  - apply Rle_trans with ((1 + unit_roundoff) ^ n * Rsum l); [exact Hhi|].
    rewrite (Rmult_comm (Rsum l)). apply Rmult_le_compat_r; assumption.
Qed.

(** The rounded squares of a row. *)
Lemma row_squares_near (xs : list R) :
  float_laws -> Forall (fun x => in_range (x * x)) xs ->
  map (fun x => round (x * x)) xs = map Fin (row_squares xs)
  /\ Forall representable (row_squares xs)
  /\ Forall (fun s => 0 <= s) (row_squares xs)
  /\ near 1 (Rsum (row_squares xs)) (Rsum (map (fun x => x * x) xs)).
Proof.
  intros L Hall. unfold row_squares.
  induction Hall as [|x xs Hx _ IH]; cbn [map].
  - repeat split; try constructor; unfold Rsum; cbn; lra.
  - destruct IH as (IH1 & IH2 & IH3 & IH4).
    destruct (round_in_range _ L Hx) as [Hr _].
    assert (H0 : 0 <= x * x) by nra.
    repeat split.
    + rewrite Hr, IH1. reflexivity.
    + constructor; [|exact IH2].
      exact (round_idempotent L _ _ Hr).
    + constructor; [|exact IH3]. apply round_nonneg; assumption.
    + rewrite !Rsum_cons.
      destruct (round_near_nonneg _ L Hx H0). destruct IH4. lra.
    + rewrite !Rsum_cons.
      destruct (round_near_nonneg _ L Hx H0). destruct IH4. lra.
Qed.

(** The computed norm of a row that is not the zero vector. *)
Lemma row_length_near (xs : list R) :
  float_laws -> Exists (fun v => v <> 0) xs -> normalisation_in_range xs ->
  add_reduce (row_squares xs) = Fin (row_sum xs)
  /\ 0 < row_sum xs
  /\ round (sqrt (row_sum xs)) = Fin (row_length xs)
  /\ 0 < row_length xs
  /\ near (length xs + 2) (row_length xs) (euclidean_norm xs).
Proof.
  intros L Hex (Hsq & Hmax & Hroot & _).
  destruct (row_squares_near xs L Hsq) as (_ & Hrep & Hpos & Hnear).
  pose proof (Rsum_squares_list_pos xs Hex) as HA.
  assert (Hlen : length (row_squares xs) = length xs)
    by (unfold row_squares; apply length_map).
  destruct (add_reduce_near (row_squares xs) L Hrep Hpos) as (s & Hs & Hsn).
  { rewrite Hlen. exact Hmax. }
  rewrite Hlen in Hsn.
  assert (Hsum : row_sum xs = s) by (unfold row_sum; rewrite Hs; reflexivity).
  pose proof (near_trans _ _ _ _ _ Hsn Hnear) as HsA.
  pose proof (near_pos _ _ _ HA HsA) as Hspos.
  pose proof (near_sqrt _ _ _ (Rlt_le _ _ HA) HsA) as Hroot_near.
  fold (euclidean_norm xs) in Hroot_near.
  rewrite Hsum in *.
  destruct (round_in_range _ L Hroot) as [Hr _].
  pose proof (round_near_nonneg _ L Hroot (sqrt_pos s)) as Hrn.
  fold (row_length xs) in Hr. unfold row_length. rewrite Hsum.
  pose proof (sqrt_lt_R0 _ HA) as HsA0. fold (euclidean_norm xs) in HsA0.
  pose proof (near_trans _ _ _ _ _ Hrn Hroot_near) as Hfinal.
  split; [rewrite <- Hs; reflexivity|]. split; [exact Hspos|].
  split; [exact (proj1 (round_in_range _ L Hroot))|].
  split; [exact (near_pos _ _ _ HsA0 Hfinal)|].
  eapply near_weaken; [| left; exact HsA0 | exact Hfinal]. lia.
Qed.

(** An entry divided by the computed norm. *)
Lemma direction_near (xs : list R) (x : R) :
  float_laws -> Exists (fun v => v <> 0) xs -> normalisation_in_range xs ->
  In x xs ->
  round (x / row_length xs) = Fin (rnd (x / row_length xs))
  /\ near (length xs + 3) (Rabs (rnd (x / row_length xs)))
        (Rabs x / euclidean_norm xs).
Proof.
  intros L Hex Hnorm Hin.
  destruct (row_length_near xs L Hex Hnorm) as (_ & _ & _ & Hlen & Hnear).
  destruct Hnorm as (_ & _ & _ & Hdiv).
  pose proof (proj1 (List.Forall_forall _ _) Hdiv x Hin) as Hx.
  cbn beta in Hx.
  pose proof (sqrt_lt_R0 _ (Rsum_squares_list_pos xs Hex)) as HsA.
  fold (euclidean_norm xs) in HsA.
  split; [exact (proj1 (round_in_range _ L Hx))|].
  pose proof (round_near _ L Hx) as Hr.
  assert (Habs : Rabs (x / row_length xs) = Rabs x / row_length xs).
  { unfold Rdiv. rewrite Rabs_mult, Rabs_inv, (Rabs_pos_eq (row_length xs)) by lra.
    reflexivity. }
  rewrite Habs in Hr.
  pose proof (near_div _ _ _ _ _ _ (Rabs_pos x) HsA (near_refl (Rabs x)) Hnear)
    as Hq.
  pose proof (near_trans _ _ _ _ _ Hr Hq) as Hfinal.
  eapply near_weaken; [| | exact Hfinal]; [lia|].
  apply Rle_mult_inv_pos; [apply Rabs_pos | exact HsA].
Qed.

(** The direction multiplied by a scalar. *)
Lemma scaled_near (s : R) (xs : list R) (x : R) :
  float_laws -> Exists (fun v => v <> 0) xs -> normalisation_in_range xs ->
  scaling_in_range s xs -> In x xs ->
  round (s * rnd (x / row_length xs))
  = Fin (rnd (s * rnd (x / row_length xs)))
  /\ near (length xs + 4) (Rabs (rnd (s * rnd (x / row_length xs))))
        (Rabs s * (Rabs x / euclidean_norm xs)).
Proof.
  intros L Hex Hnorm Hscale Hin.
  destruct (direction_near xs x L Hex Hnorm Hin) as [_ Hz].
  assert (Hx : in_range (s * rnd (x / row_length xs))).
  { apply (proj1 (List.Forall_forall _ _) Hscale
             (rnd (x / row_length xs))).
    unfold direction.
    apply (in_map (fun v => rnd (v / row_length xs))). exact Hin. }
  pose proof (sqrt_lt_R0 _ (Rsum_squares_list_pos xs Hex)) as HsA.
  fold (euclidean_norm xs) in HsA.
  assert (Hq0 : 0 <= Rabs x / euclidean_norm xs)
    by (apply Rle_mult_inv_pos; [apply Rabs_pos | exact HsA]).
  split; [exact (proj1 (round_in_range _ L Hx))|].
  pose proof (round_near _ L Hx) as Hr. rewrite Rabs_mult in Hr.
  pose proof (near_mul _ _ _ _ _ _ (Rabs_pos s) Hq0 (near_refl (Rabs s)) Hz)
    as Hq.
  pose proof (near_trans _ _ _ _ _ Hr Hq) as Hfinal.
  eapply near_weaken; [| | exact Hfinal]; [lia|].
  apply Rmult_le_pos; [apply Rabs_pos | exact Hq0].
Qed.

End Rounding.

(** ** The drawing functions, position by position *)

Lemma finite_values_map_Fin (l : list R) : finite_values (map Fin l) = Some l.
Proof.
  induction l as [|x l IH]; [reflexivity|].
  cbn [map finite_values]. rewrite IH. reflexivity.
Qed.

Lemma row_of_represents (a : array2) (n c : nat) (g : nat -> nat -> num)
    (i : nat) :
  represents a n c g -> (i < n)%nat -> row a i = map (g i) (seq 0 c).
Proof.
  intros (_ & Hc & _ & Hget) Hi. unfold row. rewrite Hc.
  apply map_ext_in. intros j Hj. apply in_seq in Hj. apply Hget; lia.
Qed.

Lemma represents_map_buffer {A} (f : A -> num) (vs : list A) (n c : nat)
    (d : A) :
  length vs = (n * c)%nat ->
  represents {| nrows := n; ncols := c; elems := map f vs |} n c
    (fun i j => f (nth (i * c + j) vs d)).
Proof.
  intros Hlen. unfold represents, well_formed, get2. cbn [nrows ncols elems].
  repeat split.
  - rewrite length_map. exact Hlen.
  - intros i j Hi Hj. apply nth_map_in.
    rewrite Hlen. apply index_in_bounds; assumption.
Qed.

Section Generator.

Context {rng : NumpyRandom} {fm : FloatModel}.

(** The norm numpy computes for the row [g 0 .. g (c - 1)]. *)
Lemma computed_row_norms (a : array2) (n c : nat) (g : nat -> nat -> num) :
  represents a n c g ->
  length (map fl_sqrt (np_sum_axis1 (power_scalar a (Fin 2)))) = n
  /\ forall i, (i < n)%nat ->
       nth i (map fl_sqrt (np_sum_axis1 (power_scalar a (Fin 2)))) NaN
       = fl_sqrt (sum_values
                    (map (fun j => fl_pow (g i j) (Fin 2)) (seq 0 c))).
Proof.
  intros Ha.
  pose proof (represents_map2 (fun v => fl_pow v (Fin 2)) _ _ _ _ Ha) as Hsq.
  fold (power_scalar a (Fin 2)) in Hsq.
  assert (Hlen : length (np_sum_axis1 (power_scalar a (Fin 2))) = n).
  { unfold np_sum_axis1. rewrite length_map, length_seq.
    destruct Hsq as (Hr & _). exact Hr. }
  split; [rewrite length_map; exact Hlen|].
  intros i Hi.
  rewrite (nth_map_in fl_sqrt _ _ NaN) by (rewrite Hlen; exact Hi).
  f_equal. unfold np_sum_axis1.
  destruct Hsq as (Hr & Hrest). rewrite Hr, nth_map_seq by exact Hi.
  f_equal.
  apply (row_of_represents _ n c _ i (conj Hr Hrest) Hi).
Qed.

(** The sphere draw divides every Gaussian row by its computed norm and
    scales it by [r]. *)
Lemma draw_surface_nsphere_rounded (dims N : Z) (r : num)
    (st st1 : RandomState) (x : array2) (h : nat -> nat -> R) :
  np_random_randn N dims st = Ok (x, st1) ->
  represents x (Z.to_nat N) (Z.to_nat dims) (fun i j => Fin (h i j)) ->
  exists out,
    draw_surface_nsphere dims r N st = Ok (out, st1)
    /\ represents out (Z.to_nat N) (Z.to_nat dims)
         (fun i j =>
            fl_mul r
              (fl_div (Fin (h i j))
                 (fl_sqrt
                    (sum_values
                       (map (fun k => fl_pow (Fin (h i k)) (Fin 2))
                          (seq 0 (Z.to_nat dims))))))).
Proof.
  intros Hx Hrep. unfold draw_surface_nsphere.
  rewrite (bind_ok _ _ _ _ _ Hx).
  destruct (computed_row_norms x _ _ _ Hrep) as [Hlen Hnth].
  pose proof (represents_newaxis_col
                (map fl_sqrt (np_sum_axis1 (power_scalar x (Fin 2))))) as HR.
  rewrite Hlen in HR.
  destruct (broadcast2_represents fl_div _ _ _ _ _ _ _ _ _ _ Hrep HR
              (broadcast_dim_same _) (broadcast_dim_one_r _))
    as (z & Hz & Hzrep).
  unfold bind at 1, ret at 1.
  unfold np_divide. rewrite Hz. cbn [lift bind ret].
  eexists. split; [reflexivity|].
  unfold scalar_mul.
  eapply represents_ext; [apply represents_map2, Hzrep|].
  intros i j Hi Hj. cbn beta.
  rewrite (stretch_lt _ i Hi), (stretch_lt _ j Hj).
  rewrite Hnth by exact Hi. reflexivity.
Qed.

(** [np.random.uniform(0, 1, size)]: the range [1 - 0] is exact. *)
Lemma np_random_uniform2_unit (d0 d1 : Z) (st : RandomState) :
  float_laws -> (0 <= d0)%Z -> (0 <= d1)%Z ->
  exists a st1 us,
    np_random_uniform2 (Fin 0) (Fin 1) (d0, d1) st = Ok (a, st1)
    /\ fst (draw_values random_sample (Z.to_nat d0 * Z.to_nat d1) st) = us
    /\ represents a (Z.to_nat d0) (Z.to_nat d1)
         (fun i j => uniform_value (Fin 0) (Fin 1)
                       (nth (i * Z.to_nat d1 + j) us 0)).
Proof.
  intros L H0 H1. unfold np_random_uniform2, fl_sub.
  cbn [sub neg add rounded fst snd].
  replace (1 + - 0) with 1 by lra. rewrite (round_one L).
  cbn [is_finite negb].
  destruct (Z.ltb_spec d0 0); [lia|]. destruct (Z.ltb_spec d1 0); [lia|].
  cbn [orb].
  pose proof (draw_values_length random_sample
                (Z.to_nat d0 * Z.to_nat d1) st) as Hlen.
  destruct (draw_values random_sample _ st) as [us st1]. cbn in Hlen.
  eexists _, st1, us. split; [reflexivity|]. split; [reflexivity|].
  apply represents_map_buffer. exact Hlen.
Qed.

(** The ball draw scales every point of the unit sphere by a power of a
    uniform value and by [fuzz * r]. *)
Lemma draw_nsphere_rounded (dims N : Z) (r fuzz : num)
    (st st1 st2 : RandomState) (x U : array2) (h : nat -> nat -> R)
    (u : nat -> nat -> num) :
  dims <> 0%Z ->
  np_random_randn N dims st = Ok (x, st1) ->
  represents x (Z.to_nat N) (Z.to_nat dims) (fun i j => Fin (h i j)) ->
  np_random_uniform2 (Fin 0) (Fin 1) (N, 1%Z) st1 = Ok (U, st2) ->
  represents U (Z.to_nat N) 1 u ->
  exists out,
    draw_nsphere dims r N fuzz st = Ok (out, st2)
    /\ represents out (Z.to_nat N) (Z.to_nat dims)
         (fun i j =>
            fl_mul (fl_mul fuzz r)
              (fl_mul (fl_pow (u i O) (round (IZR 1 / IZR dims)))
                 (fl_mul (Fin 1)
                    (fl_div (Fin (h i j))
                       (fl_sqrt
                          (sum_values
                             (map (fun k => fl_pow (Fin (h i k)) (Fin 2))
                                (seq 0 (Z.to_nat dims))))))))).
Proof.
  intros Hd Hx Hrep HU HUrep. unfold draw_nsphere.
  destruct (draw_surface_nsphere_rounded dims N (Fin 1) _ _ _ _ Hx Hrep)
    as (y & Hy & Hyrep).
  rewrite (bind_ok _ _ _ _ _ Hy), (bind_ok _ _ _ _ _ HU).
  unfold py_int_truediv. destruct (Z.eqb_spec dims 0); [contradiction|].
  pose proof (represents_map2
                (fun v => fl_pow v (round (IZR 1 / IZR dims)))
                _ _ _ _ HUrep) as Hw.
  destruct (broadcast2_represents fl_mul _ _ _ _ _ _ _ _ _ _ Hw Hyrep
              (broadcast_dim_same _) (broadcast_dim_one_l _))
    as (z & Hz & Hzrep).
  cbn [lift]. unfold bind at 1, ret at 1.
  unfold np_multiply, power_scalar. rewrite Hz. cbn [lift bind ret].
  eexists. split; [reflexivity|].
  unfold scalar_mul.
  eapply represents_ext; [apply represents_map2, Hzrep|].
  intros i j Hi Hj. cbn beta.
  rewrite (stretch_lt _ i Hi), (stretch_lt _ j Hj), stretch_one.
  reflexivity.
Qed.

End Generator.

(** ** One row of the sphere and ball draws *)

Section Rows.

Context {fm : FloatModel}.

Lemma fl_pow_two (x : R) : fl_pow (Fin x) (Fin 2) = round (x * x).
Proof.
  unfold fl_pow. destruct (Req_EM_T 2 2); [reflexivity | contradiction].
Qed.

(** The norm computed for a row that is not the zero vector. *)
Lemma computed_norm_of_row (xs : list R) :
  float_laws -> Exists (fun v => v <> 0) xs -> normalisation_in_range xs ->
  fl_sqrt (sum_values (map (fun x => fl_pow (Fin x) (Fin 2)) xs))
  = Fin (row_length xs).
Proof.
  intros L Hex Hnorm.
  destruct (row_length_near xs L Hex Hnorm) as (Hsum & Hpos & Hroot & _).
  destruct Hnorm as (Hsq & _).
  destruct (row_squares_near xs L Hsq) as (Hmap & _).
  rewrite (map_ext _ (fun x => round (x * x)) fl_pow_two), Hmap.
  unfold sum_values. rewrite finite_values_map_Fin, Hsum.
  unfold fl_sqrt. rewrite np_sqrt_nonneg by lra. exact Hroot.
Qed.

Lemma fl_div_by_norm (xs : list R) (x : R) :
  float_laws -> Exists (fun v => v <> 0) xs -> normalisation_in_range xs ->
  In x xs ->
  fl_div (Fin x) (Fin (row_length xs)) = Fin (rnd (x / row_length xs)).
Proof.
  intros L Hex Hnorm Hin.
  destruct (row_length_near xs L Hex Hnorm) as (_ & _ & _ & Hpos & _).
  destruct (direction_near xs x L Hex Hnorm Hin) as [Hz _].
  unfold fl_div. rewrite div_finite by lra. exact Hz.
Qed.

(** An entry of the sphere draw: within [length xs + 4] roundings of
    the exact one. *)
Lemma sphere_entry (r0 : R) (xs : list R) (x : R) :
  float_laws -> Exists (fun v => v <> 0) xs -> normalisation_in_range xs ->
  scaling_in_range r0 xs -> In x xs ->
  fl_mul (Fin r0) (fl_div (Fin x) (Fin (row_length xs)))
  = Fin (rnd (r0 * rnd (x / row_length xs)))
  /\ near (length xs + 4) (Rabs (rnd (r0 * rnd (x / row_length xs))))
        (Rabs r0 * (Rabs x / euclidean_norm xs)).
Proof.
  intros L Hex Hnorm Hscale Hin.
  rewrite (fl_div_by_norm xs x L Hex Hnorm Hin).
  exact (scaled_near r0 xs x L Hex Hnorm Hscale Hin).
Qed.

(** A uniform value of the unit interval stays in it. *)
Lemma uniform_value_unit (u : R) :
  float_laws -> 0 <= u < 1 ->
  exists t, uniform_value (Fin 0) (Fin 1) u = Fin t /\ 0 <= t <= 1.
Proof.
  intros L Hu. unfold uniform_value, fl_add, fl_mul. cbn [mul rounded].
  destruct (round_unit (1 * u) L ltac:(lra)) as (t & Ht & Ht01).
  rewrite Ht. cbn [add rounded].
  apply (round_unit (0 + t) L). lra.
Qed.

(** The radial factor of the ball draw lies in the unit interval. *)
Lemma radial_factor_unit (t : R) (dims : Z) :
  float_laws -> 0 <= t <= 1 -> (1 <= dims)%Z ->
  exists w, fl_pow (Fin t) (round (IZR 1 / IZR dims)) = Fin w
            /\ 0 <= w <= 1.
Proof.
  intros L Ht Hd.
  assert (Hdims : 1 <= IZR dims) by (apply IZR_le; exact Hd).
  assert (He : 0 <= 1 / IZR dims <= 1).
  { split.
    - apply Rlt_le, Rdiv_lt_0_compat; lra.
    - apply (Rmult_le_reg_r (IZR dims)); [lra|].
      replace (1 / IZR dims * IZR dims) with 1 by (field; lra). lra. }
  destruct (round_unit _ L He) as (e & Hround & He01).
  rewrite Hround. unfold fl_pow.
  destruct (Req_EM_T e 2); [lra|].
  apply (libm_pow_unit L); lra.
Qed.

(** An entry of the ball draw is bounded by the exact one enlarged by
    [length xs + 5] roundings. *)
Lemma ball_entry (f0 r0 w : R) (xs : list R) (x : R) :
  float_laws -> Exists (fun v => v <> 0) xs -> normalisation_in_range xs ->
  in_range (f0 * r0) -> scaling_in_range (rnd (f0 * r0)) xs ->
  0 <= w <= 1 -> In x xs ->
  exists o,
    fl_mul (fl_mul (Fin f0) (Fin r0))
      (fl_mul (Fin w)
         (fl_mul (Fin 1) (fl_div (Fin x) (Fin (row_length xs))))) = Fin o
    /\ Rabs o <= Rabs (f0 * r0) * rho ^ (length xs + 5)
                 * (Rabs x / euclidean_norm xs).
Proof.
  intros L Hex Hnorm Hfr Hscale Hw Hin.
  rewrite (fl_div_by_norm xs x L Hex Hnorm Hin).
  destruct (direction_near xs x L Hex Hnorm Hin) as [Hz _].
  set (z := rnd (x / row_length xs)) in *.
  pose proof (round_idempotent L _ _ Hz) as Hzz.
  destruct (round_in_range _ L Hfr) as [Hfr_round _].
  pose proof (round_near _ L Hfr) as Hfr_near.
  set (fr := rnd (f0 * r0)) in *.
  destruct (scaled_near fr xs x L Hex Hnorm Hscale Hin) as [Hsz Hsz_near].
  fold z in Hsz, Hsz_near.
  destruct (round_between_zero (w * z) z z L Hzz (between_zero_unit w z Hw))
    as (m & Hm & Hmz).
  destruct (round_between_zero (fr * m) (fr * z) _ L Hsz
              (between_zero_scale fr m z Hmz))
    as (o & Ho & Hoz).
  exists o. split.
  - unfold fl_mul. cbn [mul rounded].
    replace (1 * z) with z by ring. rewrite Hzz. cbn [mul rounded].
    rewrite Hm, Hfr_round. cbn [mul rounded]. exact Ho.
  - pose proof (between_zero_abs _ _ Hoz) as Habs.
    destruct Hsz_near as [_ Hup]. destruct Hfr_near as [_ Hfup].
    rewrite pow_1 in Hfup.
    pose proof (sqrt_lt_R0 _ (Rsum_squares_list_pos xs Hex)) as HsA.
    fold (euclidean_norm xs) in HsA.
    assert (Hq0 : 0 <= Rabs x / euclidean_norm xs)
      by (apply Rle_mult_inv_pos; [apply Rabs_pos | exact HsA]).
    pose proof (rho_pow_ge_one (length xs + 4)) as Hk.
    replace (length xs + 5)%nat with (length xs + 4 + 1)%nat by lia.
    rewrite rho_pow_add, pow_1.
    apply Rle_trans with (1 := Habs). apply Rle_trans with (1 := Hup).
    pose proof (Rabs_pos fr).
    replace (Rabs (f0 * r0) * (rho ^ (length xs + 4) * rho)
             * (Rabs x / euclidean_norm xs))
      with (Rabs (f0 * r0) * rho * (Rabs x / euclidean_norm xs)
            * rho ^ (length xs + 4)) by ring.
    apply Rmult_le_compat_r; [lra|].
    apply Rmult_le_compat_r; [exact Hq0 | exact Hfup].
Qed.

End Rows.

(** ** The norms of the sphere and ball draws *)

Lemma map_row {B} (G : R -> B) (h : nat -> R) (c : nat) :
  map (fun j => G (h j)) (seq 0 c) = map G (map h (seq 0 c)).
Proof. symmetry. apply map_map. Qed.

Lemma gaussian_row_values (x : array2) (n c : nat) (h : nat -> nat -> R)
    (i : nat) (xs : list R) :
  represents x n c (fun i j => Fin (h i j)) -> (i < n)%nat ->
  finite_values (row x i) = Some xs -> xs = map (h i) (seq 0 c).
Proof.
  intros Hrep Hi Hfin.
  rewrite (row_of_represents _ _ _ _ i Hrep Hi) in Hfin.
  rewrite (map_row Fin (h i)), finite_values_map_Fin in Hfin.
  injection Hfin as <-. reflexivity.
Qed.

Lemma tolerance_pos (dims : nat) : 0 < tolerance dims.
Proof. unfold tolerance. pose proof (rho_pow_ge_one (dims + 5)). lra. Qed.

Section Claims.

Context {rng : NumpyRandom} {fm : FloatModel}.

(** The row of the sphere draw, entry by entry. *)
Lemma sphere_row_values (dims N : Z) (r0 : R)
    (st st1 : RandomState) (x : array2) (i : nat) (xs : list R) :
  float_laws ->
  np_random_randn N dims st = Ok (x, st1) ->
  (i < Z.to_nat N)%nat ->
  finite_values (row x i) = Some xs ->
  Exists (fun v => v <> 0) xs ->
  normalisation_in_range xs ->
  scaling_in_range r0 xs ->
  exists out,
    draw_surface_nsphere dims (Fin r0) N st = Ok (out, st1)
    /\ has_shape out N dims
    /\ finite_values (row out i)
       = Some (map (fun v => rnd (r0 * rnd (v / row_length xs))) xs).
Proof.
  intros L Hx Hi Hfin Hnz Hnorm Hscale.
  destruct (np_random_randn_sizes _ _ _ _ _ Hx) as [HN Hdims].
  destruct (np_random_randn_finite _ _ _ _ _ Hx) as (h & Hrep).
  pose proof (gaussian_row_values _ _ _ _ _ _ Hrep Hi Hfin) as Hxs.
  destruct (draw_surface_nsphere_rounded dims N (Fin r0) _ _ _ _ Hx Hrep)
    as (out & Hout & Horep).
  set (F := fun v => rnd (r0 * rnd (v / row_length xs))).
  exists out. split; [exact Hout|].
  split; [exact (has_shape_of_represents _ _ _ _ HN Hdims Horep)|].
  rewrite (row_of_represents _ _ _ _ i Horep Hi).
  rewrite (map_row (fun v => fl_pow (Fin v) (Fin 2)) (h i)), <- Hxs.
  rewrite (computed_norm_of_row xs L Hnz Hnorm).
  rewrite (map_row (fun v => fl_mul (Fin r0)
                               (fl_div (Fin v) (Fin (row_length xs))))
             (h i)), <- Hxs.
  rewrite (map_ext_in _ (fun v => Fin (F v))).
  - rewrite <- (map_map F Fin). apply finite_values_map_Fin.
  - intros v Hv.
    exact (proj1 (sphere_entry r0 xs v L Hnz Hnorm Hscale Hv)).
Qed.

(** C6 (amended). In double precision, for [dims >= 1] and every row
    whose Gaussian draw is not the zero vector and whose computation
    neither overflows nor underflows: the row of [draw_surface_nsphere]
    with radius [r > 0] has Euclidean norm [r] within floating tolerance
    (a factor [rho ^ (dims + 5)], where [rho = (1 + u) / (1 - u)] and [u]
    is the unit roundoff), and the row of [draw_nsphere] has Euclidean
    norm at most [|fuzz * r|], the radius enlarged by the fuzz factor,
    within the same tolerance. *)
Theorem sphere_draws_norm_tolerance (dims N : Z) (r0 f0 : R)
    (st st1 : RandomState) (x : array2) (i : nat) (xs : list R) :
  float_laws ->
  unit_interval_sampler ->
  (1 <= dims)%Z ->
  np_random_randn N dims st = Ok (x, st1) ->
  (i < Z.to_nat N)%nat ->
  finite_values (row x i) = Some xs ->
  Exists (fun v => v <> 0) xs ->
  normalisation_in_range xs ->
  (0 < r0 -> scaling_in_range r0 xs ->
   exists out vs,
     draw_surface_nsphere dims (Fin r0) N st = Ok (out, st1)
     /\ has_shape out N dims
     /\ finite_values (row out i) = Some vs
     /\ r0 / tolerance (Z.to_nat dims) <= euclidean_norm vs
        <= r0 * tolerance (Z.to_nat dims))
  /\ (in_range (f0 * r0) -> scaling_in_range (rnd (f0 * r0)) xs ->
      exists out st2 vs,
        draw_nsphere dims (Fin r0) N (Fin f0) st = Ok (out, st2)
        /\ has_shape out N dims
        /\ finite_values (row out i) = Some vs
        /\ euclidean_norm vs
           <= Rabs (f0 * r0) * tolerance (Z.to_nat dims)).
Proof.
  intros L Hunit Hd Hx Hi Hfin Hnz Hnorm.
  destruct (np_random_randn_finite _ _ _ _ _ Hx) as (h & Hrep).
  pose proof (gaussian_row_values _ _ _ _ _ _ Hrep Hi Hfin) as Hxs.
  assert (Hlen : length xs = Z.to_nat dims)
    by (rewrite Hxs, length_map, length_seq; reflexivity).
  pose proof (sqrt_lt_R0 _ (Rsum_squares_list_pos xs Hnz)) as HsA.
  fold (euclidean_norm xs) in HsA.
  assert (Hq0 : forall v, 0 <= Rabs v / euclidean_norm xs)
    by (intros v; apply Rle_mult_inv_pos; [apply Rabs_pos | exact HsA]).
  split.
  - intros Hr Hscale.
    destruct (sphere_row_values dims N r0 _ _ _ _ _ L Hx Hi Hfin Hnz Hnorm
                Hscale)
      as (out & Hout & Hshape & Hrow).
    set (F := fun v => rnd (r0 * rnd (v / row_length xs))) in *.
    exists out, (map F xs).
    split; [exact Hout|]. split; [exact Hshape|]. split; [exact Hrow|].
    assert (Hn : near (length xs + 4) (euclidean_norm (map F xs))
                   (euclidean_norm
                      (map (fun v => r0 * (Rabs v / euclidean_norm xs))
                         xs))).
    { apply near_norm.
      - intros v _. apply Rmult_le_pos; [lra | apply Hq0].
      - intros v Hv.
        pose proof (proj2 (sphere_entry r0 xs v L Hnz Hnorm Hscale Hv))
          as Hv'.
        rewrite (Rabs_pos_eq r0) in Hv' by lra. exact Hv'. }
    rewrite (norm_scaled_direction r0 xs (Rlt_le _ _ Hr) Hnz) in Hn.
    apply (near_weaken _ (length xs + 5)) in Hn; [|lia|lra].
    rewrite Hlen in Hn. fold (tolerance (Z.to_nat dims)) in Hn.
    pose proof (tolerance_pos (Z.to_nat dims)) as Ht.
    destruct Hn as [H1 H2]. split; [|exact H2].
    apply (Rmult_le_reg_r (tolerance (Z.to_nat dims))); [exact Ht|].
    replace (r0 / tolerance (Z.to_nat dims) * tolerance (Z.to_nat dims))
      with r0 by (field; lra).
    exact H1.
  - intros Hfr Hscale.
    destruct (np_random_uniform2_unit N 1 st1 L ltac:(lia) ltac:(lia))
      as (U & st2 & us & HU & Hus & HUrep).
    change (Z.to_nat 1) with 1%nat in *. rewrite Nat.mul_1_r in Hus.
    destruct (draw_nsphere_rounded dims N (Fin r0) (Fin f0) _ _ _ _ _ h
                (fun i j => uniform_value (Fin 0) (Fin 1)
                              (nth (i * 1 + j) us 0))
                ltac:(lia) Hx Hrep HU HUrep)
      as (out & Hout & Horep).
    assert (Hu : 0 <= nth (i * 1 + 0) us 0 < 1).
    { apply (nth_Forall (fun u => 0 <= u < 1)); [|lra].
      rewrite <- Hus. apply draw_values_Forall. exact Hunit. }
    destruct (uniform_value_unit _ L Hu) as (t & Ht & Ht01).
    destruct (radial_factor_unit t dims L Ht01 Hd) as (w & Hw & Hw01).
    set (G := fun v =>
                fl_mul (fl_mul (Fin f0) (Fin r0))
                  (fl_mul (Fin w)
                     (fl_mul (Fin 1)
                        (fl_div (Fin v) (Fin (row_length xs)))))).
    assert (HG : forall v, In v xs ->
                   G v = Fin (to_real (G v))
                   /\ Rabs (to_real (G v))
                      <= Rabs (f0 * r0) * rho ^ (length xs + 5)
                         * (Rabs v / euclidean_norm xs)).
    { intros v Hv.
      destruct (ball_entry f0 r0 w xs v L Hnz Hnorm Hfr Hscale Hw01 Hv)
        as (o & Ho & Hbound).
      fold (G v) in Ho. rewrite Ho. cbn [to_real].
      split; [reflexivity | exact Hbound]. }
    exists out, st2, (map (fun v => to_real (G v)) xs).
    split; [exact Hout|].
    split; [eapply has_shape_of_represents; [lia | lia | exact Horep]|].
    split.
    + rewrite (row_of_represents _ _ _ _ i Horep Hi).
      rewrite Ht, Hw.
      rewrite (map_row (fun v => fl_pow (Fin v) (Fin 2)) (h i)), <- Hxs.
      rewrite (computed_norm_of_row xs L Hnz Hnorm).
      rewrite (map_row G (h i)), <- Hxs.
      rewrite (map_ext_in _ (fun v => Fin (to_real (G v)))).
      * rewrite <- (map_map (fun v => to_real (G v)) Fin).
        apply finite_values_map_Fin.
      * intros v Hv. exact (proj1 (HG v Hv)).
    + unfold tolerance. rewrite <- Hlen.
      set (K := Rabs (f0 * r0) * rho ^ (length xs + 5)).
      assert (HK : 0 <= K).
      { unfold K. apply Rmult_le_pos; [apply Rabs_pos|].
        pose proof (rho_pow_ge_one (length xs + 5)). lra. }
      rewrite <- (norm_scaled_direction K xs HK Hnz).
      apply norm_le. intros v Hv. exact (proj2 (HG v Hv)).
Qed.

End Claims.

(** ** Arithmetic without rounding

    The exact float model meets the laws, and with it the functions of
    this part are those of the first part. *)

Lemma pow_unit_interval (x y : R) :
  0 <= x <= 1 -> 0 <= y ->
  exists w, Sampling.pow (Fin x) (Fin y) = Fin w /\ 0 <= w <= 1.
Proof.
  intros Hx Hy. unfold Sampling.pow.
  destruct (Req_EM_T y 0); [exists 1; split; [reflexivity | lra]|].
  destruct (Rlt_dec 0 x) as [Hpos|Hnpos].
  - exists (Rpower x y). split; [reflexivity|]. unfold Rpower. split.
    + left. apply exp_pos.
    + rewrite <- exp_0. apply exp_le.
      assert (ln x <= 0) by (rewrite <- ln_1; apply ln_le_mono; lra).
      nra.
  - destruct (Req_EM_T x 0); [|lra].
    destruct (Rlt_dec 0 y); [|lra].
    exists 0. split; [reflexivity | lra].
Qed.

Lemma exact_float_laws : @float_laws exact_float.
Proof.
  pose proof unit_roundoff_bounds as Hu.
  split; cbn [round add_reduce libm_pow exact_float].
  - intros x _. exists x. split; [reflexivity|].
    replace (x - x) with 0 by ring. rewrite Rabs_R0.
    pose proof (Rabs_pos x). nra.
  - intros x y Hxy. exact Hxy.
  - intros x y Hxy. injection Hxy as <-. reflexivity.
  - reflexivity.
  - intros l _ Hpos _. rewrite fold_add_finite.
    eexists. split; [reflexivity|].
    pose proof (Rsum_nonneg l Hpos) as Hsum.
    assert (Ha : 0 <= (1 - unit_roundoff) ^ length l <= 1).
    { split; [apply pow_le; lra|].
      apply Rle_trans with (1 ^ length l); [apply pow_incr; lra|].
      rewrite pow1. lra. }
    assert (Hb : 1 <= (1 + unit_roundoff) ^ length l)
      by (apply pow_R1_Rle; lra).
    split; nra.
  - intros x y Hx Hy. apply pow_unit_interval; assumption.
Qed.

Lemma rounded_exact (v : num) : rounded (fm := exact_float) v = v.
Proof. destruct v; reflexivity. Qed.

Lemma fl_pow_exact (a b : num) :
  fl_pow (fm := exact_float) a b = Sampling.pow a b.
Proof.
  destruct a as [x| | |], b as [y| | |]; try reflexivity.
  unfold fl_pow. destruct (Req_EM_T y 2) as [->|]; [|reflexivity].
  symmetry. apply pow_two.
Qed.

Lemma finite_values_Some (l : list num) (xs : list R) :
  finite_values l = Some xs -> l = map Fin xs.
Proof.
  revert xs. induction l as [|v l IH]; intros xs Hl.
  - injection Hl as <-. reflexivity.
  - destruct v as [x| | |]; try discriminate. cbn [finite_values] in Hl.
    destruct (finite_values l) as [ys|]; [|discriminate].
    injection Hl as <-. cbn [map]. rewrite (IH ys eq_refl). reflexivity.
Qed.

Lemma sum_values_exact (l : list num) :
  sum_values (fm := exact_float) l = fold_left add l (Fin 0).
Proof.
  unfold sum_values. destruct (finite_values l) as [xs|] eqn:Hl;
    [|reflexivity].
  rewrite (finite_values_Some _ _ Hl). reflexivity.
Qed.

Lemma map2_ext (f g : num -> num) (a : array2) :
  (forall v, f v = g v) -> map2 f a = map2 g a.
Proof. intros Hfg. unfold map2. f_equal. apply map_ext. exact Hfg. Qed.

Lemma broadcast2_ext (f g : num -> num -> num) (a b : array2) :
  (forall v w, f v w = g v w) -> broadcast2 f a b = broadcast2 g a b.
Proof.
  intros Hfg. unfold broadcast2.
  destruct (broadcast_dim (nrows a) (nrows b)) as [r|]; [|reflexivity].
  destruct (broadcast_dim (ncols a) (ncols b)) as [c|]; [|reflexivity].
  f_equal. unfold tabulate2. f_equal.
  apply flat_map_ext. intros i. apply map_ext. intros j. apply Hfg.
Qed.

Lemma power_scalar_exact (a : array2) (s : num) :
  power_scalar (fm := exact_float) a s = Sampling.power_scalar a s.
Proof. apply map2_ext. intros v. apply fl_pow_exact. Qed.

Lemma scalar_mul_exact (s : num) (a : array2) :
  scalar_mul (fm := exact_float) s a = Sampling.scalar_mul s a.
Proof. apply map2_ext. intros v. apply rounded_exact. Qed.

Lemma row_norms_exact (a : array2) :
  map (fl_sqrt (fm := exact_float))
    (np_sum_axis1 (fm := exact_float) (power_scalar (fm := exact_float) a (Fin 2)))
  = map np_sqrt (Sampling.np_sum_axis1 (Sampling.power_scalar a (Fin 2))).
Proof.
  rewrite power_scalar_exact.
  unfold np_sum_axis1, Sampling.np_sum_axis1. rewrite !map_map.
  apply map_ext. intros i. unfold fl_sqrt.
  rewrite rounded_exact, sum_values_exact. reflexivity.
Qed.

Section Exact.

Context {rng : NumpyRandom}.

Lemma np_random_uniform2_exact (low high : num) (size : Z * Z)
    (st : RandomState) :
  np_random_uniform2 (fm := exact_float) low high size st
  = Sampling.np_random_uniform2 low high size st.
Proof.
  unfold np_random_uniform2, Sampling.np_random_uniform2, fl_sub.
  rewrite rounded_exact.
  destruct (negb (is_finite (sub high low))); [reflexivity|].
  destruct ((fst size <? 0) || (snd size <? 0))%Z; [reflexivity|].
  destruct (draw_values random_sample _ st) as [us st'].
  do 3 f_equal. apply map_ext. intros u.
  unfold uniform_value, Sampling.uniform_value, fl_add, fl_mul.
  rewrite !rounded_exact. reflexivity.
Qed.

(** Without rounding, the sphere draw is the one of the first part. *)
Lemma draw_surface_nsphere_exact (dims : Z) (r : num) (N : Z)
    (st : RandomState) :
  draw_surface_nsphere (fm := exact_float) dims r N st
  = Sampling.draw_surface_nsphere dims r N st.
Proof.
  unfold draw_surface_nsphere, Sampling.draw_surface_nsphere, bind.
  destruct (np_random_randn N dims st) as [[x st1]|e]; [|reflexivity].
  unfold ret at 1 3. rewrite row_norms_exact.
  unfold np_divide, Sampling.np_divide.
  rewrite (broadcast2_ext (fl_div (fm := exact_float)) div)
    by (intros v w; apply rounded_exact).
  destruct (broadcast2 div x _) as [z|e]; [|reflexivity].
  cbn [lift]. unfold ret. rewrite scalar_mul_exact. reflexivity.
Qed.

(** So is the ball draw. *)
Lemma draw_nsphere_exact (dims : Z) (r : num) (N : Z) (fuzz : num)
    (st : RandomState) :
  draw_nsphere (fm := exact_float) dims r N fuzz st
  = Sampling.draw_nsphere dims r N fuzz st.
Proof.
  unfold draw_nsphere, Sampling.draw_nsphere, bind.
  rewrite draw_surface_nsphere_exact.
  destruct (Sampling.draw_surface_nsphere dims (Fin 1) N st)
    as [[x st1]|e]; [|reflexivity].
  rewrite np_random_uniform2_exact.
  destruct (Sampling.np_random_uniform2 (Fin 0) (Fin 1) (N, 1%Z) st1)
    as [[U st2]|e]; [|reflexivity].
  change (py_int_truediv (fm := exact_float) 1 dims)
    with (Sampling.py_int_truediv 1 dims).
  destruct (Sampling.py_int_truediv 1 dims) as [e|err]; [|reflexivity].
  cbn [lift]. unfold ret at 1 3. rewrite power_scalar_exact.
  unfold np_multiply, Sampling.np_multiply.
  rewrite (broadcast2_ext (fl_mul (fm := exact_float)) mul)
    by (intros v w; apply rounded_exact).
  destruct (broadcast2 mul _ x) as [z|err]; [|reflexivity].
  cbn [lift]. unfold ret. rewrite scalar_mul_exact.
  unfold fl_mul. rewrite rounded_exact. reflexivity.
Qed.

End Exact.

(** ** A float model that rounds *)

Lemma round_near_one_down (x : R) :
  1 < x < 1 + unit_roundoff -> round_near_one x = Fin 1.
Proof.
  intros Hx. unfold round_near_one.
  destruct (Rlt_dec 1 x); [|lra].
  destruct (Rlt_dec x (1 + unit_roundoff)); [reflexivity | lra].
Qed.

Lemma round_near_one_id (x : R) :
  x <= 1 \/ 1 + unit_roundoff <= x -> round_near_one x = Fin x.
Proof.
  intros Hx. unfold round_near_one.
  destruct (Rlt_dec 1 x); [|reflexivity].
  destruct (Rlt_dec x (1 + unit_roundoff)); [lra | reflexivity].
Qed.

Lemma coarse_float_laws : @float_laws coarse_float.
Proof.
  pose proof unit_roundoff_bounds as Hu.
  split; cbn [round add_reduce libm_pow coarse_float].
  - intros x _. unfold round_near_one.
    destruct (Rlt_dec 1 x) as [H1|H1];
      [destruct (Rlt_dec x (1 + unit_roundoff)) as [H2|H2]|];
      eexists; (split; [reflexivity|]).
    + rewrite Rabs_left1, Rabs_pos_eq by lra. nra.
    + replace (x - x) with 0 by ring. rewrite Rabs_R0.
      pose proof (Rabs_pos x). nra.
    + replace (x - x) with 0 by ring. rewrite Rabs_R0.
      pose proof (Rabs_pos x). nra.
  - intros x y Hxy. unfold round_near_one.
    destruct (Rlt_dec 1 x); [destruct (Rlt_dec x (1 + unit_roundoff))|];
      (destruct (Rlt_dec 1 y); [destruct (Rlt_dec y (1 + unit_roundoff))|]);
      cbn [num_le]; lra.
  - intros x y Hxy. unfold round_near_one in Hxy.
    destruct (Rlt_dec 1 x); [destruct (Rlt_dec x (1 + unit_roundoff))|];
      injection Hxy as <-; apply round_near_one_id; lra.
  - apply round_near_one_id. lra.
  - intros l _ Hpos _. eexists. split; [reflexivity|].
    pose proof (Rsum_nonneg l Hpos) as Hsum.
    assert (Ha : 0 <= (1 - unit_roundoff) ^ length l <= 1).
    { split; [apply pow_le; lra|].
      apply Rle_trans with (1 ^ length l); [apply pow_incr; lra|].
      rewrite pow1. lra. }
    assert (Hb : 1 <= (1 + unit_roundoff) ^ length l)
      by (apply pow_R1_Rle; lra).
    split; nra.
  - intros x y Hx Hy. apply pow_unit_interval; assumption.
Qed.

(** The row [[1]] in this model: nothing is rounded before the radius is
    applied. *)
Lemma coarse_rnd_id (x : R) :
  x <= 1 \/ 1 + unit_roundoff <= x -> rnd (fm := coarse_float) x = x.
Proof.
  intros Hx. unfold rnd. cbn [round coarse_float].
  rewrite (round_near_one_id x Hx). reflexivity.
Qed.

Lemma coarse_unit_row_length : row_length (fm := coarse_float) [1] = 1.
Proof.
  unfold row_length, row_sum, row_squares. cbn [map add_reduce coarse_float].
  rewrite (coarse_rnd_id (1 * 1)) by lra. cbn [to_real].
  rewrite Rsum_cons. change (Rsum []) with 0.
  replace (1 * 1 + 0) with 1 by lra. rewrite sqrt_1.
  apply coarse_rnd_id. lra.
Qed.

Lemma coarse_unit_direction : direction (fm := coarse_float) [1] = [1].
Proof.
  unfold direction. rewrite coarse_unit_row_length. cbn [map].
  rewrite (coarse_rnd_id (1 / 1)) by lra. f_equal. lra.
Qed.

Lemma coarse_unit_row_in_range (s : R) :
  in_range (s * 1) ->
  normalisation_in_range (fm := coarse_float) [1]
  /\ scaling_in_range (fm := coarse_float) s [1].
Proof.
  intros Hs.
  assert (H1 : in_range 1)
    by (apply in_range_unit; rewrite Rabs_pos_eq; lra).
  pose proof unit_roundoff_bounds as Hu. pose proof max_float_bound as Hm.
  unfold normalisation_in_range, scaling_in_range.
  rewrite coarse_unit_direction, coarse_unit_row_length.
  assert (Hsq : row_squares (fm := coarse_float) [1] = [1]).
  { unfold row_squares. cbn [map].
    rewrite (coarse_rnd_id (1 * 1)) by lra. f_equal. lra. }
  assert (Hsum : row_sum (fm := coarse_float) [1] = 1).
  { unfold row_sum. rewrite Hsq. cbn [add_reduce coarse_float to_real].
    rewrite Rsum_cons. change (Rsum []) with 0. lra. }
  rewrite Hsq, Hsum, sqrt_1, Rsum_cons. change (Rsum []) with 0.
  cbn [length]. rewrite pow_1.
  repeat split.
  - constructor; [|constructor].
    replace (1 * 1) with 1 by lra. exact H1.
  - lra.
  - exact H1.
  - constructor; [|constructor].
    replace (1 / 1) with 1 by lra. exact H1.
  - constructor; [exact Hs | constructor].
Qed.

Lemma radius_next_to_one :
  1 < 1 + unit_roundoff / 2 < 1 + unit_roundoff.
Proof. pose proof unit_roundoff_bounds. lra. Qed.

Lemma radius_next_to_one_in_range (k : R) :
  k = 1 -> in_range (k * (1 + unit_roundoff / 2)).
Proof.
  intros ->. pose proof unit_roundoff_bounds.
  apply in_range_unit. rewrite Rabs_pos_eq; lra.
Qed.

(** With the radius [1 + u / 2] the row [[1]] of the Gaussian draw gives
    the row [[1]]: the radius is lost in the rounding of the last
    product, and the norm is not the radius. *)
Lemma rounding_changes_the_norm :
  exists out,
    draw_surface_nsphere (rng := tape_random) (fm := coarse_float)
      1 (Fin (1 + unit_roundoff / 2)) 1 [1] = Ok (out, [])
    /\ has_shape out 1 1
    /\ finite_values (row out 0) = Some [1]
    /\ euclidean_norm [1] < 1 + unit_roundoff / 2.
Proof.
  pose proof radius_next_to_one as Hr.
  destruct (coarse_unit_row_in_range (1 + unit_roundoff / 2)) as [Hn Hs].
  { rewrite Rmult_comm. apply radius_next_to_one_in_range. reflexivity. }
  destruct (sphere_row_values (rng := tape_random) (fm := coarse_float)
              1 1 (1 + unit_roundoff / 2) [1] [] (Array2 1 1 [Fin 1]) 0 [1]
              coarse_float_laws eq_refl ltac:(cbn; lia) eq_refl
              ltac:(constructor; lra) Hn Hs)
    as (out & Hout & Hshape & Hrow).
  exists out. split; [exact Hout|]. split; [exact Hshape|]. split.
  - rewrite Hrow, coarse_unit_row_length. cbn [map].
    rewrite (coarse_rnd_id (1 / 1)) by lra.
    replace ((1 + unit_roundoff / 2) * (1 / 1))
      with (1 + unit_roundoff / 2) by lra.
    unfold rnd. cbn [round coarse_float].
    rewrite (round_near_one_down _ Hr). reflexivity.
  - unfold euclidean_norm. cbn [map]. rewrite Rsum_cons.
    change (Rsum []) with 0. replace (1 * 1 + 0) with 1 by lra.
    rewrite sqrt_1. lra.
Qed.

Lemma sphere_draws_norm_tolerance_witness :
  (exists out vs,
      draw_surface_nsphere (rng := tape_random) (fm := coarse_float)
        1 (Fin (1 + unit_roundoff / 2)) 1 [1; 3 / 4] = Ok (out, [3 / 4])
      /\ has_shape out 1 1
      /\ finite_values (row out 0) = Some vs
      /\ (1 + unit_roundoff / 2) / tolerance (Z.to_nat 1)
         <= euclidean_norm vs
         <= (1 + unit_roundoff / 2) * tolerance (Z.to_nat 1))
  /\ (exists out st2 vs,
         draw_nsphere (rng := tape_random) (fm := coarse_float)
           1 (Fin (1 + unit_roundoff / 2)) 1 (Fin 1) [1; 3 / 4]
         = Ok (out, st2)
         /\ has_shape out 1 1
         /\ finite_values (row out 0) = Some vs
         /\ euclidean_norm vs
            <= Rabs (1 * (1 + unit_roundoff / 2)) * tolerance (Z.to_nat 1)).
Proof.
  pose proof radius_next_to_one as Hr.
  destruct (sphere_draws_norm_tolerance (rng := tape_random)
              (fm := coarse_float) 1 1 (1 + unit_roundoff / 2) 1
              [1; 3 / 4] [3 / 4] (Array2 1 1 [Fin 1]) 0 [1])
    as [Hsphere Hball].
  - exact coarse_float_laws.
  - exact tape_unit_interval.
  - lia.
  - reflexivity.
  - cbn; lia.
  - reflexivity.
  - constructor. lra.
  - apply (coarse_unit_row_in_range 1).
    apply in_range_unit. rewrite Rabs_pos_eq; lra.
  - split.
    + apply Hsphere; [lra|].
      apply (coarse_unit_row_in_range (1 + unit_roundoff / 2)).
      rewrite Rmult_comm. apply radius_next_to_one_in_range. reflexivity.
    + apply Hball.
      * apply radius_next_to_one_in_range. reflexivity.
      * assert (Hfr : rnd (fm := coarse_float) (1 * (1 + unit_roundoff / 2))
                      = 1).
        { unfold rnd. cbn [round coarse_float].
          rewrite round_near_one_down by lra. reflexivity. }
        rewrite Hfr. apply (coarse_unit_row_in_range 1).
        apply in_range_unit. rewrite Rabs_pos_eq; lra.
Defined.

End Binary64Facts.

(* ================================================================== *)
(** * Further properties of the sampling utilities *)

Module SamplingExtras.

Import Sampling SamplingFacts.
Local Open Scope R_scope.

Section Compose.

Context {rng : NumpyRandom} {chi : ScipyChi}.

Lemma np_random_uniform2_inv (lo hi : R) (d0 d1 : Z)
    (st st1 : RandomState) (a : array2) :
  np_random_uniform2 (Fin lo) (Fin hi) (d0, d1) st = Ok (a, st1) ->
  (0 <= d0)%Z /\ (0 <= d1)%Z
  /\ exists us,
       draw_values random_sample (Z.to_nat d0 * Z.to_nat d1) st = (us, st1)
       /\ represents a (Z.to_nat d0) (Z.to_nat d1)
            (fun i j => Fin (lo + (hi + - lo)
                                  * nth (i * Z.to_nat d1 + j) us 0)).
Proof.
  unfold np_random_uniform2.
  cbn [sub neg add is_finite negb fst snd].
  destruct (Z.ltb_spec d0 0), (Z.ltb_spec d1 0); cbn [orb];
    try discriminate.
  pose proof (draw_values_length random_sample
                (Z.to_nat d0 * Z.to_nat d1) st) as Hlen.
  destruct (draw_values random_sample _ st) as [us st'].
  cbn [fst] in Hlen. intros Ha. injection Ha as <- <-.
  split; [assumption|]. split; [assumption|].
  exists us. split; [reflexivity|].
  rewrite <- (map_map (fun u => lo + (hi + - lo) * u) Fin).
  eapply represents_ext.
  - apply represents_finite_buffer. rewrite length_map. exact Hlen.
  - intros i j Hi Hj. cbn beta. f_equal.
    apply (nth_map_in (fun u => lo + (hi + - lo) * u)).
    rewrite Hlen. apply index_in_bounds; assumption.
Qed.

Lemma mul_one_l (v : num) : mul (Fin 1) v = v.
Proof.
  destruct v as [x| | |]; cbn [mul]; try reflexivity.
  - f_equal. lra.
  - unfold scale_inf. destruct (Req_EM_T 1 0); [lra|].
    destruct (Rlt_dec 0 1); [reflexivity | lra].
  - unfold scale_inf. destruct (Req_EM_T 1 0); [lra|].
    destruct (Rlt_dec 0 1); [reflexivity | lra].
Qed.

Lemma row_norm_of_finite (x : array2) (n c : nat) (h : nat -> nat -> R)
    (i : nat) :
  represents x n c (fun i j => Fin (h i j)) -> (i < n)%nat ->
  row_norm x i = Fin (sqrt (sumsq (h i) c)).
Proof.
  intros Hrep Hi. destruct (row_norms_finite x n c h Hrep) as [_ Hnth].
  exact (Hnth i Hi).
Qed.

(** X1. The sphere draw is the Gaussian draw with every row divided by
    its norm and multiplied by [r]; both leave the generator in the same
    state. *)
Theorem surface_is_normalised_gaussian {A B : Type} (dims N : Z) (r : num)
    (gr : A) (gfuzz : B) (st st1 : RandomState) (x : array2) :
  draw_gaussian dims gr N gfuzz st = Ok (x, st1) ->
  exists out,
    draw_surface_nsphere dims r N st = Ok (out, st1)
    /\ has_shape out N dims
    /\ forall i j, (i < Z.to_nat N)%nat -> (j < Z.to_nat dims)%nat ->
         get2 out i j = mul r (div (get2 x i j) (row_norm x i)).
Proof.
  unfold draw_gaussian. intros Hx.
  destruct (np_random_randn_sizes _ _ _ _ _ Hx) as [HN Hd].
  destruct (np_random_randn_finite _ _ _ _ _ Hx) as (h & Hrep).
  destruct (draw_surface_nsphere_represents dims N r _ _ _ _ Hx Hrep)
    as (out & Hout & Horep).
  exists out. split; [exact Hout|]. split.
  - eapply has_shape_of_represents; [exact HN | exact Hd | exact Horep].
  - intros i j Hi Hj.
    rewrite (row_norm_of_finite _ _ _ _ i Hrep Hi).
    destruct Hrep as (_ & _ & _ & Hgetx).
    destruct Horep as (_ & _ & _ & Hgeto).
    rewrite (Hgetx i j Hi Hj), (Hgeto i j Hi Hj). reflexivity.
Qed.

(** X2. The ball draw composes the Gaussian draw and a uniform column
    drawn after it: a point is its Gaussian row divided by its norm,
    times the [dims]-th root of the uniform value, times [fuzz * r]. *)
Theorem nsphere_is_scaled_direction {A B A' B' : Type} (dims N : Z)
    (r fuzz : num) (gr : A) (gfuzz : B) (ur : A') (ufuzz : B')
    (st st1 st2 : RandomState) (x U : array2) :
  dims <> 0%Z ->
  draw_gaussian dims gr N gfuzz st = Ok (x, st1) ->
  draw_uniform 1 ur N ufuzz st1 = Ok (U, st2) ->
  exists out,
    draw_nsphere dims r N fuzz st = Ok (out, st2)
    /\ has_shape out N dims
    /\ forall i j, (i < Z.to_nat N)%nat -> (j < Z.to_nat dims)%nat ->
         get2 out i j
         = mul (mul fuzz r)
             (mul (pow (get2 U i 0) (Fin (1 / IZR dims)))
                (div (get2 x i j) (row_norm x i))).
Proof.
  unfold draw_gaussian, draw_uniform. intros Hdims Hx HU.
  destruct (np_random_randn_sizes _ _ _ _ _ Hx) as [HN Hd].
  destruct (np_random_randn_finite _ _ _ _ _ Hx) as (h & Hrep).
  destruct (np_random_uniform2_inv _ _ _ _ _ _ _ HU)
    as (_ & _ & us & _ & HUrep).
  change (Z.to_nat 1) with 1%nat in HUrep.
  destruct (draw_nsphere_represents dims N r fuzz _ _ _ _ _ h
              (fun i j => 0 + (1 + - 0) * nth (i * 1 + j) us 0)
              Hdims Hx Hrep HU HUrep)
    as (out & Hout & Horep).
  exists out. split; [exact Hout|]. split.
  - eapply has_shape_of_represents; [exact HN | exact Hd | exact Horep].
  - intros i j Hi Hj.
    rewrite (row_norm_of_finite _ _ _ _ i Hrep Hi).
    destruct Hrep as (_ & _ & _ & Hgetx).
    destruct HUrep as (_ & _ & _ & HgetU).
    destruct Horep as (_ & _ & _ & Hgeto).
    rewrite (Hgetx i j Hi Hj), (HgetU i O Hi ltac:(lia)), (Hgeto i j Hi Hj).
    rewrite mul_one_l. reflexivity.
Qed.

(** X5. The ball draw inherits the unguarded division of the sphere
    draw: a zero Gaussian row gives a row of NaNs, whatever [r] and
    [fuzz], in an array of shape [(N, dims)], and the call returns
    normally. *)
Theorem draw_nsphere_zero_row (dims N : Z) (r fuzz : num)
    (st st1 : RandomState) (x : array2) (i : nat) :
  (0 < dims)%Z ->
  np_random_randn N dims st = Ok (x, st1) ->
  (i < Z.to_nat N)%nat ->
  (forall j, (j < Z.to_nat dims)%nat -> get2 x i j = Fin 0) ->
  exists out st2,
    draw_nsphere dims r N fuzz st = Ok (out, st2)
    /\ has_shape out N dims
    /\ (forall j, (j < Z.to_nat dims)%nat ->
          nth_error (elems out) (i * Z.to_nat dims + j) = Some NaN)
    /\ (forall j, (j < Z.to_nat dims)%nat -> get2 out i j = NaN)
    /\ nth_error (row_norms out) i = Some NaN
    /\ row_norm out i = NaN.
Proof.
  intros Hd Hx Hi Hzero.
  destruct (np_random_randn_sizes _ _ _ _ _ Hx) as [HN Hdims].
  destruct (np_random_randn_finite _ _ _ _ _ Hx) as (h & Hrep).
  destruct (np_random_uniform2_ok 0 1 N 1 st1)
    as (U & st2 & us & HU & _ & _ & HUrep); [lia | lia |].
  change (Z.to_nat 1) with 1%nat in HUrep.
  destruct (draw_nsphere_represents dims N r fuzz _ _ _ _ _ h
              (fun i j => 0 + (1 + - 0) * nth (i * 1 + j) us 0)
              ltac:(lia) Hx Hrep HU HUrep)
    as (out & Hout & Horep).
  assert (Hh : forall j, (j < Z.to_nat dims)%nat -> h i j = 0).
  { intros j Hj. destruct Hrep as (_ & _ & _ & Hget).
    specialize (Hget i j Hi Hj). rewrite (Hzero j Hj) in Hget.
    injection Hget as <-. reflexivity. }
  assert (Hnan : forall j, (j < Z.to_nat dims)%nat -> get2 out i j = NaN).
  { intros j Hj. destruct Horep as (_ & _ & _ & Hget).
    rewrite (Hget i j Hi Hj), (Hh j Hj), (sumsq_zero _ _ Hh), sqrt_0.
    rewrite div_zero_zero, !mul_nan_r. reflexivity. }
  pose proof (row_norm_all_nan _ _ _ _ _ Horep Hi Hnan ltac:(lia)) as Hnorm.
  exists out, st2. split; [exact Hout|].
  split; [exact (has_shape_of_represents _ _ _ _ HN Hdims Horep)|].
  split.
  { intros j Hj. rewrite (represents_nth_error _ _ _ _ i j Horep Hi Hj).
    destruct Horep as (_ & _ & _ & Hget).
    rewrite <- (Hget i j Hi Hj), (Hnan j Hj). reflexivity. }
  split; [exact Hnan|]. split; [|exact Hnorm].
  rewrite row_norms_nth_error, Hnorm; [reflexivity|].
  destruct Horep as (Hr & _). rewrite Hr. exact Hi.
Qed.

(** X6. The truncated Gaussian composes a uniform column drawn first
    and a Gaussian draw made after it: a point is its Gaussian row
    divided by its norm, times [sigma * ppf(u_max * u)]. *)
Theorem truncated_gaussian_composition {A B A' B' : Type} (dims N : Z)
    (r fuzz var : num) (u_max : R) (ur : A) (ufuzz : B) (gr : A')
    (gfuzz : B') (st st1 st2 : RandomState) (U x : array2) :
  chi_cdf (div (mul r fuzz) (np_sqrt var)) dims = Fin u_max ->
  draw_uniform 1 ur N ufuzz st = Ok (U, st1) ->
  draw_gaussian dims gr N gfuzz st1 = Ok (x, st2) ->
  exists out,
    draw_truncated_gaussian dims r N fuzz var st = Ok (out, st2)
    /\ has_shape out N dims
    /\ forall i j, (i < Z.to_nat N)%nat -> (j < Z.to_nat dims)%nat ->
         get2 out i j
         = div (mul (mul (np_sqrt var)
                         (chi_ppf (mul (Fin u_max) (get2 U i 0)) dims))
                    (get2 x i j))
               (row_norm x i).
Proof.
  unfold draw_uniform, draw_gaussian. intros Hc HU Hx.
  destruct (np_random_randn_sizes _ _ _ _ _ Hx) as [HN Hd].
  destruct (np_random_randn_finite _ _ _ _ _ Hx) as (h & Hrep).
  destruct (np_random_uniform2_inv _ _ _ _ _ _ _ HU)
    as (_ & _ & us & Hus & HUrep).
  change (Z.to_nat 1) with 1%nat in *. rewrite Nat.mul_1_r in Hus.
  destruct (draw_truncated_gaussian_represents dims N r fuzz var u_max
              _ _ _ _ _ h Hc HN Hus Hx Hrep)
    as (out & Hout & Horep).
  exists out. split; [exact Hout|]. split.
  - eapply has_shape_of_represents; [exact HN | exact Hd | exact Horep].
  - intros i j Hi Hj.
    rewrite (row_norm_of_finite _ _ _ _ i Hrep Hi).
    destruct Hrep as (_ & _ & _ & Hgetx).
    destruct HUrep as (_ & _ & _ & HgetU).
    destruct Horep as (_ & _ & _ & Hgeto).
    rewrite (Hgetx i j Hi Hj), (HgetU i O Hi ltac:(lia)), (Hgeto i j Hi Hj).
    rewrite Nat.mul_1_r, Nat.add_0_r. cbn [mul].
    replace (u_max * (0 + (1 + - 0) * nth i us 0))
      with (0 + (u_max + - 0) * nth i us 0) by ring.
    reflexivity.
Qed.

(** X7. A zero Gaussian direction makes the truncated Gaussian return a
    row of NaNs, whatever radius was drawn for it, in an array of shape
    [(N, dims)]. *)
Theorem draw_truncated_gaussian_zero_row (dims N : Z) (r fuzz var : num)
    (u_max : R) (st st2 : RandomState) (x : array2) (i : nat) :
  chi_cdf (div (mul r fuzz) (np_sqrt var)) dims = Fin u_max ->
  (0 < dims)%Z ->
  np_random_randn N dims
    (snd (draw_values random_sample (Z.to_nat N) st)) = Ok (x, st2) ->
  (i < Z.to_nat N)%nat ->
  (forall j, (j < Z.to_nat dims)%nat -> get2 x i j = Fin 0) ->
  exists out,
    draw_truncated_gaussian dims r N fuzz var st = Ok (out, st2)
    /\ has_shape out N dims
    /\ (forall j, (j < Z.to_nat dims)%nat ->
          nth_error (elems out) (i * Z.to_nat dims + j) = Some NaN)
    /\ (forall j, (j < Z.to_nat dims)%nat -> get2 out i j = NaN)
    /\ nth_error (row_norms out) i = Some NaN
    /\ row_norm out i = NaN.
Proof.
  intros Hc Hd Hx Hi Hzero.
  destruct (np_random_randn_sizes _ _ _ _ _ Hx) as [HN Hdims].
  destruct (truncated_zero_row_gives_nan dims N r fuzz var u_max
              st st2 x i Hc Hx Hi Hzero)
    as (out & g & Hout & Horep & Hnan).
  pose proof (row_norm_all_nan _ _ _ _ _ Horep Hi Hnan ltac:(lia)) as Hnorm.
  exists out. split; [exact Hout|].
  split; [exact (has_shape_of_represents _ _ _ _ HN Hdims Horep)|].
  split.
  { intros j Hj. rewrite (represents_nth_error _ _ _ _ i j Horep Hi Hj).
    destruct Horep as (_ & _ & _ & Hget).
    rewrite <- (Hget i j Hi Hj), (Hnan j Hj). reflexivity. }
  split; [exact Hnan|]. split; [|exact Hnorm].
  rewrite row_norms_nth_error, Hnorm; [reflexivity|].
  destruct Horep as (Hr & _). rewrite Hr. exact Hi.
Qed.

(** X8. With [r * fuzz = 0] the truncation radius is zero: every row of
    the truncated Gaussian with a non-zero direction is the origin. *)
Theorem draw_truncated_gaussian_zero_radius (dims N : Z) (r0 f0 v0 : R)
    (st st2 : RandomState) (x : array2) (i : nat) :
  unit_interval_sampler ->
  chi_laws dims ->
  r0 * f0 = 0 -> 0 < v0 ->
  np_random_randn N dims
    (snd (draw_values random_sample (Z.to_nat N) st)) = Ok (x, st2) ->
  (i < Z.to_nat N)%nat ->
  (exists j, (j < Z.to_nat dims)%nat /\ get2 x i j <> Fin 0) ->
  exists out,
    draw_truncated_gaussian dims (Fin r0) N (Fin f0) (Fin v0) st
    = Ok (out, st2)
    /\ forall j, (j < Z.to_nat dims)%nat -> get2 out i j = Fin 0.
Proof.
  intros Hunit Hchi Hrf Hv Hx Hi Hnz.
  destruct (np_random_randn_sizes _ _ _ _ _ Hx) as [HN _].
  pose proof (sqrt_lt_R0 _ Hv) as Hsig.
  destruct (cdf_range dims Hchi 0 ltac:(lra)) as (c & Hc & Hc01).
  assert (Hcdf : chi_cdf (div (mul (Fin r0) (Fin f0)) (np_sqrt (Fin v0))) dims
                 = Fin c).
  { rewrite np_sqrt_nonneg by lra. cbn [mul].
    rewrite div_finite, Hrf by lra.
    replace (0 / sqrt v0) with 0 by (field; lra). exact Hc. }
  pose proof (draw_values_Forall (fun u => 0 <= u < 1) random_sample
                (Z.to_nat N) st Hunit) as Hall.
  destruct (draw_values random_sample (Z.to_nat N) st) as [us st1] eqn:Hus.
  cbn [fst snd] in *.
  destruct (np_random_randn_finite _ _ _ _ _ Hx) as (h & Hrep).
  destruct (draw_truncated_gaussian_represents dims N _ _ _ c _ _ _ _ _ h
              Hcdf HN Hus Hx Hrep)
    as (out & Hout & Horep).
  pose proof (nonzero_row_sumsq _ _ _ _ _ Hrep Hi Hnz) as Hpos.
  pose proof (sqrt_lt_R0 _ Hpos) as Hs.
  assert (Hu : 0 <= nth i us 0 < 1)
    by (apply (nth_Forall (fun u => 0 <= u < 1)); [exact Hall | lra]).
  assert (Hui : 0 + (c + - 0) * nth i us 0 = c * nth i us 0) by lra.
  assert (Huc : 0 <= c * nth i us 0 <= c) by nra.
  destruct (ppf_finite dims Hchi (c * nth i us 0) ltac:(lra))
    as (q & Hq & Hq0).
  pose proof (ppf_monotone dims Hchi (c * nth i us 0) c q 0
                ltac:(lra) ltac:(lra) Hq
                (ppf_cdf dims Hchi 0 c ltac:(lra) Hc))
    as Hq1.
  assert (q = 0) by lra. subst q.
  exists out. split; [exact Hout|].
  intros j Hj. destruct Horep as (_ & _ & _ & Hget).
  rewrite (Hget i j Hi Hj), Hui, Hq, np_sqrt_nonneg by lra. cbn [mul].
  rewrite div_finite by lra. f_equal. field. lra.
Qed.

Lemma div_nan_r (a : num) : div a NaN = NaN.
Proof. destruct a; reflexivity. Qed.

(** X9. A negative variance is not rejected by the function itself:
    [sigma] is NaN, the distribution function of NaN is NaN, and the
    call fails inside [np.random.uniform] with an overflow error. *)
Theorem draw_truncated_gaussian_negative_variance (dims N : Z)
    (r fuzz : num) (v0 : R) (st : RandomState) :
  v0 < 0 ->
  chi_cdf NaN dims = NaN ->
  draw_truncated_gaussian dims r N fuzz (Fin v0) st
  = Raise (OverflowError "Range exceeds valid bounds").
Proof.
  intros Hv Hnan. unfold draw_truncated_gaussian, np_sqrt.
  destruct (Rlt_dec v0 0); [|lra].
  rewrite div_nan_r, Hnan. reflexivity.
Qed.

(** X10. With [dims = 0] the sphere draw returns an array of shape
    [(N, 0)], but the ball draw raises a zero-division error. *)
Theorem draw_nsphere_zero_dims (N : Z) (r fuzz : num) (st : RandomState) :
  (0 <= N)%Z ->
  draw_nsphere 0 r N fuzz st = Raise (ZeroDivisionError "division by zero")
  /\ exists a st',
       draw_surface_nsphere 0 r N st = Ok (a, st') /\ has_shape a N 0.
Proof.
  intros HN. split; [|apply draw_surface_nsphere_shape; lia].
  destruct (draw_surface_nsphere_shape 0 N (Fin 1) st HN ltac:(lia))
    as (a & st1 & Ha & _).
  destruct (np_random_uniform2_ok 0 1 N 1 st1)
    as (U & st2 & us & HU & _); [lia | lia |].
  unfold draw_nsphere.
  rewrite (bind_ok _ _ _ _ _ Ha), (bind_ok _ _ _ _ _ HU). reflexivity.
Qed.

(** X11. A negative [N] or [dims] is rejected by numpy with a value
    error in the uniform, Gaussian, sphere and ball draws; so is a
    negative [N] in the truncated Gaussian, once the bounds of its
    uniform draw are finite. *)
Theorem negative_sizes_rejected (dims N : Z) (r fuzz var : num) (u_max : R)
    (st : RandomState) :
  (N < 0 \/ dims < 0)%Z ->
  draw_uniform dims r N fuzz st = Raise negative_dimensions
  /\ draw_gaussian dims r N fuzz st = Raise negative_dimensions
  /\ draw_surface_nsphere dims r N st = Raise negative_dimensions
  /\ draw_nsphere dims r N fuzz st = Raise negative_dimensions
  /\ ((N < 0)%Z ->
      chi_cdf (div (mul r fuzz) (np_sqrt var)) dims = Fin u_max ->
      draw_truncated_gaussian dims r N fuzz var st
      = Raise negative_dimensions).
Proof.
  intros Hneg.
  assert (Hb : ((N <? 0) || (dims <? 0))%Z = true).
  { apply orb_true_iff. destruct Hneg; [left | right]; apply Z.ltb_lt; lia. }
  assert (Hrandn : np_random_randn N dims st = Raise negative_dimensions).
  { unfold np_random_randn. rewrite Hb. reflexivity. }
  split; [|split; [|split; [|split]]].
  - unfold draw_uniform, np_random_uniform2.
    cbn [sub neg add is_finite negb fst snd]. rewrite Hb. reflexivity.
  - exact Hrandn.
  - unfold draw_surface_nsphere, bind. rewrite Hrandn. reflexivity.
  - unfold draw_nsphere, draw_surface_nsphere, bind. rewrite Hrandn.
    reflexivity.
  - intros HN Hc. unfold draw_truncated_gaussian. rewrite Hc.
    unfold bind, np_random_uniform1. cbn [sub neg add is_finite negb].
    destruct (Z.ltb_spec N 0); [reflexivity | lia].
Qed.

Lemma represents_empty (a : array2) (c : nat) (g : nat -> nat -> num) :
  represents a 0 c g -> a = Array2 0 c [].
Proof.
  destruct a as [n k l]. unfold represents, well_formed.
  cbn [nrows ncols elems]. intros (-> & -> & Hwf & _).
  destruct l; [reflexivity | discriminate].
Qed.

Lemma np_random_randn_empty (dims : Z) (st : RandomState) :
  (0 <= dims)%Z ->
  np_random_randn 0 dims st = Ok (Array2 0 (Z.to_nat dims) [], st).
Proof.
  intros Hd. unfold np_random_randn.
  destruct (Z.ltb_spec dims 0); [lia | reflexivity].
Qed.

(** X12. Asked for [N = 0] samples, every drawing function returns the
    empty array of shape [(0, dims)] and leaves the generator state
    untouched. *)
Theorem zero_samples_consume_nothing (dims : Z) (r fuzz var : num)
    (u_max : R) (st : RandomState) :
  (0 <= dims)%Z ->
  draw_uniform dims r 0 fuzz st = Ok (Array2 0 (Z.to_nat dims) [], st)
  /\ draw_gaussian dims r 0 fuzz st = Ok (Array2 0 (Z.to_nat dims) [], st)
  /\ draw_surface_nsphere dims r 0 st
     = Ok (Array2 0 (Z.to_nat dims) [], st)
  /\ (dims <> 0%Z ->
      draw_nsphere dims r 0 fuzz st = Ok (Array2 0 (Z.to_nat dims) [], st))
  /\ (chi_cdf (div (mul r fuzz) (np_sqrt var)) dims = Fin u_max ->
      draw_truncated_gaussian dims r 0 fuzz var st
      = Ok (Array2 0 (Z.to_nat dims) [], st)).
Proof.
  intros Hd.
  pose proof (np_random_randn_empty dims st Hd) as Hx.
  assert (Hrep : represents (Array2 0 (Z.to_nat dims) []) (Z.to_nat 0)
                   (Z.to_nat dims) (fun i j => Fin 0)).
  { repeat split. intros i j Hi. cbn in Hi. lia. }
  split; [|split; [|split; [|split]]].
  - unfold draw_uniform, np_random_uniform2.
    cbn [sub neg add is_finite negb fst snd].
    destruct (Z.ltb_spec dims 0); [lia | reflexivity].
  - exact Hx.
  - destruct (draw_surface_nsphere_represents dims 0 r _ _ _ _ Hx Hrep)
      as (out & Hout & Horep).
    rewrite Hout, (represents_empty _ _ _ Horep). reflexivity.
  - intros Hne.
    assert (HU : np_random_uniform2 (Fin 0) (Fin 1) (0%Z, 1%Z) st
                 = Ok (Array2 0 1 [], st)) by reflexivity.
    assert (HUrep : represents (Array2 0 1 []) (Z.to_nat 0) 1
                      (fun i j => Fin 0)).
    { repeat split. intros i j Hi. cbn in Hi. lia. }
    destruct (draw_nsphere_represents dims 0 r fuzz _ _ _ _ _ _ _
                Hne Hx Hrep HU HUrep)
      as (out & Hout & Horep).
    rewrite Hout, (represents_empty _ _ _ Horep). reflexivity.
  - intros Hc.
    destruct (draw_truncated_gaussian_represents dims 0 r fuzz var u_max
                st st st [] _ (fun i j => 0) Hc ltac:(lia) eq_refl Hx Hrep)
      as (out & Hout & Horep).
    rewrite Hout, (represents_empty _ _ _ Horep). reflexivity.
Qed.

(** X13. The defaults of the signatures: called with [dims] alone, the
    sphere, ball, uniform and Gaussian draws return 1000 samples, while
    the truncated Gaussian, whose [r] has no default, raises a type
    error. *)
Theorem default_sample_count (dims : Z) (st : RandomState) :
  (0 < dims)%Z ->
  (exists a st',
      call py_draw_surface_nsphere [PyInt dims] [] st = Ok (a, st')
      /\ has_shape a 1000 dims)
  /\ (exists a st',
         call py_draw_nsphere [PyInt dims] [] st = Ok (a, st')
         /\ has_shape a 1000 dims)
  /\ (exists a st',
         call py_draw_uniform [PyInt dims] [] st = Ok (a, st')
         /\ has_shape a 1000 dims)
  /\ (exists a st',
         call py_draw_gaussian [PyInt dims] [] st = Ok (a, st')
         /\ has_shape a 1000 dims)
  /\ call py_draw_truncated_gaussian [PyInt dims] [] st
     = Raise (TypeError
         "draw_truncated_gaussian() missing 1 required positional argument: 'r'").
Proof.
  intros Hd. split; [|split; [|split; [|split]]].
  - unfold call. cbn [bind_arguments check_keywords length Nat.ltb Nat.leb
                      py_draw_surface_nsphere fn_params fn_body
                      fill_parameters tl lookup_keyword].
    cbn [as_int as_float lift bind ret].
    apply draw_surface_nsphere_shape; lia.
  - unfold call. cbn [bind_arguments check_keywords length Nat.ltb Nat.leb
                      py_draw_nsphere fn_params fn_body
                      fill_parameters tl lookup_keyword].
    cbn [as_int as_float lift bind ret].
    apply draw_nsphere_shape; lia.
  - unfold call. cbn [bind_arguments check_keywords length Nat.ltb Nat.leb
                      py_draw_uniform fn_params fn_body
                      fill_parameters tl lookup_keyword].
    cbn [as_int lift bind ret].
    apply draw_uniform_shape; lia.
  - unfold call. cbn [bind_arguments check_keywords length Nat.ltb Nat.leb
                      py_draw_gaussian fn_params fn_body
                      fill_parameters tl lookup_keyword].
    cbn [as_int lift bind ret].
    apply draw_gaussian_shape; lia.
  - reflexivity.
Qed.

End Compose.

(** ** Concrete runs of the properties above *)

Lemma surface_is_normalised_gaussian_witness :
  exists out,
    draw_surface_nsphere (rng := tape_random) 1 (Fin 2) 1 [3] = Ok (out, [])
    /\ has_shape out 1 1
    /\ forall i j, (i < Z.to_nat 1)%nat -> (j < Z.to_nat 1)%nat ->
         get2 out i j
         = mul (Fin 2) (div (get2 (Array2 1 1 [Fin 3]) i j)
                            (row_norm (Array2 1 1 [Fin 3]) i)).
Proof.
  apply (surface_is_normalised_gaussian (rng := tape_random) 1 1 (Fin 2)
           (Fin 1) (Fin 1) [3] [] (Array2 1 1 [Fin 3])).
  reflexivity.
Defined.

Lemma nsphere_is_scaled_direction_witness :
  exists out,
    draw_nsphere (rng := tape_random) 1 (Fin 2) 1 (Fin 1) [3; 1 / 4]
    = Ok (out, [])
    /\ has_shape out 1 1.
Proof.
  destruct (nsphere_is_scaled_direction (rng := tape_random) 1 1
              (Fin 2) (Fin 1) (Fin 1) (Fin 1) (Fin 1) (Fin 1)
              [3; 1 / 4] [1 / 4] []
              (Array2 1 1 [Fin 3])
              (Array2 1 1 [uniform_value (Fin 0) (sub (Fin 1) (Fin 0))
                             (clamp_unit (1 / 4))]))
    as (out & Hout & Hshape & _).
  - lia.
  - reflexivity.
  - reflexivity.
  - exists out. split; assumption.
Defined.

Lemma draw_nsphere_zero_row_witness :
  exists out st2,
    draw_nsphere (rng := tape_random) 1 (Fin 1) 1 (Fin 1) [0; 1 / 2]
    = Ok (out, st2)
    /\ has_shape out 1 1
    /\ (forall j, (j < Z.to_nat 1)%nat ->
          nth_error (elems out) (0 * Z.to_nat 1 + j) = Some NaN)
    /\ (forall j, (j < Z.to_nat 1)%nat -> get2 out 0 j = NaN)
    /\ nth_error (row_norms out) 0 = Some NaN
    /\ row_norm out 0 = NaN.
Proof.
  apply (draw_nsphere_zero_row (rng := tape_random) 1 1 (Fin 1) (Fin 1)
           [0; 1 / 2] [1 / 2] (Array2 1 1 [Fin 0]) 0).
  - lia.
  - reflexivity.
  - cbn; lia.
  - intros j Hj. destruct j; [reflexivity | cbn in Hj; lia].
Defined.

Lemma unit_radius_cdf_argument (c : R) :
  chi_cdf (ScipyChi := chi_two) (Fin (1 * 1 / sqrt 1)) 2 = Fin c ->
  chi_cdf (ScipyChi := chi_two)
    (div (mul (Fin 1) (Fin 1)) (np_sqrt (Fin 1))) 2 = Fin c.
Proof.
  intros Hc. rewrite <- Hc. f_equal. apply sqrt_one_cdf_argument.
Qed.

Lemma truncated_gaussian_composition_witness :
  exists out,
    draw_truncated_gaussian (rng := tape_random) (chi := chi_two)
      2 (Fin 1) 1 (Fin 1) (Fin 1) [1 / 2; 1; 0]
    = Ok (out, [])
    /\ has_shape out 1 2.
Proof.
  destruct (chi_two_cdf_finite (1 * 1 / sqrt 1)) as (c & Hc).
  destruct (truncated_gaussian_composition (rng := tape_random)
              (chi := chi_two) 2 1 (Fin 1) (Fin 1) (Fin 1) c
              (Fin 1) (Fin 1) (Fin 1) (Fin 1)
              [1 / 2; 1; 0] [1; 0] []
              (Array2 1 1 [uniform_value (Fin 0) (sub (Fin 1) (Fin 0))
                             (clamp_unit (1 / 2))])
              (Array2 1 2 [Fin 1; Fin 0]))
    as (out & Hout & Hshape & _).
  - apply unit_radius_cdf_argument. exact Hc.
  - reflexivity.
  - reflexivity.
  - exists out. split; assumption.
Defined.

Lemma draw_truncated_gaussian_zero_row_witness :
  exists out,
    draw_truncated_gaussian (rng := tape_random) (chi := chi_two)
      2 (Fin 1) 2 (Fin 1) (Fin 1) [1 / 2; 1 / 4; 1; 0; 0; 0]
    = Ok (out, [])
    /\ has_shape out 2 2
    /\ (forall j, (j < Z.to_nat 2)%nat ->
          nth_error (elems out) (1 * Z.to_nat 2 + j) = Some NaN)
    /\ (forall j, (j < Z.to_nat 2)%nat -> get2 out 1 j = NaN)
    /\ nth_error (row_norms out) 1 = Some NaN
    /\ row_norm out 1 = NaN.
Proof.
  destruct (chi_two_cdf_finite (1 * 1 / sqrt 1)) as (c & Hc).
  apply (draw_truncated_gaussian_zero_row (rng := tape_random)
           (chi := chi_two) 2 2 (Fin 1) (Fin 1) (Fin 1) c
           [1 / 2; 1 / 4; 1; 0; 0; 0] []
           (Array2 2 2 [Fin 1; Fin 0; Fin 0; Fin 0]) 1).
  - apply unit_radius_cdf_argument. exact Hc.
  - lia.
  - reflexivity.
  - cbn; lia.
  - intros j Hj. destruct j as [|[|j]]; [reflexivity | reflexivity|].
    cbn in Hj; lia.
Defined.

Lemma draw_truncated_gaussian_zero_radius_witness :
  exists out,
    draw_truncated_gaussian (rng := tape_random) (chi := chi_two)
      2 (Fin 0) 1 (Fin 1) (Fin 1) [1 / 2; 1; 0]
    = Ok (out, [])
    /\ forall j, (j < Z.to_nat 2)%nat -> get2 out 0 j = Fin 0.
Proof.
  apply (draw_truncated_gaussian_zero_radius (rng := tape_random)
           (chi := chi_two) 2 1 0 1 1 [1 / 2; 1; 0] []
           (Array2 1 2 [Fin 1; Fin 0]) 0).
  - exact tape_unit_interval.
  - exact chi_two_laws.
  - lra.
  - lra.
  - reflexivity.
  - cbn; lia.
  - exists 0%nat. split; [cbn; lia | exact one_nonzero].
Defined.

Lemma draw_truncated_gaussian_negative_variance_witness :
  draw_truncated_gaussian (rng := tape_random) (chi := chi_two)
    2 (Fin 1) 3 (Fin 1) (Fin (- 1)) []
  = Raise (OverflowError "Range exceeds valid bounds").
Proof.
  apply (draw_truncated_gaussian_negative_variance (rng := tape_random)
           (chi := chi_two) 2 3 (Fin 1) (Fin 1) (- 1) []).
  - lra.
  - reflexivity.
Defined.

Lemma draw_nsphere_zero_dims_witness :
  draw_nsphere (rng := tape_random) 0 (Fin 1) 2 (Fin 1) []
  = Raise (ZeroDivisionError "division by zero")
  /\ exists a st',
       draw_surface_nsphere (rng := tape_random) 0 (Fin 1) 2 []
       = Ok (a, st')
       /\ has_shape a 2 0.
Proof.
  apply (draw_nsphere_zero_dims (rng := tape_random) 2 (Fin 1) (Fin 1) []).
  lia.
Defined.

Lemma negative_sizes_rejected_witness :
  draw_uniform (rng := tape_random) 2 (Fin 1) (- 1) (Fin 1) []
  = Raise negative_dimensions
  /\ draw_gaussian (rng := tape_random) 2 (Fin 1) (- 1) (Fin 1) []
     = Raise negative_dimensions
  /\ draw_surface_nsphere (rng := tape_random) 2 (Fin 1) (- 1) []
     = Raise negative_dimensions
  /\ draw_nsphere (rng := tape_random) 2 (Fin 1) (- 1) (Fin 1) []
     = Raise negative_dimensions.
Proof.
  destruct (negative_sizes_rejected (rng := tape_random) (chi := chi_two)
              2 (- 1) (Fin 1) (Fin 1) (Fin 1) 0 [])
    as (H1 & H2 & H3 & H4 & _).
  - left. lia.
  - repeat split; assumption.
Defined.

Lemma zero_samples_consume_nothing_witness :
  draw_uniform (rng := tape_random) 2 (Fin 1) 0 (Fin 1) [1 / 2]
  = Ok (Array2 0 (Z.to_nat 2) [], [1 / 2])
  /\ draw_gaussian (rng := tape_random) 2 (Fin 1) 0 (Fin 1) [1 / 2]
     = Ok (Array2 0 (Z.to_nat 2) [], [1 / 2])
  /\ draw_surface_nsphere (rng := tape_random) 2 (Fin 1) 0 [1 / 2]
     = Ok (Array2 0 (Z.to_nat 2) [], [1 / 2]).
Proof.
  destruct (zero_samples_consume_nothing (rng := tape_random)
              (chi := chi_two) 2 (Fin 1) (Fin 1) (Fin 1) 0 [1 / 2])
    as (H1 & H2 & H3 & _).
  - lia.
  - repeat split; assumption.
Defined.

Lemma default_sample_count_witness :
  (exists a st',
      call (rng := tape_random) py_draw_uniform [PyInt 2] [] []
      = Ok (a, st')
      /\ has_shape a 1000 2)
  /\ call (rng := tape_random)
       (py_draw_truncated_gaussian (chi := chi_two)) [PyInt 2] [] []
     = Raise (TypeError
         "draw_truncated_gaussian() missing 1 required positional argument: 'r'").
Proof.
  destruct (default_sample_count (rng := tape_random) (chi := chi_two) 2 [])
    as (_ & _ & H3 & _ & H5).
  - lia.
  - split; assumption.
Defined.

End SamplingExtras.
